(** * HPACK (draft 07) header compression of hyper: [hyper/http20/hpack.py]

    A shallow embedding of the integer codec, the [Encoder] and the [Decoder]
    of [hyper/http20/hpack.py], followed by the properties that the
    specification states about them.

    Conventions.
    - A Python [bytes] object is a list of integers, each octet being a [Z]
      in [0..255]; [to_byte] (of [hyper.compat]) is then the identity.
    - Python integers are unbounded: they are [Z].
    - A call that may raise returns a [result]; the state reached when an
      exception leaves a method is not observed, so a raising call returns
      the exception only.
    - The codec objects are records, and every method takes the record and
      returns the updated one together with its value. *)

From Equations Require Import Equations.
From Stdlib Require Import ZArith List Lia Bool String Ascii Permutation.
Import ListNotations.
Open Scope Z_scope.

(** ** The Python run time the module relies on *)

Inductive exn : Type :=
| IndexError            (* sequence index out of range *)
| KeyError              (* missing dictionary or set key *)
| ValueError            (* bytearray element out of range(256), negative shift *)
| TypeError             (* unpacking or subscripting None *)
| AttributeError        (* attribute of None *)
| UnicodeEncodeError
| UnicodeDecodeError
| HuffmanError          (* whatever the external Huffman decoder raises *)
| HPACKEncodingError.   (* hyper.http20.exceptions *)

Inductive result (A : Type) : Type :=
| Ok (a : A)
| Raise (e : exn).
Arguments Ok {A} a.
Arguments Raise {A} e.

Definition bind {A B : Type} (c : result A) (k : A -> result B) : result B :=
  match c with
  | Ok a => k a
  | Raise e => Raise e
  end.

Declare Scope py_scope.
Delimit Scope py_scope with py.
Notation "x <- c ;; k" := (bind c (fun x => k))
  (at level 61, c at next level, right associativity) : py_scope.
Notation "' p <- c ;; k" := (bind c (fun x => let 'p := x in k))
  (at level 61, p pattern, c at next level, right associativity) : py_scope.
Open Scope py_scope.

Definition bytes : Type := list Z.
Definition text : Type := list Z.          (* a str: its code points *)
Definition header : Type := (bytes * bytes)%type.

Definition len {A : Type} (l : list A) : Z := Z.of_nat (List.length l).

(** [l[i]] for a list, a deque or a bytes object: a negative index counts
    from the end, and an index outside the sequence raises [IndexError]. *)
Definition getitem {A : Type} (l : list A) (i : Z) : result A :=
  let j := if i <? 0 then len l + i else i in
  if j <? 0 then Raise IndexError
  else match nth_error l (Z.to_nat j) with
       | Some a => Ok a
       | None => Raise IndexError
       end.

(** [l[start:]] and [l[start:stop]]: slices never raise, they clamp. *)
Definition clamp {A : Type} (l : list A) (i : Z) : nat :=
  Z.to_nat (if i <? 0 then Z.max (len l + i) 0 else Z.min i (len l)).

Definition slice_from {A : Type} (l : list A) (start : Z) : list A :=
  skipn (clamp l start) l.

Definition slice {A : Type} (l : list A) (start stop : Z) : list A :=
  firstn (clamp l stop - clamp l start) (skipn (clamp l start) l).

(** [bytearray(elements)]: every element must be in [range(256)]. *)
Definition bytearray (elements : list Z) : result bytes :=
  if forallb (fun x => (0 <=? x) && (x <? 256)) elements
  then Ok elements else Raise ValueError.

(** Modelled from the spec: [hyper/compat.py], which declares [to_byte], is
    not among the sources. The specification reads an octet of the input as
    the integer it holds ("Read byte [b]; [I <- b & M]"), which on the
    representation of [bytes] chosen here is the identity. *)
Definition to_byte (c : Z) : Z := c.

(** Equality of byte strings and of header tuples ([==] in the source). *)
Definition bytes_eqb (a b : bytes) : bool :=
  if list_eq_dec Z.eq_dec a b then true else false.

Definition header_eqb (h k : header) : bool :=
  bytes_eqb (fst h) (fst k) && bytes_eqb (snd h) (snd k).

(** Ordering of byte strings and of tuples of them ([<], used by [sorted]). *)
Fixpoint bytes_ltb (a b : bytes) : bool :=
  match a, b with
  | _, [] => false
  | [], _ :: _ => true
  | x :: a', y :: b' => (x <? y) || ((x =? y) && bytes_ltb a' b')
  end.

Definition header_ltb (h k : header) : bool :=
  bytes_ltb (fst h) (fst k)
  || (bytes_eqb (fst h) (fst k) && bytes_ltb (snd h) (snd k)).

(** [str.encode('utf-8')]: lone surrogates (and anything that is not a code
    point) are refused. *)
Definition utf8_encode_char (c : Z) : result bytes :=
  if c <? 0 then Raise UnicodeEncodeError
  else if c <? 0x80 then Ok [c]
  else if c <? 0x800 then
    Ok [Z.lor 0xC0 (Z.shiftr c 6); Z.lor 0x80 (Z.land c 0x3F)]
  else if (0xD800 <=? c) && (c <=? 0xDFFF) then Raise UnicodeEncodeError
  else if c <? 0x10000 then
    Ok [Z.lor 0xE0 (Z.shiftr c 12);
        Z.lor 0x80 (Z.land (Z.shiftr c 6) 0x3F);
        Z.lor 0x80 (Z.land c 0x3F)]
  else if c <? 0x110000 then
    Ok [Z.lor 0xF0 (Z.shiftr c 18);
        Z.lor 0x80 (Z.land (Z.shiftr c 12) 0x3F);
        Z.lor 0x80 (Z.land (Z.shiftr c 6) 0x3F);
        Z.lor 0x80 (Z.land c 0x3F)]
  else Raise UnicodeEncodeError.

Fixpoint utf8_encode (s : text) : result bytes :=
  match s with
  | [] => Ok []
  | c :: s' =>
      b <- utf8_encode_char c ;;
      r <- utf8_encode s' ;;
      Ok (b ++ r)
  end.

(** [bytes.decode('utf-8')], strict: overlong forms, surrogates, code points
    above U+10FFFF and truncated sequences raise. *)
Definition is_cont (b : Z) : bool := (0x80 <=? b) && (b <=? 0xBF).
Definition cont (b : Z) : Z := Z.land b 0x3F.

Fixpoint utf8_decode (d : bytes) : result text :=
  match d with
  | [] => Ok []
  | b0 :: d1 =>
      if (0 <=? b0) && (b0 <? 0x80) then
        r <- utf8_decode d1 ;; Ok (b0 :: r)
      else if (0xC2 <=? b0) && (b0 <=? 0xDF) then
        match d1 with
        | b1 :: d2 =>
            if is_cont b1 then
              r <- utf8_decode d2 ;;
              Ok (Z.shiftl (Z.land b0 0x1F) 6 + cont b1 :: r)
            else Raise UnicodeDecodeError
        | _ => Raise UnicodeDecodeError
        end
      else if (0xE0 <=? b0) && (b0 <=? 0xEF) then
        match d1 with
        | b1 :: b2 :: d3 =>
            if is_cont b1 && is_cont b2
               && negb ((b0 =? 0xE0) && (b1 <? 0xA0))
               && negb ((b0 =? 0xED) && (0xA0 <=? b1)) then
              r <- utf8_decode d3 ;;
              Ok (Z.shiftl (Z.land b0 0x0F) 12
                  + Z.shiftl (cont b1) 6 + cont b2 :: r)
            else Raise UnicodeDecodeError
        | _ => Raise UnicodeDecodeError
        end
      else if (0xF0 <=? b0) && (b0 <=? 0xF4) then
        match d1 with
        | b1 :: b2 :: b3 :: d4 =>
            if is_cont b1 && is_cont b2 && is_cont b3
               && negb ((b0 =? 0xF0) && (b1 <? 0x90))
               && negb ((b0 =? 0xF4) && (0x90 <=? b1)) then
              r <- utf8_decode d4 ;;
              Ok (Z.shiftl (Z.land b0 0x07) 18
                  + Z.shiftl (cont b1) 12
                  + Z.shiftl (cont b2) 6 + cont b3 :: r)
            else Raise UnicodeDecodeError
        | _ => Raise UnicodeDecodeError
        end
      else Raise UnicodeDecodeError
  end.

(** A byte-string literal [b'...'] of the source. *)
Definition bstr (s : string) : bytes :=
  List.map (fun c => Z.of_nat (nat_of_ascii c)) (list_ascii_of_string s).

(** The values a caller may hand to [Encoder.encode] as a name or a value:
    a [bytes], a [str], or any other object, of which only the text that
    [str()] returns for it matters. *)
Inductive pyobj : Type :=
| PyBytes (d : bytes)
| PyStr (s : text)
| PyOther (str_of : text).

(** ** Module-level functions *)

(** The [while integer >= 128] loop of [encode_integer], returning the
    elements it appends followed by the final [elements.append(integer)]. *)
Equations? encode_integer_loop (integer : Z) : list Z
  by wf (Z.to_nat integer) lt :=
  encode_integer_loop integer with Z_ge_dec integer 128 => {
    | left _ := (integer mod 128 + 128) :: encode_integer_loop (integer / 128);
    | right _ := [integer] }.
Proof.
  apply Z2Nat.inj_lt; try lia.
  - apply Z.div_pos; lia.
  - apply Z.div_lt; lia.
Qed.

Definition encode_integer (integer prefix_bits : Z) : result bytes :=
  let max_number := 2 ^ prefix_bits - 1 in
  if integer <? max_number then bytearray [integer]
  else
    let elements := [max_number] in
    let integer := integer - max_number in
    bytearray (elements ++ encode_integer_loop integer).

Definition multiple (index : Z) : Z := 128 ^ (index - 1).

(** The [while True] loop of [decode_integer]; [rest] is [data[index:]] for
    the value [index] has after [index += 1]. *)
Fixpoint decode_integer_loop (rest : bytes) (index number : Z)
  : result (Z * Z) :=
  match rest with
  | [] => Raise IndexError
  | c :: rest' =>
      let next_byte := to_byte c in
      if next_byte >=? 128 then
        decode_integer_loop rest' (index + 1)
          (number + (next_byte - 128) * multiple index)
      else Ok (number + next_byte * multiple index, index + 1)
  end.

Definition decode_integer (data : bytes) (prefix_bits : Z) : result (Z * Z) :=
  let max_number := 2 ^ prefix_bits - 1 in
  if 8 - prefix_bits <? 0 then Raise ValueError
  else
    let mask := Z.shiftr 0xFF (8 - prefix_bits) in
    let index := 0 in
    c <- getitem data index ;;
    let number := Z.land (to_byte c) mask in
    if number =? max_number
    then decode_integer_loop (slice_from data 1) (index + 1) number
    else Ok (number, index + 1).

Definition _to_bytes (string : pyobj) : result bytes :=
  let string :=
    match string with
    | PyOther str_of => PyStr str_of        (* string = str(string) *)
    | _ => string
    end in
  match string with
  | PyBytes d => Ok d
  | PyStr s => utf8_encode s
  | PyOther s => utf8_encode s
  end.

Definition entry_size (h : header) : Z := 32 + len (fst h) + len (snd h).

Definition header_table_size (table : list header) : Z :=
  fold_right (fun h acc => entry_size h + acc) 0 table.


(** ** hpack_structures.Reference *)

(** Modelled from the spec: [hyper/http20/hpack_structures.py], which
    declares [Reference], is not among the sources. The specification gives
    a reference the header pair it wraps ([obj]) and, on the encoder, a tag
    [emitted] in {NOT_EMITTED, IMPLICITLY_EMITTED, EMITTED}; two references
    with the same (name, value) are equal. [encode] tests the tag with
    [not ref.emitted], which the specification reads as
    [ref.emitted == NOT_EMITTED]: NOT_EMITTED is the only false tag. *)
Inductive Emitted : Type := NOT_EMITTED | EMITTED | IMPLICITLY_EMITTED.

Definition truthy (e : Emitted) : bool :=
  match e with NOT_EMITTED => false | _ => true end.

Definition is_implicitly_emitted (e : Emitted) : bool :=
  match e with IMPLICITLY_EMITTED => true | _ => false end.

Record Reference : Type := { obj : header; emitted : Emitted }.

(** ** class Encoder *)

Module Encoder.

Definition static_table : list header := [
  (bstr ":authority", bstr "");
  (bstr ":method", bstr "GET");
  (bstr ":method", bstr "POST");
  (bstr ":path", bstr "/");
  (bstr ":path", bstr "/index.html");
  (bstr ":scheme", bstr "http");
  (bstr ":scheme", bstr "https");
  (bstr ":status", bstr "200");
  (bstr ":status", bstr "204");
  (bstr ":status", bstr "206");
  (bstr ":status", bstr "304");
  (bstr ":status", bstr "400");
  (bstr ":status", bstr "404");
  (bstr ":status", bstr "500");
  (bstr "accept-charset", bstr "");
  (bstr "accept-encoding", bstr "gzip, deflate");
  (bstr "accept-language", bstr "");
  (bstr "accept-ranges", bstr "");
  (bstr "accept", bstr "");
  (bstr "access-control-allow-origin", bstr "");
  (bstr "age", bstr "");
  (bstr "allow", bstr "");
  (bstr "authorization", bstr "");
  (bstr "cache-control", bstr "");
  (bstr "content-disposition", bstr "");
  (bstr "content-encoding", bstr "");
  (bstr "content-language", bstr "");
  (bstr "content-length", bstr "");
  (bstr "content-location", bstr "");
  (bstr "content-range", bstr "");
  (bstr "content-type", bstr "");
  (bstr "cookie", bstr "");
  (bstr "date", bstr "");
  (bstr "etag", bstr "");
  (bstr "expect", bstr "");
  (bstr "expires", bstr "");
  (bstr "from", bstr "");
  (bstr "host", bstr "");
  (bstr "if-match", bstr "");
  (bstr "if-modified-since", bstr "");
  (bstr "if-none-match", bstr "");
  (bstr "if-range", bstr "");
  (bstr "if-unmodified-since", bstr "");
  (bstr "last-modified", bstr "");
  (bstr "link", bstr "");
  (bstr "location", bstr "");
  (bstr "max-forwards", bstr "");
  (bstr "proxy-authenticate", bstr "");
  (bstr "proxy-authorization", bstr "");
  (bstr "range", bstr "");
  (bstr "referer", bstr "");
  (bstr "refresh", bstr "");
  (bstr "retry-after", bstr "");
  (bstr "server", bstr "");
  (bstr "set-cookie", bstr "");
  (bstr "strict-transport-security", bstr "");
  (bstr "transfer-encoding", bstr "");
  (bstr "user-agent", bstr "");
  (bstr "vary", bstr "");
  (bstr "via", bstr "");
  (bstr "www-authenticate", bstr "")
].

(** The reference set is a dictionary from references to references. A
    slot holds the key object and the value object. [reference_set[ref] =
    ref] on a new key stores one object as both ([slot_value = None]); on
    a key already present Python keeps the old key object and stores the
    new reference as the value, which then carries a tag of its own.
    [for ref in self.reference_set] and [.keys()] see the key objects,
    [self.reference_set[r]] the value objects. *)
Record slot : Type := { slot_key : Reference; slot_value : option Emitted }.

Definition value_emitted (s : slot) : Emitted :=
  match slot_value s with
  | None => emitted (slot_key s)
  | Some e => e
  end.

Record t : Type := {
  header_table : list header;          (* deque, index 0 on the left *)
  _header_table_size : Z;
  huffman_coder : bytes -> bytes;      (* HuffmanEncoder(...).encode *)
  reference_set : list slot
}.

Definition __init__ (huffman_encode : bytes -> bytes) : t :=
  {| header_table := [];
     _header_table_size := 4096;
     huffman_coder := huffman_encode;
     reference_set := [] |}.

(** *** Dictionary operations on the reference set *)

Definition refs_lookup (h : header) (refs : list slot) : option slot :=
  find (fun s => header_eqb (obj (slot_key s)) h) refs.

Definition refs_remove (h : header) (refs : list slot) : list slot :=
  filter (fun s => negb (header_eqb (obj (slot_key s)) h)) refs.

(** [del self.reference_set[Reference(h)]] *)
Definition refs_del (h : header) (refs : list slot) : result (list slot) :=
  match refs_lookup h refs with
  | Some _ => Ok (refs_remove h refs)
  | None => Raise KeyError
  end.

(** [ref = Reference(h); ref.emitted = e; self.reference_set[ref] = ref] *)
Fixpoint refs_store (h : header) (e : Emitted) (refs : list slot)
  : list slot :=
  match refs with
  | [] => [{| slot_key := {| obj := h; emitted := e |};
              slot_value := None |}]
  | s :: refs' =>
      if header_eqb (obj (slot_key s)) h
      then {| slot_key := slot_key s; slot_value := Some e |} :: refs'
      else s :: refs_store h e refs'
  end.

(** [ref.emitted = e] for the value object [ref] stored under [h]. *)
Definition refs_set_value_emitted (h : header) (e : Emitted)
  (refs : list slot) : list slot :=
  List.map (fun s =>
    if header_eqb (obj (slot_key s)) h then
      match slot_value s with
      | None => {| slot_key := {| obj := obj (slot_key s); emitted := e |};
                   slot_value := None |}
      | Some _ => {| slot_key := slot_key s; slot_value := Some e |}
      end
    else s) refs.

(** [for ref in self.reference_set: ref.emitted = Reference.NOT_EMITTED] *)
Definition refs_unmark (refs : list slot) : list slot :=
  List.map (fun s =>
    {| slot_key := {| obj := obj (slot_key s); emitted := NOT_EMITTED |};
       slot_value := slot_value s |}) refs.

(** [sorted(self.reference_set.keys(), key=lambda r: r.obj)] *)
Fixpoint insert_sorted (r : Reference) (l : list Reference)
  : list Reference :=
  match l with
  | [] => [r]
  | x :: l' =>
      if header_ltb (obj r) (obj x) then r :: l
      else x :: insert_sorted r l'
  end.

Definition sorted_keys (refs : list slot) : list Reference :=
  fold_left (fun acc s => insert_sorted (slot_key s) acc) refs [].

(** *** The eviction loop
    [while actual_size > max: header = self.header_table.pop(); ...]
    shared by the [header_table_size] setter and [_add_to_header_table].
    The table is passed reversed, so that [pop()] takes its head. *)
Fixpoint evict (rev_table : list header) (refs : list slot)
  (actual_size max_size : Z) : result (list header * list slot) :=
  if actual_size >? max_size then
    match rev_table with
    | [] => Raise IndexError                    (* pop from an empty deque *)
    | hd :: rev_table' =>
        evict rev_table' (refs_remove hd refs)
              (actual_size - entry_size hd) max_size
    end
  else Ok (rev rev_table, refs).

(** [header_table_size] property setter *)
Definition set_header_table_size (self : t) (value : Z) : result t :=
  if value <? _header_table_size self then
    let current_size := header_table_size (header_table self) in
    '(table, refs) <-
      evict (rev (header_table self)) (reference_set self)
            current_size value ;;
    Ok {| header_table := table;
          _header_table_size := value;
          huffman_coder := huffman_coder self;
          reference_set := refs |}
  else
    Ok {| header_table := header_table self;
          _header_table_size := value;
          huffman_coder := huffman_coder self;
          reference_set := reference_set self |}.

(** *** matching_header *)

(** One [for (i, (n, v)) in enumerate(table)] loop; [base] is what is
    added to [i] besides 1. [inl] is an early [return]. *)
Fixpoint scan (table : list header) (base : Z) (name value : bytes)
  (partial_match : option (Z * option header))
  : (Z * option header) + option (Z * option header) :=
  match table with
  | [] => inr partial_match
  | (n, v) :: table' =>
      if bytes_eqb n name then
        if bytes_eqb v value then inl (base + 1, Some (n, v))
        else
          scan table' (base + 1) name value
            (match partial_match with
             | None => Some (base + 1, None)
             | Some _ => partial_match
             end)
      else scan table' (base + 1) name value partial_match
  end.

Definition matching_header (self : t) (name value : bytes)
  : option (Z * option header) :=
  let partial_match := None in
  let header_table_size := len (header_table self) in
  match scan (header_table self) 0 name value partial_match with
  | inl r => Some r
  | inr partial_match =>
      match scan static_table header_table_size name value partial_match with
      | inl r => Some r
      | inr partial_match => partial_match
      end
  end.

Definition get_from_reference_set (self : t) (header : option header)
  : option slot :=
  match header with
  | None => None
  | Some h => refs_lookup h (reference_set self)
  end.

Definition _add_to_header_table (self : t) (header : header) : result t :=
  let table := header :: header_table self in           (* appendleft *)
  let actual_size := header_table_size table in
  '(table, refs) <-
    evict (rev table) (reference_set self) actual_size
          (_header_table_size self) ;;
  Ok {| header_table := table;
        _header_table_size := _header_table_size self;
        huffman_coder := huffman_coder self;
        reference_set := refs |}.

(** [field[0] = field[0] | 0x80] *)
Definition or_first (flag : Z) (field : bytes) : result bytes :=
  match field with
  | [] => Raise IndexError
  | c :: field' => Ok (Z.lor c flag :: field')
  end.

Definition _encode_indexed (index : Z) : result bytes :=
  field <- encode_integer index 7 ;;
  or_first 0x80 field.

Definition _encode_literal (self : t) (name value : bytes)
  (indexing huffman : bool) : result bytes :=
  let prefix := if indexing then [0x40] else [0x00] in
  let name := if huffman then huffman_coder self name else name in
  let value := if huffman then huffman_coder self value else value in
  name_len <- encode_integer (len name) 7 ;;
  value_len <- encode_integer (len value) 7 ;;
  name_len <- (if huffman then or_first 0x80 name_len else Ok name_len) ;;
  value_len <- (if huffman then or_first 0x80 value_len else Ok value_len) ;;
  Ok (prefix ++ name_len ++ name ++ value_len ++ value).

Definition _encode_indexed_literal (self : t) (index : Z) (value : bytes)
  (huffman : bool) : result bytes :=
  name <- encode_integer index 4 ;;
  let value := if huffman then huffman_coder self value else value in
  value_len <- encode_integer (len value) 7 ;;
  value_len <- (if huffman then or_first 0x80 value_len else Ok value_len) ;;
  Ok (name ++ value_len ++ value).

Definition with_refs (self : t) (refs : list slot) : t :=
  {| header_table := header_table self;
     _header_table_size := _header_table_size self;
     huffman_coder := huffman_coder self;
     reference_set := refs |}.

Definition remove (self : t) (header : header) : result (t * bytes) :=
  match matching_header self (fst header) (snd header) with
  | None => Raise HPACKEncodingError      (* TypeError, caught and re-raised *)
  | Some (index, match_) =>
      let max_index := len (header_table self) in
      if (match match_ with None => true | Some _ => false end)
         || (index >? max_index)
      then Raise HPACKEncodingError
      else
        encoded <- _encode_indexed index ;;
        refs <- refs_del header (reference_set self) ;;
        Ok (with_refs self refs, encoded)
  end.

Definition add (self : t) (to_add : header) (huffman : bool)
  : result (t * bytes) :=
  let '(name, value) := to_add in
  match matching_header self name value with
  | None =>
      encoded <- _encode_literal self name value true huffman ;;
      self <- _add_to_header_table self to_add ;;
      Ok (with_refs self (refs_store to_add EMITTED (reference_set self)),
          encoded)
  | Some (index, Some perfect) =>
      encoded <- _encode_indexed index ;;
      '(self, perfect) <-
        (if index >? len (header_table self) then
           let perfect := (name, value) in
           self <- _add_to_header_table self perfect ;;
           Ok (self, perfect)
         else Ok (self, perfect)) ;;
      Ok (with_refs self (refs_store perfect EMITTED (reference_set self)),
          encoded)
  | Some (index, None) =>
      encoded <- _encode_indexed_literal self index value huffman ;;
      Ok (self, encoded)
  end.

(** The body of [for header in headers:] in [encode]; returns what it
    appends to [header_block]. *)
Definition encode_header (self : t) (header : header) (huffman : bool)
  : result (t * list bytes) :=
  let m := matching_header self (fst header) (snd header) in
  let '(index, match_) :=
    match m with
    | Some (index, match_) => (index, match_)
    | None => (-1, None)
    end in
  match get_from_reference_set self match_, match_ with
  | Some ref, Some key =>
      if negb (truthy (value_emitted ref)) then
        (* ref.emitted = Reference.IMPLICITLY_EMITTED; continue *)
        Ok (with_refs self
              (refs_set_value_emitted key IMPLICITLY_EMITTED
                 (reference_set self)), [])
      else
        '(self, block, header, ref_obj) <-
          (if is_implicitly_emitted (value_emitted ref) then
             '(self, b1) <- remove self (obj (slot_key ref)) ;;
             '(self, b2) <- add self header false ;;
             match matching_header self (fst header) (snd header) with
             | None => Raise TypeError            (* None[1] *)
             | Some (_, header') =>
                 match get_from_reference_set self header', header' with
                 | Some ref, Some header' =>
                     Ok (self, [b1; b2], header', obj (slot_key ref))
                 | _, _ => Raise AttributeError   (* None.obj *)
                 end
             end
           else Ok (self, [], header, obj (slot_key ref))) ;;
        '(self, b3) <- remove self ref_obj ;;
        '(self, b4) <- add self header huffman ;;
        Ok (self, block ++ [b3; b4])
  | _, _ =>
      '(self, b4) <- add self header huffman ;;
      Ok (self, [b4])
  end.

Fixpoint encode_headers (self : t) (headers : list header) (huffman : bool)
  : result (t * list bytes) :=
  match headers with
  | [] => Ok (self, [])
  | header :: headers' =>
      '(self, block) <- encode_header self header huffman ;;
      '(self, blocks) <- encode_headers self headers' huffman ;;
      Ok (self, block ++ blocks)
  end.

(** [for r in sorted(...): if not r.emitted: header_block.append(...)] *)
Fixpoint remove_unemitted (self : t) (keys : list Reference)
  : result (t * list bytes) :=
  match keys with
  | [] => Ok (self, [])
  | r :: keys' =>
      if negb (truthy (emitted r)) then
        '(self, b1) <- remove self (obj r) ;;
        '(self, blocks) <- remove_unemitted self keys' ;;
        Ok (self, b1 :: blocks)
      else remove_unemitted self keys'
  end.

(** The [headers] argument: a list of pairs, or a dict, of which
    [headers.items()] is taken. *)
Inductive headers_arg : Type :=
| HeaderList (l : list (pyobj * pyobj))
| HeaderDict (items : list (pyobj * pyobj)).

Fixpoint to_bytes_all (headers : list (pyobj * pyobj))
  : result (list header) :=
  match headers with
  | [] => Ok []
  | (n, v) :: headers' =>
      n <- _to_bytes n ;;
      v <- _to_bytes v ;;
      r <- to_bytes_all headers' ;;
      Ok ((n, v) :: r)
  end.

Definition encode (self : t) (headers : headers_arg) (huffman : bool)
  : result (t * bytes) :=
  let self := with_refs self (refs_unmark (reference_set self)) in
  let headers :=
    match headers with
    | HeaderList l => l
    | HeaderDict items => items
    end in
  headers <- to_bytes_all headers ;;
  '(self, header_block) <- encode_headers self headers huffman ;;
  '(self, removals) <-
    remove_unemitted self (sorted_keys (reference_set self)) ;;
  Ok (self, List.concat (header_block ++ removals)).

End Encoder.

(** ** class Decoder *)

Module Decoder.

Definition static_table : list header := [
  (bstr ":authority", bstr "");
  (bstr ":method", bstr "GET");
  (bstr ":method", bstr "POST");
  (bstr ":path", bstr "/");
  (bstr ":path", bstr "/index.html");
  (bstr ":scheme", bstr "http");
  (bstr ":scheme", bstr "https");
  (bstr ":status", bstr "200");
  (bstr ":status", bstr "204");
  (bstr ":status", bstr "206");
  (bstr ":status", bstr "304");
  (bstr ":status", bstr "400");
  (bstr ":status", bstr "404");
  (bstr ":status", bstr "500");
  (bstr "accept-charset", bstr "");
  (bstr "accept-encoding", bstr "gzip, deflate");
  (bstr "accept-language", bstr "");
  (bstr "accept-ranges", bstr "");
  (bstr "accept", bstr "");
  (bstr "access-control-allow-origin", bstr "");
  (bstr "age", bstr "");
  (bstr "allow", bstr "");
  (bstr "authorization", bstr "");
  (bstr "cache-control", bstr "");
  (bstr "content-disposition", bstr "");
  (bstr "content-encoding", bstr "");
  (bstr "content-language", bstr "");
  (bstr "content-length", bstr "");
  (bstr "content-location", bstr "");
  (bstr "content-range", bstr "");
  (bstr "content-type", bstr "");
  (bstr "cookie", bstr "");
  (bstr "date", bstr "");
  (bstr "etag", bstr "");
  (bstr "expect", bstr "");
  (bstr "expires", bstr "");
  (bstr "from", bstr "");
  (bstr "host", bstr "");
  (bstr "if-match", bstr "");
  (bstr "if-modified-since", bstr "");
  (bstr "if-none-match", bstr "");
  (bstr "if-range", bstr "");
  (bstr "if-unmodified-since", bstr "");
  (bstr "last-modified", bstr "");
  (bstr "link", bstr "");
  (bstr "location", bstr "");
  (bstr "max-forwards", bstr "");
  (bstr "proxy-authenticate", bstr "");
  (bstr "proxy-authorization", bstr "");
  (bstr "range", bstr "");
  (bstr "referer", bstr "");
  (bstr "refresh", bstr "");
  (bstr "retry-after", bstr "");
  (bstr "server", bstr "");
  (bstr "set-cookie", bstr "");
  (bstr "strict-transport-security", bstr "");
  (bstr "transfer-encoding", bstr "");
  (bstr "user-agent", bstr "");
  (bstr "vary", bstr "");
  (bstr "via", bstr "");
  (bstr "www-authenticate", bstr "")
].

(** The reference set is a [set] of references, which are equal when the
    pairs they wrap are: a duplicate-free list of pairs. Python iterates
    a set in hash order; the model iterates in insertion order. *)
Record t : Type := {
  header_table : list header;          (* deque, index 0 on the left *)
  reference_set : list header;
  _header_table_size : Z;
  huffman_coder : bytes -> result bytes   (* HuffmanDecoder(...).decode *)
}.

Definition __init__ (huffman_decode : bytes -> result bytes) : t :=
  {| header_table := [];
     reference_set := [];
     _header_table_size := 4096;
     huffman_coder := huffman_decode |}.

Definition mem (h : header) (l : list header) : bool :=
  existsb (header_eqb h) l.

Definition set_add (h : header) (refs : list header) : list header :=
  if mem h refs then refs else refs ++ [h].

Definition set_discard (h : header) (refs : list header) : list header :=
  filter (fun k => negb (header_eqb k h)) refs.

(** The eviction loop of the [header_table_size] setter and of
    [_add_to_header_table]; the table is passed reversed, so that [pop()]
    takes its head. *)
Fixpoint evict (rev_table : list header) (refs : list header)
  (actual_size max_size : Z) : result (list header * list header) :=
  if actual_size >? max_size then
    match rev_table with
    | [] => Raise IndexError                    (* pop from an empty deque *)
    | hd :: rev_table' =>
        evict rev_table' (set_discard hd refs)
              (actual_size - entry_size hd) max_size
    end
  else Ok (rev rev_table, refs).

(** [header_table_size] property setter *)
Definition set_header_table_size (self : t) (value : Z) : result t :=
  if value <? _header_table_size self then
    let current_size := header_table_size (header_table self) in
    '(table, refs) <-
      evict (rev (header_table self)) (reference_set self)
            current_size value ;;
    Ok {| header_table := table;
          reference_set := refs;
          _header_table_size := value;
          huffman_coder := huffman_coder self |}
  else
    Ok {| header_table := header_table self;
          reference_set := reference_set self;
          _header_table_size := value;
          huffman_coder := huffman_coder self |}.

Definition _add_to_header_table (self : t) (new_header : header)
  : result t :=
  let table := new_header :: header_table self in       (* appendleft *)
  let actual_size := header_table_size table in
  '(table, refs) <-
    evict (rev table) (reference_set self) actual_size
          (_header_table_size self) ;;
  Ok {| header_table := table;
        reference_set := refs;
        _header_table_size := _header_table_size self;
        huffman_coder := huffman_coder self |}.

Definition with_refs (self : t) (refs : list header) : t :=
  {| header_table := header_table self;
     reference_set := refs;
     _header_table_size := _header_table_size self;
     huffman_coder := huffman_coder self |}.

Definition _update_encoding_context (self : t) (data : bytes)
  : result (t * Z) :=
  c <- getitem data 0 ;;
  if to_byte c =? 0x30 then
    Ok (with_refs self [], 1)
  else
    '(new_size, consumed) <- decode_integer data 4 ;;
    self <- set_header_table_size self new_size ;;
    Ok (self, consumed).

Definition _decode_indexed (self : t) (data : bytes)
  : result (t * option header * Z) :=
  '(index, consumed) <- decode_integer data 7 ;;
  let index := index - 1 in
  '(self, header) <-
    (if index >? len (header_table self) then
       let index := index - len (header_table self) in
       header <- getitem static_table index ;;
       self <- _add_to_header_table self header ;;
       Ok (self, header)
     else
       header <- getitem (header_table self) index ;;
       Ok (self, header)) ;;
  if mem header (reference_set self) then
    Ok (with_refs self (set_discard header (reference_set self)),
        None, consumed)
  else
    Ok (with_refs self (set_add header (reference_set self)),
        Some header, consumed).

Definition _decode_literal (self : t) (data : bytes) (should_index : bool)
  : result (t * option header * Z) :=
  c <- getitem data 0 ;;
  let '(indexed_name, name_len) :=
    if should_index then (Z.land (to_byte c) 0x3F, 6)
    else (to_byte c, 4) in
  '(name, total_consumed, data, consumed, length) <-
    (if negb (indexed_name =? 0) then
       '(index, consumed) <- decode_integer data name_len ;;
       let index := index - 1 in
       name <-
         (if index >=? len (header_table self) then
            let index := index - len (header_table self) in
            e <- getitem static_table index ;; Ok (fst e)
          else
            e <- getitem (header_table self) index ;; Ok (fst e)) ;;
       Ok (name, consumed, data, consumed, 0)
     else
       let data := slice_from data 1 in
       '(length, consumed) <- decode_integer data 7 ;;
       let name := slice data consumed (consumed + length) in
       c <- getitem data 0 ;;
       name <-
         (if negb (Z.land (to_byte c) 0x80 =? 0)
          then huffman_coder self name else Ok name) ;;
       Ok (name, consumed + length + 1, data, consumed, length)) ;;
  let data := slice_from data (consumed + length) in
  '(length, consumed) <- decode_integer data 7 ;;
  let value := slice data consumed (consumed + length) in
  c <- getitem data 0 ;;
  value <-
    (if negb (Z.land (to_byte c) 0x80 =? 0)
     then huffman_coder self value else Ok value) ;;
  let total_consumed := total_consumed + (length + consumed) in
  let header := (name, value) in
  self <-
    (if should_index then
       self <- _add_to_header_table self header ;;
       Ok (with_refs self (set_add header (reference_set self)))
     else Ok self) ;;
  Ok (self, Some header, total_consumed).

Definition _decode_literal_no_index (self : t) (data : bytes) :=
  _decode_literal self data false.

Definition _decode_literal_index (self : t) (data : bytes) :=
  _decode_literal self data true.

(** One round of the [while current_index < data_len] loop of [decode]:
    the dispatch on the current octet. Returns the header to append (if
    any) and the number of octets consumed. *)
Definition decode_step (self : t) (data : bytes) (current_index : Z)
  : result (t * option header * Z) :=
  c <- getitem data current_index ;;
  let current := to_byte c in
  let indexed := negb (Z.land current 0x80 =? 0) in
  let literal_index := negb (Z.land current 0x40 =? 0) in
  let encoding_update := negb (Z.land current 0x20 =? 0) in
  if indexed then
    _decode_indexed self (slice_from data current_index)
  else if literal_index then
    _decode_literal_index self (slice_from data current_index)
  else if encoding_update then
    '(self, consumed) <- _update_encoding_context self data ;;
    Ok (self, None, consumed)
  else
    _decode_literal_no_index self (slice_from data current_index).

(** The loop itself. Every round consumes at least one octet of a
    well-formed [bytes] object, so [length data] rounds are enough
    ([decode_loop_fuel] below). *)
Fixpoint decode_loop (fuel : nat) (self : t) (data : bytes)
  (current_index : Z) (headers : list header)
  : result (t * list header) :=
  match fuel with
  | O => Ok (self, headers)
  | S fuel' =>
      if current_index <? len data then
        '(self, header, consumed) <- decode_step self data current_index ;;
        let headers :=
          match header with
          | Some h => headers ++ [h]
          | None => headers
          end in
        decode_loop fuel' self data (current_index + consumed) headers
      else Ok (self, headers)
  end.

(** [for ref in self.reference_set: if ref.obj not in headers: ...]
    The source does not fix the order in which the set is visited; the
    order of the list stands for one such order, and what is proved about
    the headers that this loop appends does not depend on it. *)
Definition emit_references (refs : list header) (headers : list header)
  : list header :=
  fold_left (fun headers h => if mem h headers then headers
                              else headers ++ [h]) refs headers.

Fixpoint decode_text (headers : list header) : result (list (text * text)) :=
  match headers with
  | [] => Ok []
  | (n, v) :: headers' =>
      n <- utf8_decode n ;;
      v <- utf8_decode v ;;
      r <- decode_text headers' ;;
      Ok ((n, v) :: r)
  end.

(** [decode] up to, and without, the conversion to text of its last
    line: the new state and the list [headers] of byte-string pairs. *)
Definition decode_headers (self : t) (data : bytes)
  : result (t * list header) :=
  let headers := [] in
  let current_index := 0 in
  '(self, headers) <-
    decode_loop (List.length data) self data current_index headers ;;
  Ok (self, emit_references (reference_set self) headers).

Definition decode (self : t) (data : bytes)
  : result (t * list (text * text)) :=
  '(self, headers) <- decode_headers self data ;;
  r <- decode_text headers ;;
  Ok (self, r).

End Decoder.

(** ** Definitions used to state the properties *)

(** A well-formed element of a [bytes] object. *)
Definition octet (c : Z) : Prop := 0 <= c < 256.

(** The long form of the integer encoding in the words of the
    specification: "repeatedly emit [(I mod 128) | 0x80] and set [I] to
    [I / 128] while [I >= 128]; finally emit [I]". *)
Equations? spec_long_loop (J : Z) : list Z by wf (Z.to_nat J) lt :=
  spec_long_loop J with Z_ge_dec J 128 => {
    | left _ := Z.lor (J mod 128) 0x80 :: spec_long_loop (J / 128);
    | right _ := [J] }.
Proof.
  apply Z2Nat.inj_lt; try lia.
  - apply Z.div_pos; lia.
  - apply Z.div_lt; lia.
Qed.

(** "emit one byte with low-N bits set to [M]", then the loop above run on
    [I] itself, as the specification has it. *)
Definition spec_encode_long (J N : Z) : list Z :=
  let M := 2 ^ N - 1 in
  M :: spec_long_loop J.

(** A header given as a pair of byte strings, from two literals. *)
Definition bpair (n v : string) : pyobj * pyobj :=
  (PyBytes (bstr n), PyBytes (bstr v)).

(** The header list of the first end-to-end scenario. *)
Definition request_1 : Encoder.headers_arg :=
  Encoder.HeaderList
    [bpair ":method" "GET"; bpair ":scheme" "http"; bpair ":path" "/";
     bpair ":authority" "www.example.com"].

(** [encode] called twice in a row on one encoder; the value is that of
    the second call. *)
Definition encode_twice (self : Encoder.t) (headers : Encoder.headers_arg)
  (huffman : bool) : result (Encoder.t * bytes) :=
  '(self, _) <- Encoder.encode self headers huffman ;;
  Encoder.encode self headers huffman.

(** Reference-set containment: every pair held in the reference set is in
    the dynamic table or in the static table. *)
Definition encoder_refs_in_tables (self : Encoder.t) : bool :=
  forallb
    (fun s => existsb (header_eqb (obj (Encoder.slot_key s)))
                (Encoder.header_table self ++ Encoder.static_table))
    (Encoder.reference_set self).

Definition decoder_refs_in_tables (self : Decoder.t) : bool :=
  forallb
    (fun h => existsb (header_eqb h)
                (Decoder.header_table self ++ Decoder.static_table))
    (Decoder.reference_set self).

(** What [_decode_indexed] does with the pair it resolved. *)
Definition toggle (self : Decoder.t) (h : header) (consumed : Z)
  : Decoder.t * option header * Z :=
  if Decoder.mem h (Decoder.reference_set self) then
    (Decoder.with_refs self (Decoder.set_discard h (Decoder.reference_set self)),
     None, consumed)
  else
    (Decoder.with_refs self (Decoder.set_add h (Decoder.reference_set self)),
     Some h, consumed).

(** How one encoder state follows another as far as the dynamic table is
    concerned: the maximum size is the same, and a table within the
    maximum stays within it. *)
Definition encoder_table_kept (self self' : Encoder.t) : Prop :=
  Encoder._header_table_size self' = Encoder._header_table_size self
  /\ (header_table_size (Encoder.header_table self)
      <= Encoder._header_table_size self ->
      header_table_size (Encoder.header_table self')
      <= Encoder._header_table_size self').

(** Reference-set containment for the encoder, as a proposition. *)
Definition encoder_refs_inside (self : Encoder.t) : Prop :=
  forall s, In s (Encoder.reference_set self) ->
            In (obj (Encoder.slot_key s))
               (Encoder.header_table self ++ Encoder.static_table).

(** A slot of the encoder's reference set once its reference has been
    marked as carried by implicit emission. *)
Definition implicitly (s : Encoder.slot) : Encoder.slot :=
  {| Encoder.slot_key :=
       {| obj := obj (Encoder.slot_key s); emitted := IMPLICITLY_EMITTED |};
     Encoder.slot_value := None |}.

(** The pair of a slot is among the given headers. *)
Definition slot_among (hs : list header) (s : Encoder.slot) : bool :=
  existsb (header_eqb (obj (Encoder.slot_key s))) hs.

(** A reference that the loop at the end of [encode] removes. *)
Definition unemitted (r : Reference) : bool := negb (truthy (emitted r)).

(** A slot of the encoder's reference set after the first two loops of
    [encode] over the headers [hs]: unmarked, then marked again if its pair
    is among the headers. *)
Definition marked (hs : list header) (s : Encoder.slot) : Encoder.slot :=
  if slot_among hs s then implicitly s
  else {| Encoder.slot_key :=
            {| obj := obj (Encoder.slot_key s); emitted := NOT_EMITTED |};
          Encoder.slot_value := Encoder.slot_value s |}.

(** The encoder after it has encoded the two headers [foo: bar] and
    [baz: qux], neither known to the static table, and a decoder that has
    read the block. *)
Definition two_custom_headers : Encoder.t :=
  {| Encoder.header_table :=
       [(bstr "baz", bstr "qux"); (bstr "foo", bstr "bar")];
     Encoder._header_table_size := 4096;
     Encoder.huffman_coder := fun x => x;
     Encoder.reference_set :=
       [{| Encoder.slot_key :=
             {| obj := (bstr "foo", bstr "bar"); emitted := EMITTED |};
           Encoder.slot_value := None |};
        {| Encoder.slot_key :=
             {| obj := (bstr "baz", bstr "qux"); emitted := EMITTED |};
           Encoder.slot_value := None |}] |}.

Definition two_custom_headers_read : Decoder.t :=
  {| Decoder.header_table :=
       [(bstr "baz", bstr "qux"); (bstr "foo", bstr "bar")];
     Decoder.reference_set :=
       [(bstr "foo", bstr "bar"); (bstr "baz", bstr "qux")];
     Decoder._header_table_size := 4096;
     Decoder.huffman_coder := fun x => Ok x |}.

(** ** The rounds of the loop of [decode] *)

(** [rounds data s i hs s' j]: started in state [s] with [current_index = i],
    some rounds of the [while] loop of [decode] on the block [data] lead to
    state [s'] with [current_index = j]; [hs] lists, in order, the headers
    that these rounds append to [headers]. *)
Inductive rounds (data : bytes)
  : Decoder.t -> Z -> list header -> Decoder.t -> Z -> Prop :=
| rounds_none (s : Decoder.t) (i : Z) : rounds data s i [] s i
| rounds_header (s s1 s' : Decoder.t) (i consumed j : Z) (h : header)
    (hs : list header) :
    i < len data ->
    Decoder.decode_step s data i = Ok (s1, Some h, consumed) ->
    rounds data s1 (i + consumed) hs s' j ->
    rounds data s i (h :: hs) s' j
| rounds_silent (s s1 s' : Decoder.t) (i consumed j : Z)
    (hs : list header) :
    i < len data ->
    Decoder.decode_step s data i = Ok (s1, None, consumed) ->
    rounds data s1 (i + consumed) hs s' j ->
    rounds data s i hs s' j.

(** ** Malformed representations *)

(** An integer of the wire format, to be read on an [n]-bit prefix, that the
    end of the input cuts off: nothing is left of it, or its prefix is all
    ones and only continuation octets (top bit set) follow. *)
Definition cut_integer (n : Z) (field : bytes) : bool :=
  match field with
  | [] => true
  | first :: conts =>
      (Z.land first (2 ^ n - 1) =? 2 ^ n - 1)
      && forallb (fun c => 128 <=? c) conts
  end.

(** The prefix width on which the representation that starts with the octet
    [c] carries an index, following the dispatch of [decode] and of
    [_decode_literal]: 7 bits for an indexed representation, 6 for the name
    of a literal with indexing, 4 for the name of a literal without
    indexing; [None] for a literal with a literal name and for a context
    update. *)
Definition index_prefix (c : Z) : option Z :=
  if negb (Z.land c 0x80 =? 0) then Some 7
  else if negb (Z.land c 0x40 =? 0) then
    if Z.land c 0x3F =? 0 then None else Some 6
  else if negb (Z.land c 0x20 =? 0) then None
  else if c =? 0 then None else Some 4.

(** The ways in which the representation [c :: rest] that a round of [decode]
    is about to read can be malformed, for a decoder in state [self]. *)
Inductive malformed_representation (self : Decoder.t) (c : Z) (rest : bytes)
  : Prop :=
| index_zero (n consumed : Z) :
    (* the index is 0 and the dynamic table is empty *)
    index_prefix c = Some n ->
    decode_integer (c :: rest) n = Ok (0, consumed) ->
    Decoder.header_table self = [] ->
    malformed_representation self c rest
| index_beyond (n w consumed : Z) :
    (* the index is beyond the dynamic and the static table together *)
    index_prefix c = Some n ->
    decode_integer (c :: rest) n = Ok (w, consumed) ->
    len (Decoder.header_table self) + len Decoder.static_table < w ->
    malformed_representation self c rest
| index_cut (n : Z) :
    (* the index is cut off by the end of the input *)
    index_prefix c = Some n ->
    cut_integer n (c :: rest) = true ->
    malformed_representation self c rest
| name_length_cut :
    (* literal name: its length is missing or cut off *)
    c = 0x00 \/ c = 0x40 ->
    cut_integer 7 rest = true ->
    malformed_representation self c rest
| value_length_cut_literal_name (c1 : Z) (rest' : bytes)
    (length consumed : Z) :
    (* literal name, which may itself overrun the input: the length of the
       value is missing or cut off *)
    c = 0x00 \/ c = 0x40 ->
    rest = c1 :: rest' ->
    decode_integer rest 7 = Ok (length, consumed) ->
    (Z.land c1 0x80 = 0
     \/ exists name,
         Decoder.huffman_coder self (slice rest consumed (consumed + length))
         = Ok name) ->
    cut_integer 7 (slice_from rest (consumed + length)) = true ->
    malformed_representation self c rest
| value_length_cut_indexed_name (n w consumed : Z) :
    (* indexed name: the length of the value is missing or cut off *)
    Z.land c 0x80 = 0 ->
    index_prefix c = Some n ->
    decode_integer (c :: rest) n = Ok (w, consumed) ->
    cut_integer 7 (slice_from (c :: rest) consumed) = true ->
    malformed_representation self c rest.

(** A malformed representation at [data[current_index:]]. The size of a
    context update is read from the start of the block, whatever
    [current_index] is, so that only at the start of the block can the end
    of the input cut it off. *)
Inductive malformed (self : Decoder.t) (data : bytes) (current_index : Z)
  : Prop :=
| malformed_here (c : Z) (rest : bytes) :
    slice_from data current_index = c :: rest ->
    malformed_representation self c rest ->
    malformed self data current_index
| size_update_cut (c : Z) (conts : bytes) :
    current_index = 0 ->
    data = c :: conts ->
    Z.land c 0xE0 = 0x20 ->
    cut_integer 4 data = true ->
    malformed self data current_index.

(** The same encoder and decoder with a maximum table size of 80 octets,
    which their two entries of 38 octets each nearly fill. *)
Definition two_custom_headers_tight : Encoder.t :=
  {| Encoder.header_table := Encoder.header_table two_custom_headers;
     Encoder._header_table_size := 80;
     Encoder.huffman_coder := fun x => x;
     Encoder.reference_set := Encoder.reference_set two_custom_headers |}.

Definition two_custom_headers_read_tight : Decoder.t :=
  {| Decoder.header_table := Decoder.header_table two_custom_headers_read;
     Decoder.reference_set := Decoder.reference_set two_custom_headers_read;
     Decoder._header_table_size := 80;
     Decoder.huffman_coder := fun x => Ok x |}.

(** ** Coercion, as C10 words it *)


(** * Properties *)

(** ** The integer codec *)

Lemma encode_integer_loop_ge (i : Z) :
  128 <= i ->
  encode_integer_loop i = (i mod 128 + 128) :: encode_integer_loop (i / 128).
Proof.
  intros Hi. rewrite encode_integer_loop_equation_1.
  destruct (Z_ge_dec i 128); [reflexivity | lia].
Qed.

Lemma encode_integer_loop_lt (i : Z) :
  i < 128 -> encode_integer_loop i = [i].
Proof.
  intros Hi. rewrite encode_integer_loop_equation_1.
  destruct (Z_ge_dec i 128); [lia | reflexivity].
Qed.

(** Induction along the loop: from [i / 128] to [i]. *)
Lemma loop_ind (P : Z -> Prop) :
  (forall i, 0 <= i < 128 -> P i) ->
  (forall i, 128 <= i -> P (i / 128) -> P i) ->
  forall i, 0 <= i -> P i.
Proof.
  intros Hlt Hge i Hi. revert i Hi.
  apply (Zlt_0_ind P). intros x IH Hx0.
  destruct (Z_lt_dec x 128) as [Hx | Hx].
  - apply Hlt. lia.
  - apply Hge; [lia |]. apply IH.
    split; [apply Z.div_pos; lia | apply Z.div_lt; lia].
Qed.

Lemma encode_integer_loop_octets (i : Z) :
  0 <= i -> Forall octet (encode_integer_loop i).
Proof.
  intros Hi. pattern i. apply loop_ind; [| | exact Hi]; clear i Hi.
  - intros i Hi. rewrite encode_integer_loop_lt by lia.
    constructor; [unfold octet; lia | constructor].
  - intros i Hi IH. rewrite encode_integer_loop_ge by lia.
    constructor; [| exact IH].
    unfold octet. pose proof (Z.mod_pos_bound i 128). lia.
Qed.

Lemma bytearray_octets (l : list Z) : Forall octet l -> bytearray l = Ok l.
Proof.
  intros H. unfold bytearray.
  replace (forallb _ l) with true; [reflexivity |].
  symmetry. apply forallb_forall. intros x Hx.
  rewrite Forall_forall in H. specialize (H x Hx). unfold octet in H.
  apply andb_true_iff. split; [apply Z.leb_le | apply Z.ltb_lt]; lia.
Qed.

Lemma max_number_bounds (n : Z) : 1 <= n <= 8 -> 1 <= 2 ^ n - 1 <= 255.
Proof.
  intros Hn.
  assert (2 ^ 1 <= 2 ^ n) by (apply Z.pow_le_mono_r; lia).
  assert (2 ^ n <= 2 ^ 8) by (apply Z.pow_le_mono_r; lia).
  change (2 ^ 1) with 2 in *. change (2 ^ 8) with 256 in *. lia.
Qed.

(** The short form: one octet holding the integer. *)
Lemma encode_integer_short (i n : Z) :
  1 <= n <= 8 -> 0 <= i < 2 ^ n - 1 -> encode_integer i n = Ok [i].
Proof.
  intros Hn Hi. pose proof (max_number_bounds n Hn).
  unfold encode_integer.
  destruct (Z.ltb_spec i (2 ^ n - 1)); [| lia].
  apply bytearray_octets. constructor; [unfold octet; lia | constructor].
Qed.

(** The long form: the prefix filled with ones, then the loop run on what
    remains of the integer once the prefix value is taken off. *)
Lemma encode_integer_long (i n : Z) :
  1 <= n <= 8 -> 2 ^ n - 1 <= i ->
  encode_integer i n =
  Ok ((2 ^ n - 1) :: encode_integer_loop (i - (2 ^ n - 1))).
Proof.
  intros Hn Hi. pose proof (max_number_bounds n Hn).
  unfold encode_integer.
  destruct (Z.ltb_spec i (2 ^ n - 1)); [lia |].
  apply bytearray_octets. simpl. constructor; [unfold octet; lia |].
  apply encode_integer_loop_octets. lia.
Qed.

Lemma multiple_succ (index : Z) :
  1 <= index -> multiple (index + 1) = 128 * multiple index.
Proof.
  intros H. unfold multiple.
  replace (index + 1 - 1) with (Z.succ (index - 1)) by lia.
  apply Z.pow_succ_r. lia.
Qed.

(** The decoding loop reads back what the encoding loop wrote, whatever
    follows it in the input. *)
Lemma decode_integer_loop_encode (i : Z) :
  0 <= i ->
  forall rest index number, 1 <= index ->
  decode_integer_loop (encode_integer_loop i ++ rest) index number =
  Ok (number + i * multiple index, index + len (encode_integer_loop i)).
Proof.
  intros Hi. pattern i. apply loop_ind; [| | exact Hi]; clear i Hi.
  - intros i Hi rest index number Hidx.
    rewrite encode_integer_loop_lt by lia. simpl. unfold to_byte.
    destruct (Z.geb_spec i 128); [lia |]. reflexivity.
  - intros i Hi IH rest index number Hidx.
    rewrite encode_integer_loop_ge by lia. simpl. unfold to_byte.
    pose proof (Z.mod_pos_bound i 128 ltac:(lia)) as Hm.
    destruct (Z.geb_spec (i mod 128 + 128) 128); [| lia].
    rewrite IH by lia. f_equal. f_equal.
    + rewrite multiple_succ by lia.
      pose proof (Z.div_mod i 128 ltac:(lia)) as Hd.
      replace (i mod 128 + 128 - 128) with (i mod 128) by lia.
      rewrite Hd at 3. ring.
    + unfold len. simpl List.length. lia.
Qed.

Lemma shiftr_mask (n : Z) :
  1 <= n <= 8 -> Z.shiftr 0xFF (8 - n) = 2 ^ n - 1.
Proof.
  intros Hn.
  assert (n = 1 \/ n = 2 \/ n = 3 \/ n = 4 \/ n = 5 \/ n = 6 \/ n = 7 \/ n = 8)
    as Hc by lia.
  repeat (destruct Hc as [-> | Hc]; [reflexivity |]). subst. reflexivity.
Qed.

Lemma land_max_number (c n : Z) :
  0 <= n -> 0 <= c < 2 ^ n -> Z.land c (2 ^ n - 1) = c.
Proof.
  intros Hn Hc.
  replace (2 ^ n - 1) with (Z.ones n) by (rewrite Z.ones_equiv; lia).
  rewrite Z.land_ones by lia. apply Z.mod_small. lia.
Qed.

Lemma getitem_0 {A : Type} (a : A) (l : list A) : getitem (a :: l) 0 = Ok a.
Proof. reflexivity. Qed.

Lemma slice_from_0 {A : Type} (l : list A) : slice_from l 0 = l.
Proof.
  unfold slice_from, clamp. simpl.
  rewrite Z.min_l by (unfold len; lia). reflexivity.
Qed.

Lemma slice_from_1 {A : Type} (a : A) (l : list A) :
  slice_from (a :: l) 1 = l.
Proof.
  unfold slice_from, clamp. simpl (1 <? 0).
  rewrite Z.min_l by (unfold len; simpl List.length; lia). reflexivity.
Qed.

(** Reading an encoded integer back. The first octet may carry flags above
    the prefix ([first] agrees with the encoded octet on the prefix bits),
    and anything may follow the encoding. *)
Lemma decode_integer_encoded (i n c first : Z) (tl rest : bytes) :
  1 <= n <= 8 -> 0 <= i ->
  encode_integer i n = Ok (c :: tl) ->
  Z.land first (2 ^ n - 1) = c ->
  decode_integer (first :: tl ++ rest) n = Ok (i, len (c :: tl)).
Proof.
  intros Hn Hi Henc Hfirst.
  pose proof (max_number_bounds n Hn) as HM.
  unfold decode_integer.
  destruct (Z.ltb_spec (8 - n) 0); [lia |].
  rewrite getitem_0. unfold bind, to_byte.
  rewrite shiftr_mask by lia. rewrite Hfirst.
  destruct (Z_lt_dec i (2 ^ n - 1)) as [Hlt | Hge].
  - rewrite encode_integer_short in Henc by lia.
    injection Henc as <- <-.
    destruct (Z.eqb_spec i (2 ^ n - 1)); [lia | reflexivity].
  - rewrite encode_integer_long in Henc by lia.
    injection Henc as <- <-.
    rewrite Z.eqb_refl. rewrite slice_from_1.
    rewrite decode_integer_loop_encode by lia.
    f_equal. f_equal.
    + unfold multiple. simpl. lia.
    + unfold len. simpl List.length. lia.
Qed.

(** [decode_integer] inverts [encode_integer] on every non-negative integer
    and every prefix width from 1 to 8. *)
Lemma decode_encode_integer (i n : Z) :
  1 <= n <= 8 -> 0 <= i ->
  exists encoded,
    encode_integer i n = Ok encoded /\
    decode_integer encoded n = Ok (i, len encoded).
Proof.
  intros Hn Hi. pose proof (max_number_bounds n Hn) as HM.
  assert (exists c tl, encode_integer i n = Ok (c :: tl)
                       /\ Z.land c (2 ^ n - 1) = c) as (c & tl & Henc & Hc).
  { destruct (Z_lt_dec i (2 ^ n - 1)).
    - exists i, []. split; [apply encode_integer_short; lia |].
      apply land_max_number; lia.
    - eexists _, _. split; [apply encode_integer_long; lia |].
      apply land_max_number; lia. }
  exists (c :: tl). split; [exact Henc |].
  rewrite <- (app_nil_r tl) at 1.
  apply (decode_integer_encoded i n c c tl []); assumption.
Qed.

(** C9. Integer codec round trip at the boundaries: for every prefix width
    [N] in 1..8 and every [J] among 0, 2^N-2, 2^N-1, 2^N, 2^16 and 2^21-1,
    [decode_integer(encode_integer(J, N), N)] returns [(J, len)], [len]
    being the number of octets of the encoding. *)
Theorem integer_roundtrip_boundaries (N J : Z) :
  1 <= N <= 8 ->
  In J [0; 2 ^ N - 2; 2 ^ N - 1; 2 ^ N; 2 ^ 16; 2 ^ 21 - 1] ->
  exists encoded,
    encode_integer J N = Ok encoded /\
    decode_integer encoded N = Ok (J, len encoded).
Proof.
  intros HN HI. apply decode_encode_integer; [exact HN |].
  pose proof (max_number_bounds N HN).
  simpl in HI.
  destruct HI as [<- | [<- | [<- | [<- | [<- | [<- | []]]]]]]; lia.
Qed.

Lemma integer_roundtrip_boundaries_witness :
  exists encoded,
    encode_integer (2 ^ 16) 5 = Ok encoded /\
    decode_integer encoded 5 = Ok (2 ^ 16, len encoded).
Proof.
  apply (integer_roundtrip_boundaries 5 (2 ^ 16)).
  - lia.
  - right; right; right; right; left; reflexivity.
Defined.

Lemma lor_0x80 (x : Z) : 0 <= x < 128 -> Z.lor x 0x80 = x + 128.
Proof.
  intros Hx.
  assert (Z.land x 128 = 0) as Hdisj.
  { rewrite <- (land_max_number x 7) by (simpl; lia).
    rewrite <- Z.land_assoc. simpl (Z.land (2 ^ 7 - 1) 128).
    apply Z.land_0_r. }
  rewrite <- Z.lxor_lor by exact Hdisj.
  symmetry. apply Z.add_nocarry_lxor. exact Hdisj.
Qed.

Lemma spec_long_loop_code (i : Z) :
  0 <= i -> spec_long_loop i = encode_integer_loop i.
Proof.
  intros Hi. pattern i. apply loop_ind; [| | exact Hi]; clear i Hi.
  - intros i Hi. rewrite encode_integer_loop_lt by lia.
    rewrite spec_long_loop_equation_1.
    destruct (Z_ge_dec i 128); [lia | reflexivity].
  - intros i Hi IH. rewrite encode_integer_loop_ge by lia.
    rewrite spec_long_loop_equation_1.
    destruct (Z_ge_dec i 128); [| lia]. simpl.
    rewrite IH. rewrite lor_0x80; [reflexivity |].
    apply Z.mod_pos_bound. lia.
Qed.

(** C7, as the claim states it, fails: [encode_integer(1337, 5)] is
    [31, 154, 10], while the steps of the specification run on [I = 1337]
    itself give [31, 185, 10]. *)
Lemma encode_integer_long_not_from_I :
  encode_integer 1337 5 <> Ok (spec_encode_long 1337 5).
Proof. intros H. vm_compute in H. discriminate H. Qed.

(** C7, amended. For every prefix width [N] in 1..8 and every integer
    [J >= 2^N - 1], [encode_integer(J, N)] emits a first octet equal to
    [M = 2^N - 1] (its low [N] bits are all ones), and then the octets of
    the loop of the specification run on [J - M], not on [J]: repeatedly
    [(K mod 128) | 0x80] with [K] set to [K / 128] while [K >= 128], and
    finally [K], starting from [K = J - M]. *)
Theorem encode_integer_long_form (J N : Z) :
  1 <= N <= 8 -> 2 ^ N - 1 <= J ->
  let M := 2 ^ N - 1 in
  encode_integer J N = Ok (M :: spec_long_loop (J - M))
  /\ Z.land M (2 ^ N - 1) = M.
Proof.
  intros HN HJ M. subst M. pose proof (max_number_bounds N HN).
  split.
  - rewrite spec_long_loop_code by lia. apply encode_integer_long; lia.
  - apply Z.land_diag.
Qed.

Lemma encode_integer_long_form_witness :
  encode_integer 1337 5 = Ok (31 :: spec_long_loop (1337 - 31))
  /\ Z.land 31 31 = 31.
Proof.
  apply (encode_integer_long_form 1337 5); simpl; lia.
Defined.

(** ** End-to-end scenarios of the encoder *)

(** C3, as the claim states it, fails: the block of the first request does
    not start with [0x82 0x86 0x84], whatever the Huffman coder. *)
Lemma first_request_not_82_86_84 :
  ~ (forall huffman_encode, exists self' rest,
        Encoder.encode (Encoder.__init__ huffman_encode) request_1 false
        = Ok (self', 0x82 :: 0x86 :: 0x84 :: rest)).
Proof.
  intros H. destruct (H (fun x => x)) as (self' & rest & Heq).
  vm_compute in Heq. discriminate Heq.
Qed.

(** C3, amended. Encoding the four-header list on a fresh encoder with
    [huffman=False] produces three indexed representations [0x82 0x87 0x86]
    (every static match is copied to the dynamic table, which shifts the
    static indices that follow by one), followed by a literal WITHOUT
    indexing for the authority header: the octet [0x04], the index of the
    name [:authority] on a 4-bit prefix, the length [0x0f] and the value.
    The three static matches end in the dynamic table and the reference
    set; the authority header in neither. *)
Theorem first_request_block (huffman_encode : bytes -> bytes) :
  exists self',
    Encoder.encode (Encoder.__init__ huffman_encode) request_1 false
    = Ok (self', [0x82; 0x87; 0x86] ++ [0x04; 0x0f] ++ bstr "www.example.com")
    /\ Encoder.header_table self'
       = [(bstr ":path", bstr "/"); (bstr ":scheme", bstr "http");
          (bstr ":method", bstr "GET")]
    /\ List.map (fun s => obj (Encoder.slot_key s))
         (Encoder.reference_set self')
       = [(bstr ":method", bstr "GET"); (bstr ":scheme", bstr "http");
          (bstr ":path", bstr "/")].
Proof.
  eexists. split; [reflexivity |]. split; reflexivity.
Qed.

(** C4, as the claim states it, fails: the second encoding of the list is
    not the empty byte string. *)
Lemma second_request_not_empty :
  ~ (forall huffman_encode, exists self',
        encode_twice (Encoder.__init__ huffman_encode) request_1 false
        = Ok (self', [])).
Proof.
  intros H. destruct (H (fun x => x)) as (self' & Heq).
  vm_compute in Heq. discriminate Heq.
Qed.

(** C4, amended. Encoding the same four-header list a second time into the
    same encoder returns the literal-without-indexing representation of the
    authority header alone ([0x04 0x0f] and the value): the three headers
    that matched the static table are in the reference set and are carried
    by implicit emission, the authority header never entered it. *)
Theorem second_request_block (huffman_encode : bytes -> bytes) :
  exists self',
    encode_twice (Encoder.__init__ huffman_encode) request_1 false
    = Ok (self', [0x04; 0x0f] ++ bstr "www.example.com")
    /\ List.map (fun s => (obj (Encoder.slot_key s), Encoder.value_emitted s))
         (Encoder.reference_set self')
       = [((bstr ":method", bstr "GET"), IMPLICITLY_EMITTED);
          ((bstr ":scheme", bstr "http"), IMPLICITLY_EMITTED);
          ((bstr ":path", bstr "/"), IMPLICITLY_EMITTED)].
Proof.
  eexists. split; reflexivity.
Qed.

(** ** Resolution of an index by the decoder *)

Lemma getitem_len {A : Type} (l : list A) : getitem l (len l) = Raise IndexError.
Proof.
  unfold getitem, len.
  destruct (Z.ltb_spec (Z.of_nat (List.length l)) 0); [lia |].
  destruct (Z.ltb_spec (Z.of_nat (List.length l)) 0); [lia |].
  rewrite Nat2Z.id.
  destruct (nth_error l (List.length l)) eqn:E; [| reflexivity].
  assert (nth_error l (List.length l) <> None) as Hn by congruence.
  apply nth_error_Some in Hn. lia.
Qed.

Lemma getitem_nth {A : Type} (l : list A) (i : Z) (a : A) :
  0 <= i -> nth_error l (Z.to_nat i) = Some a -> getitem l i = Ok a.
Proof.
  intros Hi Hn. unfold getitem.
  destruct (Z.ltb_spec i 0); [lia |].
  destruct (Z.ltb_spec i 0); [lia |]. rewrite Hn. reflexivity.
Qed.

(** A wire index [w] in [1..D] resolves to the dynamic entry at position
    [w], 1 being the most recent. *)
Lemma decode_indexed_dynamic (self : Decoder.t) (data : bytes)
  (w consumed : Z) (h : header) :
  decode_integer data 7 = Ok (w, consumed) ->
  1 <= w <= len (Decoder.header_table self) ->
  nth_error (Decoder.header_table self) (Z.to_nat (w - 1)) = Some h ->
  Decoder._decode_indexed self data = Ok (toggle self h consumed).
Proof.
  intros Hdec Hw Hnth. unfold Decoder._decode_indexed, toggle.
  rewrite Hdec. simpl.
  destruct (Z.gtb_spec (w - 1) (len (Decoder.header_table self))); [lia |].
  rewrite (getitem_nth _ _ h) by (assumption || lia). simpl.
  destruct (Decoder.mem h (Decoder.reference_set self)); reflexivity.
Qed.

(** A wire index [w] in [D+2..D+61] resolves to the static entry number
    [w - D], which is also copied to the dynamic table. *)
Lemma decode_indexed_static (self self' : Decoder.t) (data : bytes)
  (w consumed : Z) (h : header) :
  let D := len (Decoder.header_table self) in
  decode_integer data 7 = Ok (w, consumed) ->
  D + 2 <= w ->
  nth_error Decoder.static_table (Z.to_nat (w - D - 1)) = Some h ->
  Decoder._add_to_header_table self h = Ok self' ->
  Decoder._decode_indexed self data = Ok (toggle self' h consumed).
Proof.
  intros D Hdec Hw Hnth Hadd. subst D.
  unfold Decoder._decode_indexed, toggle.
  rewrite Hdec. simpl.
  destruct (Z.gtb_spec (w - 1) (len (Decoder.header_table self))); [| lia].
  replace (w - 1 - len (Decoder.header_table self))
    with (w - len (Decoder.header_table self) - 1) by lia.
  rewrite (getitem_nth _ _ h) by (assumption || lia). simpl.
  rewrite Hadd. simpl.
  destruct (Decoder.mem h (Decoder.reference_set self')); reflexivity.
Qed.

(** C6 (defect). The wire index [w = D + 1], which the index space gives to
    the first static entry [(':authority', '')], is not resolved: the test
    [index > len(self.header_table)] of [_decode_indexed] sends it to the
    dynamic table, one position past its end, and the lookup raises
    [IndexError]. ([_decode_literal] tests [index >= len(...)].) *)
Theorem decode_indexed_first_static_raises (self : Decoder.t) (data : bytes)
  (consumed : Z) :
  decode_integer data 7
  = Ok (len (Decoder.header_table self) + 1, consumed) ->
  Decoder._decode_indexed self data = Raise IndexError.
Proof.
  intros Hdec. unfold Decoder._decode_indexed. rewrite Hdec. simpl.
  replace (len (Decoder.header_table self) + 1 - 1)
    with (len (Decoder.header_table self)) by lia.
  destruct (Z.gtb_spec (len (Decoder.header_table self))
              (len (Decoder.header_table self))); [lia |].
  rewrite getitem_len. reflexivity.
Qed.

Lemma decode_indexed_first_static_raises_witness :
  Decoder._decode_indexed (Decoder.__init__ (fun d => Ok d)) [0x81]
  = Raise IndexError.
Proof.
  apply (decode_indexed_first_static_raises
           (Decoder.__init__ (fun d => Ok d)) [0x81] 1).
  reflexivity.
Defined.

(** ** Round trip *)

(** The block of the first request decodes to its four headers. *)
Example first_request_roundtrip (huffman_decode : bytes -> result bytes) :
  exists self',
    Decoder.decode (Decoder.__init__ huffman_decode)
      ([0x82; 0x87; 0x86] ++ [0x04; 0x0f] ++ bstr "www.example.com")
    = Ok (self',
          [(bstr ":method", bstr "GET"); (bstr ":scheme", bstr "http");
           (bstr ":path", bstr "/");
           (bstr ":authority", bstr "www.example.com")]).
Proof. eexists. reflexivity. Qed.

(** C1 (defect). The header [(':authority', '')] does not survive the round
    trip: a fresh encoder, with either value of [huffman], encodes it as the
    indexed representation [0x81], and a fresh decoder raises [IndexError]
    on that block instead of returning the header. *)
Theorem roundtrip_authority_raises
  (huffman_encode : bytes -> bytes) (huffman_decode : bytes -> result bytes)
  (huffman : bool) :
  (exists self',
      Encoder.encode (Encoder.__init__ huffman_encode)
        (Encoder.HeaderList [bpair ":authority" ""]) huffman
      = Ok (self', [0x81]))
  /\ Decoder.decode (Decoder.__init__ huffman_decode) [0x81]
     = Raise IndexError.
Proof.
  split; [| reflexivity].
  destruct huffman; eexists; reflexivity.
Qed.

(** ** The reference set and the tables *)

(** C2 (defect). [add] and [_decode_literal] insert the reference after the
    eviction loop has run, so a pair that the loop has just evicted stays in
    the reference set. On the encoder: set [header_table_size] to 0, then
    encode [('a', 'b')]. On the decoder: one block that sets the maximum
    size to 0 and then carries [('a', 'b')] as a literal with indexing. In
    both the reference set holds [('a', 'b')], the dynamic table is empty
    and the static table has no such pair. *)
Theorem reference_outlives_eviction
  (huffman_encode : bytes -> bytes) (huffman_decode : bytes -> result bytes) :
  (exists e1 e2 block,
      Encoder.set_header_table_size (Encoder.__init__ huffman_encode) 0
      = Ok e1
      /\ Encoder.encode e1 (Encoder.HeaderList [bpair "a" "b"]) false
         = Ok (e2, block)
      /\ encoder_refs_in_tables e1 = true
      /\ List.map (fun s => obj (Encoder.slot_key s))
           (Encoder.reference_set e2) = [(bstr "a", bstr "b")]
      /\ Encoder.header_table e2 = []
      /\ encoder_refs_in_tables e2 = false)
  /\ (exists d1 headers,
      Decoder.decode (Decoder.__init__ huffman_decode)
        ([0x20] ++ [0x40; 1] ++ bstr "a" ++ [1] ++ bstr "b")
      = Ok (d1, headers)
      /\ decoder_refs_in_tables (Decoder.__init__ huffman_decode) = true
      /\ Decoder.reference_set d1 = [(bstr "a", bstr "b")]
      /\ Decoder.header_table d1 = []
      /\ decoder_refs_in_tables d1 = false).
Proof.
  split.
  - do 3 eexists. repeat (split; [reflexivity |]). reflexivity.
  - do 2 eexists. repeat (split; [reflexivity |]). reflexivity.
Qed.

(** ** The context update [0x30] *)

(** When the block itself starts with [0x30], an octet [0x30] dispatched at
    any position empties the reference set, consumes one octet and changes
    nothing else. *)
Lemma decode_step_0x30_first (self : Decoder.t) (data : bytes)
  (current_index : Z) :
  getitem data 0 = Ok 0x30 ->
  getitem data current_index = Ok 0x30 ->
  Decoder.decode_step self data current_index
  = Ok (Decoder.with_refs self [], None, 1).
Proof.
  intros H0 Hi. unfold Decoder.decode_step. rewrite Hi. simpl.
  unfold Decoder._update_encoding_context. rewrite H0. reflexivity.
Qed.

(** Otherwise the octet [0x30], wherever it stands, is handled as a change
    of the maximum table size, read from the start of the block. *)
Lemma decode_step_0x30_elsewhere (self : Decoder.t) (data : bytes)
  (current_index c : Z) :
  getitem data 0 = Ok c -> c <> 0x30 ->
  getitem data current_index = Ok 0x30 ->
  Decoder.decode_step self data current_index
  = ('(new_size, consumed) <- decode_integer data 4 ;;
     self <- Decoder.set_header_table_size self new_size ;;
     Ok (self, None, consumed)).
Proof.
  intros H0 Hc Hi. unfold Decoder.decode_step. rewrite Hi. simpl.
  unfold Decoder._update_encoding_context. rewrite H0. cbn [bind].
  unfold to_byte. destruct (Z.eqb_spec c 48); [contradiction |].
  destruct (decode_integer data 4) as [[new_size consumed] |]; [| reflexivity].
  cbn [bind].
  destruct (Decoder.set_header_table_size self new_size); reflexivity.
Qed.

(** C8 (defect). [decode] hands [_update_encoding_context] the whole block
    and not [data[current_index:]], so the test for [0x30] looks at the
    first octet of the block. In the block [0x82 0x30] the octet [0x30] at
    position 1 is therefore read as a table-size update taken from [0x82]:
    the maximum size goes from 4096 to 2 and the dynamic table loses the
    entry it held. *)
Theorem context_update_reads_block_start
  (huffman_decode : bytes -> result bytes) :
  let data := [0x82; 0x30] in
  exists d0 d1,
    Decoder.decode_step (Decoder.__init__ huffman_decode) data 0
    = Ok (d0, Some (bstr ":method", bstr "GET"), 1)
    /\ getitem data 1 = Ok 0x30
    /\ Decoder.decode_step d0 data 1 = Ok (d1, None, 1)
    /\ Decoder.header_table d0 = [(bstr ":method", bstr "GET")]
    /\ Decoder._header_table_size d0 = 4096
    /\ Decoder.header_table d1 = []
    /\ Decoder._header_table_size d1 = 2.
Proof.
  do 2 eexists. repeat (split; [reflexivity |]). reflexivity.
Qed.

(** ** Reading past the end of the input *)

Lemma getitem_beyond {A : Type} (l : list A) (i : Z) :
  len l <= i -> getitem l i = Raise IndexError.
Proof.
  intros Hi. unfold getitem. unfold len in Hi.
  destruct (Z.ltb_spec i 0); [lia |].
  destruct (Z.ltb_spec i 0); [lia |].
  destruct (nth_error l (Z.to_nat i)) eqn:E; [| reflexivity].
  assert (nth_error l (Z.to_nat i) <> None) as Hn by congruence.
  apply nth_error_Some in Hn. lia.
Qed.

Lemma land_0x80 (c : Z) : 0 <= c < 128 -> Z.land c 0x80 = 0.
Proof.
  intros Hc. rewrite <- (land_max_number c 7) by (simpl; lia).
  rewrite <- Z.land_assoc. simpl (Z.land (2 ^ 7 - 1) 128).
  apply Z.land_0_r.
Qed.

Lemma flagged_prefix (c : Z) :
  0 <= c < 128 -> Z.land (Z.lor c 0x80) (2 ^ 7 - 1) = c.
Proof.
  intros Hc. rewrite Z.land_lor_distr_l.
  rewrite (land_max_number c 7) by (simpl; lia).
  simpl (Z.land 128 (2 ^ 7 - 1)). apply Z.lor_0_r.
Qed.

Lemma flagged_top_bit (c : Z) :
  0 <= c < 128 -> Z.land (Z.lor c 0x80) 0x80 = 0x80.
Proof.
  intros Hc. rewrite Z.land_lor_distr_l. rewrite land_0x80 by exact Hc.
  reflexivity.
Qed.

(** An integer whose continuation octets never end is cut by the end of the
    input. *)
Lemma decode_integer_loop_truncated (conts : bytes) :
  Forall (fun c => 128 <= c) conts ->
  forall index number,
    decode_integer_loop conts index number = Raise IndexError.
Proof.
  induction 1 as [| c conts Hc _ IH]; intros index number.
  - reflexivity.
  - simpl. unfold to_byte. destruct (Z.geb_spec c 128); [| lia]. apply IH.
Qed.

Lemma decode_integer_truncated (n first : Z) (conts : bytes) :
  1 <= n <= 8 ->
  Z.land first (2 ^ n - 1) = 2 ^ n - 1 ->
  Forall (fun c => 128 <= c) conts ->
  decode_integer (first :: conts) n = Raise IndexError.
Proof.
  intros Hn Hfirst Hconts. unfold decode_integer.
  destruct (Z.ltb_spec (8 - n) 0); [lia |].
  rewrite getitem_0. unfold bind, to_byte.
  rewrite shiftr_mask by lia. rewrite Hfirst, Z.eqb_refl.
  rewrite slice_from_1. apply decode_integer_loop_truncated. exact Hconts.
Qed.

Lemma decode_integer_empty (n : Z) :
  1 <= n <= 8 -> decode_integer [] n = Raise IndexError.
Proof.
  intros Hn. unfold decode_integer.
  destruct (Z.ltb_spec (8 - n) 0); [lia | reflexivity].
Qed.

Lemma decode_step_indexed (self : Decoder.t) (c : Z) (data : bytes) :
  Z.land c 0x80 <> 0 ->
  Decoder.decode_step self (c :: data) 0
  = Decoder._decode_indexed self (c :: data).
Proof.
  intros Hc. unfold Decoder.decode_step. rewrite getitem_0. simpl bind.
  unfold to_byte. rewrite slice_from_0.
  destruct (Z.eqb_spec (Z.land c 128) 0); [contradiction | reflexivity].
Qed.

Lemma decode_step_literal (self : Decoder.t) (flag : Z) (data : bytes) :
  flag = 0x00 \/ flag = 0x40 ->
  Decoder.decode_step self (flag :: data) 0
  = Decoder._decode_literal self (flag :: data)
      (negb (Z.land flag 0x40 =? 0)).
Proof.
  intros [-> | ->]; unfold Decoder.decode_step; rewrite getitem_0;
    simpl bind; rewrite slice_from_0; reflexivity.
Qed.

(** ** The loop of [decode] never runs out of rounds *)

Lemma Forall_skipn {A : Type} (P : A -> Prop) (n : nat) (l : list A) :
  Forall P l -> Forall P (skipn n l).
Proof.
  revert l. induction n as [| n IH]; intros l Hl; [exact Hl |].
  destruct Hl as [| a l Ha Hl]; [constructor | apply IH; exact Hl].
Qed.

Lemma slice_from_octets (data : bytes) (i : Z) :
  Forall octet data -> Forall octet (slice_from data i).
Proof. apply Forall_skipn. Qed.

Lemma multiple_nonneg (index : Z) : 0 <= multiple index.
Proof. unfold multiple. apply Z.pow_nonneg. lia. Qed.

Lemma decode_integer_loop_bounds (rest : bytes) :
  Forall octet rest ->
  forall index number v consumed,
    0 <= number ->
    decode_integer_loop rest index number = Ok (v, consumed) ->
    0 <= v /\ index < consumed.
Proof.
  induction 1 as [| c rest Hc _ IH]; intros index number v consumed Hn Hd.
  - discriminate Hd.
  - simpl in Hd. unfold to_byte in Hd. unfold octet in Hc.
    pose proof (multiple_nonneg index).
    destruct (Z.geb_spec c 128).
    + assert (0 <= (c - 128) * multiple index) as Hp
        by (apply Z.mul_nonneg_nonneg; lia).
      assert (0 <= number + (c - 128) * multiple index) as Hn' by lia.
      destruct (IH _ _ _ _ Hn' Hd). lia.
    + assert (0 <= c * multiple index) as Hp
        by (apply Z.mul_nonneg_nonneg; lia).
      injection Hd as <- <-. clear IH. split; [| lia].
      apply Z.add_nonneg_nonneg; assumption.
Qed.

Lemma decode_integer_bounds (data : bytes) (n v consumed : Z) :
  Forall octet data ->
  decode_integer data n = Ok (v, consumed) ->
  0 <= v /\ 1 <= consumed.
Proof.
  intros Hdata Hd. unfold decode_integer in Hd.
  destruct (8 - n <? 0); [discriminate Hd |].
  destruct data as [| c data]; [discriminate Hd |].
  rewrite getitem_0 in Hd. cbn [bind] in Hd. unfold to_byte in Hd.
  assert (0 <= Z.land c (Z.shiftr 255 (8 - n))) as Hnum.
  { apply Z.land_nonneg. left. inversion Hdata; subst. unfold octet in *. lia. }
  destruct (Z.land c (Z.shiftr 255 (8 - n)) =? 2 ^ n - 1).
  - destruct (decode_integer_loop_bounds _
                (slice_from_octets _ 1 Hdata) _ _ _ _ Hnum Hd). lia.
  - injection Hd as <- <-. split; [exact Hnum | lia].
Qed.

Ltac inv_bind H :=
  match type of H with
  | bind ?c _ = Ok _ =>
      let a := fresh "a" in
      let Ha := fresh "Ha" in
      destruct c as [a |] eqn:Ha; [cbn [bind] in H | discriminate H]
  end.

Lemma decode_indexed_consumed (self self' : Decoder.t) (data : bytes)
  (h : option header) (consumed : Z) :
  Forall octet data ->
  Decoder._decode_indexed self data = Ok (self', h, consumed) ->
  1 <= consumed.
Proof.
  intros Hdata H. unfold Decoder._decode_indexed in H.
  inv_bind H. destruct a as [index c].
  apply decode_integer_bounds in Ha; [| exact Hdata].
  inv_bind H. destruct a as [s hd].
  destruct (Decoder.mem hd (Decoder.reference_set s));
    injection H as <- <- <-; lia.
Qed.

Lemma update_encoding_context_consumed (self self' : Decoder.t)
  (data : bytes) (consumed : Z) :
  Forall octet data ->
  Decoder._update_encoding_context self data = Ok (self', consumed) ->
  1 <= consumed.
Proof.
  intros Hdata H. unfold Decoder._update_encoding_context in H.
  inv_bind H. destruct (to_byte a =? 48).
  - injection H as <- <-. lia.
  - inv_bind H. destruct a0 as [new_size c].
    apply decode_integer_bounds in Ha0; [| exact Hdata].
    inv_bind H. injection H as <- <-. lia.
Qed.

Lemma decode_literal_consumed (self self' : Decoder.t) (data : bytes)
  (should_index : bool) (h : option header) (consumed : Z) :
  Forall octet data ->
  Decoder._decode_literal self data should_index = Ok (self', h, consumed) ->
  1 <= consumed.
Proof.
  intros Hdata H. unfold Decoder._decode_literal in H.
  inv_bind H.
  destruct (if should_index then (Z.land (to_byte a) 63, 6)
            else (to_byte a, 4)) as [indexed_name name_len].
  inv_bind H. destruct a0 as [[[[name total] data'] c1] l1].
  inv_bind H. destruct a0 as [l2 c2].
  inv_bind H. inv_bind H. inv_bind H. injection H as <- <- <-.
  assert (1 <= total /\ Forall octet data') as [Htotal Hdata'].
  { destruct (negb (indexed_name =? 0)).
    - inv_bind Ha0. destruct a3 as [index c].
      apply decode_integer_bounds in Ha5; [| exact Hdata].
      inv_bind Ha0. injection Ha0 as <- <- <- <- <-.
      split; [lia | exact Hdata].
    - inv_bind Ha0. destruct a3 as [l c].
      apply decode_integer_bounds in Ha5; [| apply slice_from_octets; exact Hdata].
      inv_bind Ha0. inv_bind Ha0. injection Ha0 as <- <- <- <- <-.
      split; [lia | apply slice_from_octets; exact Hdata]. }
  apply decode_integer_bounds in Ha1; [| apply slice_from_octets; exact Hdata'].
  lia.
Qed.

Lemma decode_step_consumed (self self' : Decoder.t) (data : bytes)
  (current_index : Z) (h : option header) (consumed : Z) :
  Forall octet data ->
  Decoder.decode_step self data current_index = Ok (self', h, consumed) ->
  1 <= consumed.
Proof.
  intros Hdata H. unfold Decoder.decode_step in H.
  inv_bind H.
  pose proof (slice_from_octets data current_index Hdata) as Hslice.
  destruct (negb (Z.land (to_byte a) 128 =? 0)).
  { eapply decode_indexed_consumed; [exact Hslice | exact H]. }
  destruct (negb (Z.land (to_byte a) 64 =? 0)).
  { unfold Decoder._decode_literal_index in H.
    eapply decode_literal_consumed; [exact Hslice | exact H]. }
  destruct (negb (Z.land (to_byte a) 32 =? 0)).
  { inv_bind H. destruct a0 as [s c]. injection H as <- <- <-.
    eapply update_encoding_context_consumed; [exact Hdata | exact Ha0]. }
  unfold Decoder._decode_literal_no_index in H.
  eapply decode_literal_consumed; [exact Hslice | exact H].
Qed.

(** One more round than the octets left to read changes nothing: the extra
    round finds [current_index >= data_len]. *)
Lemma decode_loop_fuel (data : bytes) :
  Forall octet data ->
  forall fuel self current_index headers,
    len data - current_index <= Z.of_nat fuel ->
    Decoder.decode_loop (S fuel) self data current_index headers
    = Decoder.decode_loop fuel self data current_index headers.
Proof.
  intros Hdata. induction fuel as [| fuel IH];
    intros self current_index headers Hfuel.
  - simpl. destruct (Z.ltb_spec current_index (len data)); [lia | reflexivity].
  - change (Decoder.decode_loop (S (S fuel)) self data current_index headers)
      with (if current_index <? len data then
              '(self, header, consumed) <-
                Decoder.decode_step self data current_index ;;
              Decoder.decode_loop (S fuel) self data
                (current_index + consumed)
                (match header with
                 | Some h => headers ++ [h]
                 | None => headers
                 end)
            else Ok (self, headers)).
    change (Decoder.decode_loop (S fuel) self data current_index headers)
      with (if current_index <? len data then
              '(self, header, consumed) <-
                Decoder.decode_step self data current_index ;;
              Decoder.decode_loop fuel self data
                (current_index + consumed)
                (match header with
                 | Some h => headers ++ [h]
                 | None => headers
                 end)
            else Ok (self, headers)).
    destruct (current_index <? len data); [| reflexivity].
    destruct (Decoder.decode_step self data current_index)
      as [[[self' header] consumed] |] eqn:Hstep; [| reflexivity].
    cbn [bind]. apply IH.
    apply decode_step_consumed in Hstep; [lia | exact Hdata].
Qed.

(** [decode] gives its loop [len(data)] rounds; any larger number of rounds
    yields the same result, so the bound never cuts the loop short. *)
Lemma decode_loop_enough_fuel (self : Decoder.t) (data : bytes) (extra : nat) :
  Forall octet data ->
  Decoder.decode_loop (List.length data + extra) self data 0 []
  = Decoder.decode_loop (List.length data) self data 0 [].
Proof.
  intros Hdata. induction extra as [| extra IH].
  - rewrite Nat.add_0_r. reflexivity.
  - rewrite Nat.add_succ_r. rewrite decode_loop_fuel; [exact IH | exact Hdata |].
    unfold len. lia.
Qed.

(** ** Malformed blocks *)

Lemma cut_integer_raises (n : Z) (field : bytes) :
  1 <= n <= 8 -> cut_integer n field = true ->
  decode_integer field n = Raise IndexError.
Proof.
  intros Hn Hcut. destruct field as [| first conts].
  - apply decode_integer_empty. exact Hn.
  - simpl in Hcut. apply andb_true_iff in Hcut. destruct Hcut as [Hp Hc].
    apply decode_integer_truncated; [exact Hn | lia |].
    rewrite forallb_forall in Hc. apply Forall_forall.
    intros x Hx. specialize (Hc x Hx). lia.
Qed.

Lemma getitem_raises {A : Type} (l : list A) (i : Z) (e : exn) :
  getitem l i = Raise e -> e = IndexError.
Proof.
  unfold getitem. intros H.
  destruct ((if i <? 0 then len l + i else i) <? 0); [congruence |].
  destruct (nth_error l _); congruence.
Qed.

Lemma getitem_slice_from {A : Type} (l : list A) (i : Z) (c : A)
  (rest : list A) :
  0 <= i -> slice_from l i = c :: rest ->
  getitem l i = Ok c /\ i < len l.
Proof.
  intros Hi H. unfold slice_from, clamp in H.
  destruct (Z.ltb_spec i 0) as [| _]; [lia |].
  assert (i < len l) as Hlt.
  { destruct (Z.lt_ge_cases i (len l)) as [Hlt | Hge]; [exact Hlt |].
    rewrite Z.min_r in H by lia. unfold len in H.
    rewrite Nat2Z.id, skipn_all in H. discriminate H. }
  split; [| exact Hlt]. rewrite Z.min_l in H by lia.
  unfold getitem. destruct (Z.ltb_spec i 0) as [| _]; [lia |].
  destruct (Z.ltb_spec i 0) as [| _]; [lia |].
  revert H. generalize (Z.to_nat i). clear. intros n. revert l.
  induction n as [| n IH]; intros l H.
  - simpl in H. subst l. reflexivity.
  - destruct l as [| a l]; [discriminate H |]. simpl in *. apply IH. exact H.
Qed.

(** The three representations that carry an index start by reading it. *)
Lemma decode_step_index_raises (s : Decoder.t) (data : bytes) (i c n : Z)
  (rest : bytes) (e : exn) :
  getitem data i = Ok c -> slice_from data i = c :: rest ->
  index_prefix c = Some n ->
  decode_integer (c :: rest) n = Raise e ->
  Decoder.decode_step s data i = Raise e.
Proof.
  intros Hget Hslice Hp Hd. unfold Decoder.decode_step.
  rewrite Hget. cbn [bind]. rewrite Hslice.
  unfold index_prefix in Hp. unfold to_byte.
  destruct (negb (Z.land c 0x80 =? 0)).
  - injection Hp as <-. unfold Decoder._decode_indexed. rewrite Hd.
    reflexivity.
  - destruct (negb (Z.land c 0x40 =? 0)).
    + destruct (Z.land c 0x3F =? 0) eqn:Hlow; [discriminate Hp |].
      injection Hp as <-.
      unfold Decoder._decode_literal_index, Decoder._decode_literal.
      rewrite getitem_0. cbn [bind]. unfold to_byte. rewrite Hlow.
      cbn [negb]. rewrite Hd. reflexivity.
    + destruct (negb (Z.land c 0x20 =? 0)); [discriminate Hp |].
      destruct (c =? 0) eqn:Hz; [discriminate Hp |]. injection Hp as <-.
      unfold Decoder._decode_literal_no_index, Decoder._decode_literal.
      rewrite getitem_0. cbn [bind]. unfold to_byte. rewrite Hz.
      cbn [negb]. rewrite Hd. reflexivity.
Qed.

(** What they do next with the index they have read. *)
Lemma decode_step_index_read (s : Decoder.t) (data : bytes)
  (i c n w consumed : Z) (rest : bytes) :
  getitem data i = Ok c -> slice_from data i = c :: rest ->
  index_prefix c = Some n ->
  decode_integer (c :: rest) n = Ok (w, consumed) ->
  (Z.land c 0x80 <> 0
   /\ Decoder.decode_step s data i
      = ('(self, header) <-
           (if w - 1 >? len (Decoder.header_table s) then
              header <- getitem Decoder.static_table
                          (w - 1 - len (Decoder.header_table s)) ;;
              self <- Decoder._add_to_header_table s header ;;
              Ok (self, header)
            else
              header <- getitem (Decoder.header_table s) (w - 1) ;;
              Ok (s, header)) ;;
         if Decoder.mem header (Decoder.reference_set self) then
           Ok (Decoder.with_refs self
                 (Decoder.set_discard header (Decoder.reference_set self)),
               None, consumed)
         else
           Ok (Decoder.with_refs self
                 (Decoder.set_add header (Decoder.reference_set self)),
               Some header, consumed)))
  \/ (Z.land c 0x80 = 0
      /\ exists should_index k,
          Decoder.decode_step s data i
          = (name <-
               (if w - 1 >=? len (Decoder.header_table s) then
                  e <- getitem Decoder.static_table
                         (w - 1 - len (Decoder.header_table s)) ;;
                  Ok (fst e)
                else
                  e <- getitem (Decoder.header_table s) (w - 1) ;;
                  Ok (fst e)) ;;
             '(length, consumed') <-
               decode_integer (slice_from (c :: rest) consumed) 7 ;;
             k name length consumed')
          /\ should_index = negb (Z.land c 0x40 =? 0)).
Proof.
  intros Hget Hslice Hp Hd. unfold Decoder.decode_step.
  rewrite Hget. cbn [bind]. rewrite Hslice.
  unfold index_prefix in Hp. unfold to_byte.
  destruct (Z.land c 0x80 =? 0) eqn:Htop; cbn [negb] in *.
  - right. split; [lia |].
    destruct (negb (Z.land c 0x40 =? 0)) eqn:Hidx.
    + destruct (Z.land c 0x3F =? 0) eqn:Hlow; [discriminate Hp |].
      injection Hp as <-. exists true. eexists. split; [| reflexivity].
      unfold Decoder._decode_literal_index, Decoder._decode_literal.
      rewrite getitem_0. cbn [bind]. unfold to_byte. rewrite Hlow.
      cbn [negb]. rewrite Hd. cbn [bind].
      destruct (w - 1 >=? len (Decoder.header_table s)).
      * destruct (getitem Decoder.static_table _) as [e |];
          [| reflexivity].
        cbn [bind]. rewrite Z.add_0_r.
        instantiate
          (1 := fun name length consumed' =>
                  let data := slice_from (c :: rest) consumed in
                  let value := slice data consumed' (consumed' + length) in
                  c0 <- getitem data 0 ;;
                  value <-
                    (if negb (Z.land (to_byte c0) 0x80 =? 0)
                     then Decoder.huffman_coder s value else Ok value) ;;
                  self <-
                    (self <- Decoder._add_to_header_table s (name, value) ;;
                     Ok (Decoder.with_refs self
                           (Decoder.set_add (name, value)
                              (Decoder.reference_set self)))) ;;
                  Ok (self, Some (name, value),
                      consumed + (length + consumed'))).
        destruct (decode_integer (slice_from (c :: rest) consumed) 7)
          as [[length consumed'] |]; reflexivity.
      * destruct (getitem (Decoder.header_table s) _) as [e |];
          [| reflexivity].
        cbn [bind]. rewrite Z.add_0_r.
        destruct (decode_integer (slice_from (c :: rest) consumed) 7)
          as [[length consumed'] |]; reflexivity.
    + destruct (negb (Z.land c 0x20 =? 0)); [discriminate Hp |].
      destruct (c =? 0) eqn:Hz; [discriminate Hp |]. injection Hp as <-.
      exists false. eexists. split; [| reflexivity].
      unfold Decoder._decode_literal_no_index, Decoder._decode_literal.
      rewrite getitem_0. cbn [bind]. unfold to_byte. rewrite Hz.
      cbn [negb]. rewrite Hd. cbn [bind].
      destruct (w - 1 >=? len (Decoder.header_table s)).
      * destruct (getitem Decoder.static_table _) as [e |];
          [| reflexivity].
        cbn [bind]. rewrite Z.add_0_r.
        instantiate
          (1 := fun name length consumed' =>
                  let data := slice_from (c :: rest) consumed in
                  let value := slice data consumed' (consumed' + length) in
                  c0 <- getitem data 0 ;;
                  value <-
                    (if negb (Z.land (to_byte c0) 0x80 =? 0)
                     then Decoder.huffman_coder s value else Ok value) ;;
                  Ok (s, Some (name, value),
                      consumed + (length + consumed'))).
        destruct (decode_integer (slice_from (c :: rest) consumed) 7)
          as [[length consumed'] |]; reflexivity.
      * destruct (getitem (Decoder.header_table s) _) as [e |];
          [| reflexivity].
        cbn [bind]. rewrite Z.add_0_r.
        destruct (decode_integer (slice_from (c :: rest) consumed) 7)
          as [[length consumed'] |]; reflexivity.
  - left. split; [lia |]. injection Hp as <-.
    unfold Decoder._decode_indexed. rewrite Hd. reflexivity.
Qed.

Lemma lookup_raises_or_returns {A B : Type} (l : list A) (i : Z)
  (f : A -> B) (k : B -> result (Decoder.t * option header * Z)) :
  (forall b, k b = Raise IndexError) ->
  (e <- (a <- getitem l i ;; Ok (f a)) ;; k e) = Raise IndexError.
Proof.
  intros Hk. destruct (getitem l i) as [a | e] eqn:Hg; cbn [bind].
  - apply Hk.
  - apply getitem_raises in Hg. now subst e.
Qed.

(** One round of [decode] on a malformed representation raises
    [IndexError]. *)
Lemma decode_step_malformed (s : Decoder.t) (data : bytes) (i : Z) :
  0 <= i -> malformed s data i ->
  Decoder.decode_step s data i = Raise IndexError.
Proof.
  intros Hi [c rest Hslice Hrep | c conts -> -> Hkind Hcut].
  - destruct (getitem_slice_from data i c rest Hi Hslice) as [Hget _].
    destruct Hrep
      as [n consumed Hp Hd Hempty | n w consumed Hp Hd Hw | n Hp Hcut
          | Hc Hcut | c1 rest' length consumed Hc -> Hd Hhuff Hcut
          | n w consumed Htop Hp Hd Hcut].
    + (* index 0, empty table *)
      destruct (decode_step_index_read s data i c n 0 consumed rest
                  Hget Hslice Hp Hd)
        as [[_ ->] | (_ & should_index & k & -> & _)];
        rewrite Hempty; reflexivity.
    + (* index beyond the tables *)
      assert (0 <= len (Decoder.header_table s)) by (unfold len; lia).
      assert (getitem Decoder.static_table
                (w - 1 - len (Decoder.header_table s)) = Raise IndexError)
        as Hout by (apply getitem_beyond; lia).
      change (len Decoder.static_table) with 61 in Hw.
      destruct (decode_step_index_read s data i c n w consumed rest
                  Hget Hslice Hp Hd)
        as [[_ ->] | (_ & should_index & k & -> & _)].
      * destruct (Z.gtb_spec (w - 1) (len (Decoder.header_table s)));
          [| lia].
        rewrite Hout. reflexivity.
      * destruct (Z.geb_spec (w - 1) (len (Decoder.header_table s)));
          [| lia].
        rewrite Hout. reflexivity.
    + (* index cut off *)
      eapply decode_step_index_raises; try eassumption.
      apply cut_integer_raises; [| exact Hcut].
      unfold index_prefix in Hp.
      repeat match type of Hp with
             | (if ?b then _ else _) = _ => destruct b
             end; try discriminate Hp; injection Hp as <-; lia.
    + (* name length cut off *)
      unfold Decoder.decode_step. rewrite Hget. cbn [bind]. rewrite Hslice.
      assert (Decoder._decode_literal s (c :: rest)
                (negb (Z.land c 0x40 =? 0)) = Raise IndexError) as Hlit.
      { unfold Decoder._decode_literal. rewrite getitem_0. cbn [bind].
        assert ((if negb (Z.land c 0x40 =? 0)
                 then (Z.land (to_byte c) 0x3F, 6)
                 else (to_byte c, 4))
                = (0, if negb (Z.land c 0x40 =? 0) then 6 else 4)) as ->
          by (destruct Hc as [-> | ->]; reflexivity).
        cbn [Z.eqb negb]. rewrite slice_from_1.
        rewrite (cut_integer_raises 7 rest ltac:(lia) Hcut). reflexivity. }
      destruct Hc as [-> | ->]; exact Hlit.
    + (* value length cut off after a literal name *)
      unfold Decoder.decode_step. rewrite Hget. cbn [bind]. rewrite Hslice.
      assert (Decoder._decode_literal s (c :: c1 :: rest')
                (negb (Z.land c 0x40 =? 0)) = Raise IndexError) as Hlit.
      { unfold Decoder._decode_literal. rewrite getitem_0. cbn [bind].
        assert ((if negb (Z.land c 0x40 =? 0)
                 then (Z.land (to_byte c) 0x3F, 6)
                 else (to_byte c, 4))
                = (0, if negb (Z.land c 0x40 =? 0) then 6 else 4)) as ->
          by (destruct Hc as [-> | ->]; reflexivity).
        cbn [Z.eqb negb]. rewrite slice_from_1. rewrite Hd. cbn [bind].
        rewrite getitem_0. cbn [bind]. unfold to_byte.
        assert (exists name,
                   (if negb (Z.land c1 0x80 =? 0)
                    then Decoder.huffman_coder s
                           (slice (c1 :: rest') consumed (consumed + length))
                    else Ok (slice (c1 :: rest') consumed
                               (consumed + length))) = Ok name)
          as [name ->].
        { destruct Hhuff as [-> | [name Hname]].
          - eexists. reflexivity.
          - destruct (negb (Z.land c1 0x80 =? 0)); eexists;
              [exact Hname | reflexivity]. }
        cbn [bind].
        rewrite (cut_integer_raises 7 _ ltac:(lia) Hcut). reflexivity. }
      destruct Hc as [-> | ->]; exact Hlit.
    + (* value length cut off after an indexed name *)
      destruct (decode_step_index_read s data i c n w consumed rest
                  Hget Hslice Hp Hd)
        as [[Hset _] | (_ & should_index & k & -> & _)]; [contradiction |].
      rewrite (cut_integer_raises 7 _ ltac:(lia) Hcut).
      destruct (w - 1 >=? len (Decoder.header_table s));
        apply lookup_raises_or_returns; reflexivity.
  - (* size of a context update cut off, at the start of the block *)
    unfold Decoder.decode_step. rewrite getitem_0. cbn [bind].
    unfold to_byte.
    assert (Z.land c 0x0F = 0x0F) as Hlow
      by (simpl in Hcut; apply andb_true_iff in Hcut; lia).
    assert (Z.land c 0x80 = 0 /\ Z.land c 0x40 = 0 /\ Z.land c 0x20 = 0x20)
      as (-> & -> & ->).
    { assert (Z.land (Z.land c 0xE0) 0x80 = 0
              /\ Z.land (Z.land c 0xE0) 0x40 = 0
              /\ Z.land (Z.land c 0xE0) 0x20 = 0x20) as H
        by (rewrite Hkind; repeat split; reflexivity).
      rewrite <- !Z.land_assoc in H. exact H. }
    cbn [Z.eqb negb].
    unfold Decoder._update_encoding_context. rewrite getitem_0.
    cbn [bind]. unfold to_byte.
    destruct (Z.eqb_spec c 0x30) as [-> | _]; [discriminate Hlow |].
    rewrite (cut_integer_raises 4 _ ltac:(lia) Hcut). reflexivity.
Qed.

(** The loop of [decode] goes through the rounds that [rounds] lists. *)
Lemma rounds_loop (data : bytes) (s s' : Decoder.t) (i j : Z)
  (hs : list header) :
  Forall octet data ->
  rounds data s i hs s' j ->
  i <= j
  /\ forall fuel acc,
      len data - i <= Z.of_nat fuel ->
      exists fuel',
        Decoder.decode_loop fuel s data i acc
        = Decoder.decode_loop fuel' s' data j (acc ++ hs)
        /\ len data - j <= Z.of_nat fuel'.
Proof.
  intros Hdata Hr.
  induction Hr as [s i | s s1 s' i consumed j h hs Hlt Hstep Hr IH
                   | s s1 s' i consumed j hs Hlt Hstep Hr IH].
  - split; [lia |]. intros fuel acc Hfuel. exists fuel.
    rewrite app_nil_r. split; [reflexivity | exact Hfuel].
  - pose proof (decode_step_consumed _ _ _ _ _ _ Hdata Hstep) as Hc.
    destruct IH as [Hle IH]. split; [lia |].
    intros fuel acc Hfuel. destruct fuel as [| fuel]; [lia |].
    cbn [Decoder.decode_loop].
    destruct (Z.ltb_spec i (len data)); [| lia].
    rewrite Hstep. cbn [bind].
    destruct (IH fuel (acc ++ [h]) ltac:(lia)) as (fuel' & Heq & Hfuel').
    exists fuel'. rewrite Heq, <- app_assoc. split; [reflexivity | exact Hfuel'].
  - pose proof (decode_step_consumed _ _ _ _ _ _ Hdata Hstep) as Hc.
    destruct IH as [Hle IH]. split; [lia |].
    intros fuel acc Hfuel. destruct fuel as [| fuel]; [lia |].
    cbn [Decoder.decode_loop].
    destruct (Z.ltb_spec i (len data)); [| lia].
    rewrite Hstep. cbn [bind].
    destruct (IH fuel acc ltac:(lia)) as (fuel' & Heq & Hfuel').
    exists fuel'. split; [exact Heq | exact Hfuel'].
Qed.

Lemma malformed_inside (s : Decoder.t) (data : bytes) (i : Z) :
  0 <= i -> malformed s data i -> i < len data.
Proof.
  intros Hi [c rest Hslice _ | c conts -> -> _ _].
  - apply (getitem_slice_from data i c rest Hi Hslice).
  - unfold len. simpl. lia.
Qed.

(** C5, as the claim states it, fails: blocks that are malformed in the
    ways it lists are decoded without any error. In the first the value of
    a literal announces 5 octets and 1 is left; in the second an indexed
    representation carries index 0 while the dynamic table holds an entry
    (Python's negative index reads its oldest one); in the third the size
    of a context update is cut off by the end of the input, but the update
    is not at the start of the block, where [decode] reads the size. *)
Lemma malformed_blocks_accepted :
  ~ (forall huffman_decode, exists e,
        Decoder.decode (Decoder.__init__ huffman_decode)
          ([0x00; 1] ++ bstr "a" ++ [5] ++ bstr "b") = Raise e)
  /\ ~ (forall huffman_decode, exists e,
        Decoder.decode (Decoder.__init__ huffman_decode) [0x82; 0x80]
        = Raise e)
  /\ ~ (forall huffman_decode, exists e,
        Decoder.decode (Decoder.__init__ huffman_decode) [0x82; 0x2F]
        = Raise e).
Proof.
  repeat split; intros H; destruct (H (fun d => Ok d)) as (e & He);
    vm_compute in He; discriminate He.
Qed.

(** C5, amended. The source has no [DecodingError] and validates nothing;
    what [Decoder.decode] raises on a malformed block is Python's
    [IndexError], and it raises it wherever in the block the malformed
    representation stands. Let some rounds of the loop of [decode] on a
    [bytes] object lead to [current_index = i] in state [s], and let the
    representation at [i] be malformed in one of these ways:
    - its index (of an indexed representation, or of the name of a
      literal) is 0 while the dynamic table is empty;
    - its index is beyond the dynamic table and the 61-entry static table
      together;
    - its index is cut off by the end of the input;
    - the length of its literal name is missing or cut off;
    - the length of its value is missing or cut off, after an indexed name
      or after a literal name (which may itself overrun the input; a
      Huffman coded name is supposed to decode);
    - it stands at the start of the block, is a context update, and its
      size is cut off.
    Then [decode] raises [IndexError]. *)
Theorem decode_malformed_raises (self s : Decoder.t) (data : bytes)
  (i : Z) (hs : list header) :
  Forall octet data ->
  rounds data self 0 hs s i ->
  malformed s data i ->
  Decoder.decode self data = Raise IndexError.
Proof.
  intros Hdata Hr Hbad.
  destruct (rounds_loop data self s 0 i hs Hdata Hr) as [Hi Hloop].
  destruct (Hloop (List.length data) [] ltac:(unfold len; lia))
    as (fuel & Heq & Hfuel).
  pose proof (malformed_inside s data i Hi Hbad) as Hlt.
  unfold Decoder.decode, Decoder.decode_headers. rewrite Heq.
  destruct fuel as [| fuel]; [lia |].
  cbn [Decoder.decode_loop].
  destruct (Z.ltb_spec i (len data)); [| lia].
  rewrite (decode_step_malformed s data i Hi Hbad). reflexivity.
Qed.

Lemma decode_malformed_raises_witness :
  Decoder.decode (Decoder.__init__ (fun d => Ok d))
    ([0x82; 0x00; 3] ++ bstr "abc" ++ [0x7F; 0x80])
  = Raise IndexError.
Proof.
  eapply (decode_malformed_raises _ _ _ 1).
  - repeat constructor; unfold octet; lia.
  - eapply rounds_header; [reflexivity | reflexivity | apply rounds_none].
  - eapply malformed_here; [reflexivity |].
    eapply (value_length_cut_literal_name _ _ _ 3 (bstr "abc" ++ [0x7F; 0x80]));
      [left; reflexivity | reflexivity | reflexivity | left; reflexivity
       | reflexivity].
Defined.

(** ** Coercion of the input of [encode] *)


Example utf8_encode_e_acute : _to_bytes (PyStr [0xE9]) = Ok [0xC3; 0xA9].
Proof. reflexivity. Qed.

Example utf8_encode_surrogate :
  _to_bytes (PyStr [0xD800]) = Raise UnicodeEncodeError.
Proof. reflexivity. Qed.






(** * Further properties of the code *)

(** ** The integer codec, in general *)

Lemma land_or_first (c flag n : Z) :
  0 <= n -> 0 <= c < 2 ^ n -> Z.land flag (2 ^ n - 1) = 0 ->
  Z.land (Z.lor c flag) (2 ^ n - 1) = c.
Proof.
  intros Hn Hc Hflag. rewrite Z.land_lor_distr_l, Hflag.
  rewrite land_max_number by assumption. apply Z.lor_0_r.
Qed.

Lemma encode_integer_first (i n : Z) :
  1 <= n <= 8 -> 0 <= i ->
  exists c tl,
    encode_integer i n = Ok (c :: tl)
    /\ 0 <= c < 2 ^ n
    /\ Forall octet tl
    /\ (i < 2 ^ n - 1 <-> tl = []).
Proof.
  intros Hn Hi. pose proof (max_number_bounds n Hn) as HM.
  destruct (Z_lt_dec i (2 ^ n - 1)) as [Hlt | Hge].
  - exists i, []. rewrite encode_integer_short by lia.
    repeat split; try lia; constructor.
  - exists (2 ^ n - 1), (encode_integer_loop (i - (2 ^ n - 1))).
    rewrite encode_integer_long by lia.
    split; [reflexivity |]. split; [lia |].
    split; [apply encode_integer_loop_octets; lia |].
    split; [lia |]. intros Hnil.
    destruct (Z_lt_dec (i - (2 ^ n - 1)) 128).
    + rewrite encode_integer_loop_lt in Hnil by lia. discriminate Hnil.
    + rewrite encode_integer_loop_ge in Hnil by lia. discriminate Hnil.
Qed.

(** X1. Round trip of the integer codec in general: for every integer
    [i >= 0] and prefix width [n] in 1..8, [encode_integer(i, n)] succeeds
    and [decode_integer] reads [i] back from it, reporting the length of the
    encoding as consumed, whatever octets follow it and whatever flag bits
    the caller has or-ed into the first octet above the prefix (as
    [field[0] = field[0] | 0x80] does). *)
Theorem integer_roundtrip (i n : Z) (rest : bytes) :
  1 <= n <= 8 -> 0 <= i ->
  exists encoded,
    encode_integer i n = Ok encoded
    /\ decode_integer (encoded ++ rest) n = Ok (i, len encoded)
    /\ forall flag flagged,
         Z.land flag (2 ^ n - 1) = 0 ->
         Encoder.or_first flag encoded = Ok flagged ->
         decode_integer (flagged ++ rest) n = Ok (i, len encoded).
Proof.
  intros Hn Hi.
  destruct (encode_integer_first i n Hn Hi) as (c & tl & Henc & Hc & _ & _).
  exists (c :: tl). split; [exact Henc |]. split.
  - simpl app. apply (decode_integer_encoded i n c c tl rest); try assumption.
    apply land_max_number; lia.
  - intros flag flagged Hflag Hor. simpl in Hor. injection Hor as <-.
    simpl app. apply (decode_integer_encoded i n c _ tl rest); try assumption.
    apply land_or_first; (assumption || lia).
Qed.

Lemma integer_roundtrip_witness :
  exists encoded,
    encode_integer 1337 5 = Ok encoded
    /\ decode_integer (encoded ++ [7; 7]) 5 = Ok (1337, len encoded)
    /\ forall flag flagged,
         Z.land flag (2 ^ 5 - 1) = 0 ->
         Encoder.or_first flag encoded = Ok flagged ->
         decode_integer (flagged ++ [7; 7]) 5 = Ok (1337, len encoded).
Proof.
  apply (integer_roundtrip 1337 5 [7; 7]); lia.
Defined.

(** X2. Shape of an encoding: for [i >= 0] and [n] in 1..8 the result is a
    non-empty sequence of octets whose first octet is below [2^n] (the bits
    above the prefix are left clear for the caller), and it is a single
    octet exactly when [i < 2^n - 1]; in that case the octet is [i]. *)
Theorem encode_integer_shape (i n : Z) :
  1 <= n <= 8 -> 0 <= i ->
  exists c tl,
    encode_integer i n = Ok (c :: tl)
    /\ 0 <= c < 2 ^ n
    /\ Forall octet tl
    /\ (i < 2 ^ n - 1 <-> tl = [])
    /\ (i < 2 ^ n - 1 -> c = i)
    /\ (2 ^ n - 1 <= i -> c = 2 ^ n - 1).
Proof.
  intros Hn Hi.
  destruct (encode_integer_first i n Hn Hi) as (c & tl & Henc & Hc & Htl & Hiff).
  exists c, tl. repeat split; try assumption; try lia; try apply Hiff.
  - intros Hlt. rewrite encode_integer_short in Henc by lia.
    injection Henc as <- _. reflexivity.
  - intros Hge. rewrite encode_integer_long in Henc by lia.
    injection Henc as <- _. reflexivity.
Qed.

Lemma encode_integer_shape_witness :
  exists c tl,
    encode_integer 300 7 = Ok (c :: tl)
    /\ 0 <= c < 2 ^ 7
    /\ Forall octet tl
    /\ (300 < 2 ^ 7 - 1 <-> tl = [])
    /\ (300 < 2 ^ 7 - 1 -> c = 300)
    /\ (2 ^ 7 - 1 <= 300 -> c = 2 ^ 7 - 1).
Proof.
  apply (encode_integer_shape 300 7); lia.
Defined.

(** X3. A negative integer is refused: [bytearray([integer])] raises
    [ValueError]. *)
Theorem encode_integer_negative (i n : Z) :
  0 <= n -> i < 0 -> encode_integer i n = Raise ValueError.
Proof.
  intros Hn Hi. unfold encode_integer.
  assert (0 < 2 ^ n) by (apply Z.pow_pos_nonneg; lia).
  destruct (Z.ltb_spec i (2 ^ n - 1)); [| lia].
  unfold bytearray. simpl.
  destruct (Z.leb_spec 0 i); [lia | reflexivity].
Qed.

Lemma encode_integer_negative_witness :
  encode_integer (-1) 7 = Raise ValueError.
Proof.
  apply (encode_integer_negative (-1) 7); lia.
Defined.

Lemma encode_integer_loop_continuations (i : Z) :
  0 <= i ->
  forall k, (k < List.length (encode_integer_loop i))%nat ->
  Forall (fun c => 128 <= c) (firstn k (encode_integer_loop i)).
Proof.
  intros Hi. pattern i. apply loop_ind; [| | exact Hi]; clear i Hi.
  - intros i Hi k Hk. rewrite encode_integer_loop_lt in * by lia.
    simpl in Hk. replace k with 0%nat by lia. constructor.
  - intros i Hi IH k Hk. rewrite encode_integer_loop_ge in * by lia.
    destruct k as [| k]; [constructor |]. simpl in *.
    constructor.
    + pose proof (Z.mod_pos_bound i 128). lia.
    + apply IH. lia.
Qed.

(** X4. A truncated encoding never decodes: for [i >= 0] and [n] in 1..8,
    [decode_integer] raises [IndexError] on every proper prefix of
    [encode_integer(i, n)], the empty one included. *)
Theorem decode_integer_proper_prefix (i n : Z) (encoded : bytes) (k : nat) :
  1 <= n <= 8 -> 0 <= i ->
  encode_integer i n = Ok encoded ->
  (k < List.length encoded)%nat ->
  decode_integer (firstn k encoded) n = Raise IndexError.
Proof.
  intros Hn Hi Henc Hk. pose proof (max_number_bounds n Hn) as HM.
  destruct k as [| k]; [apply decode_integer_empty; exact Hn |].
  destruct (Z_lt_dec i (2 ^ n - 1)) as [Hlt | Hge].
  - rewrite encode_integer_short in Henc by lia. injection Henc as <-.
    simpl in Hk. lia.
  - rewrite encode_integer_long in Henc by lia. injection Henc as <-.
    simpl in Hk. simpl firstn.
    apply decode_integer_truncated; [exact Hn | apply Z.land_diag |].
    apply encode_integer_loop_continuations; lia.
Qed.

Lemma decode_integer_proper_prefix_witness :
  decode_integer (firstn 2 [31; 154; 10]) 5 = Raise IndexError.
Proof.
  apply (decode_integer_proper_prefix 1337 5 [31; 154; 10] 2).
  - lia.
  - lia.
  - reflexivity.
  - simpl. lia.
Defined.

Lemma decode_integer_loop_consumed (rest : bytes) :
  forall index number v consumed,
    decode_integer_loop rest index number = Ok (v, consumed) ->
    consumed <= index + len rest.
Proof.
  induction rest as [| c rest IH]; intros index number v consumed Hd.
  - discriminate Hd.
  - simpl in Hd. unfold len in *. simpl List.length.
    destruct (to_byte c >=? 128).
    + apply IH in Hd. lia.
    + injection Hd as _ <-. lia.
Qed.

(** X5. What [decode_integer] reports on a well-formed [bytes] object: the
    integer is never negative, and the number of octets consumed is at
    least 1 and at most the length of the input. *)
Theorem decode_integer_within_input (data : bytes) (n v consumed : Z) :
  Forall octet data ->
  decode_integer data n = Ok (v, consumed) ->
  0 <= v /\ 1 <= consumed <= len data.
Proof.
  intros Hdata Hd.
  destruct (decode_integer_bounds data n v consumed Hdata Hd) as [Hv Hc].
  split; [exact Hv |]. split; [exact Hc |].
  unfold decode_integer in Hd.
  destruct (8 - n <? 0); [discriminate Hd |].
  destruct data as [| c data]; [discriminate Hd |].
  rewrite getitem_0 in Hd. cbn [bind] in Hd.
  unfold len. simpl List.length.
  destruct (Z.land (to_byte c) (Z.shiftr 255 (8 - n)) =? 2 ^ n - 1).
  - rewrite slice_from_1 in Hd. apply decode_integer_loop_consumed in Hd.
    unfold len in Hd. lia.
  - injection Hd as _ <-. lia.
Qed.

Lemma decode_integer_within_input_witness :
  0 <= 1337 /\ 1 <= 3 <= len [31; 154; 10; 99].
Proof.
  apply (decode_integer_within_input [31; 154; 10; 99] 5 1337 3).
  - repeat constructor; unfold octet; lia.
  - reflexivity.
Defined.

(** ** The dynamic table: size accounting and eviction *)

Lemma header_eqb_eq (h k : header) : header_eqb h k = true <-> h = k.
Proof.
  destruct h as [n v], k as [n' v']. unfold header_eqb, bytes_eqb. simpl.
  destruct (list_eq_dec Z.eq_dec n n'), (list_eq_dec Z.eq_dec v v');
    simpl; split; intros H; try discriminate; try congruence.
Qed.

Lemma header_eqb_refl (h : header) : header_eqb h h = true.
Proof. apply header_eqb_eq. reflexivity. Qed.

Lemma header_eqb_neq (h k : header) : header_eqb h k = false <-> h <> k.
Proof.
  split.
  - intros H Heq. apply header_eqb_eq in Heq. congruence.
  - intros H. destruct (header_eqb h k) eqn:E; [| reflexivity].
    apply header_eqb_eq in E. contradiction.
Qed.

Lemma entry_size_min (h : header) : 32 <= entry_size h.
Proof. unfold entry_size, len. lia. Qed.

Lemma header_table_size_cons (h : header) (table : list header) :
  header_table_size (h :: table) = entry_size h + header_table_size table.
Proof. reflexivity. Qed.

Lemma header_table_size_app (t1 t2 : list header) :
  header_table_size (t1 ++ t2) = header_table_size t1 + header_table_size t2.
Proof.
  induction t1 as [| h t1 IH]; [reflexivity |].
  simpl app. rewrite !header_table_size_cons, IH. lia.
Qed.

Lemma header_table_size_rev (table : list header) :
  header_table_size (rev table) = header_table_size table.
Proof.
  induction table as [| h table IH]; [reflexivity |].
  simpl rev. rewrite header_table_size_app, IH, !header_table_size_cons.
  change (header_table_size []) with 0. lia.
Qed.

Lemma header_table_size_nonneg (table : list header) :
  0 <= header_table_size table.
Proof.
  induction table as [| h table IH]; [simpl; lia |].
  rewrite header_table_size_cons. pose proof (entry_size_min h). lia.
Qed.

Lemma header_table_size_0 (table : list header) :
  header_table_size table <= 0 -> table = [].
Proof.
  destruct table as [| h table]; [reflexivity |].
  rewrite header_table_size_cons.
  pose proof (entry_size_min h). pose proof (header_table_size_nonneg table).
  lia.
Qed.

(** The eviction loop of the decoder, started with the true size of the
    table: it pops [popped] (oldest first), keeps [kept], stops as soon as
    the size fits, and discards exactly the popped pairs from the reference
    set. *)
Lemma decoder_evict_spec (max_size : Z) (rev_table : list header) :
  forall refs table' refs',
    Decoder.evict rev_table refs (header_table_size rev_table) max_size
    = Ok (table', refs') ->
    exists popped kept,
      rev_table = popped ++ kept
      /\ table' = rev kept
      /\ header_table_size kept <= max_size
      /\ (forall r, In r refs' <-> In r refs /\ ~ In r popped)
      /\ (forall p popped0, popped = popped0 ++ [p] ->
                            max_size < entry_size p + header_table_size kept).
Proof.
  induction rev_table as [| hd rt IH]; intros refs table' refs' Hev.
  - simpl in Hev. destruct (Z.gtb_spec 0 max_size); [discriminate Hev |].
    injection Hev as <- <-. exists [], []. simpl.
    split; [reflexivity |]. split; [reflexivity |]. split; [lia |].
    split; [intros; tauto |].
    intros p popped0 Hp. destruct popped0; discriminate Hp.
  - rewrite header_table_size_cons in Hev. cbn [Decoder.evict] in Hev.
    destruct (Z.gtb_spec (entry_size hd + header_table_size rt) max_size)
      as [Hgt | Hle].
    + replace (entry_size hd + header_table_size rt - entry_size hd)
        with (header_table_size rt) in Hev by lia.
      destruct (IH _ _ _ Hev) as (popped & kept & -> & -> & Hsize & Hrefs & Hmin).
      exists (hd :: popped), kept.
      split; [reflexivity |]. split; [reflexivity |].
      split; [exact Hsize |]. split; [intros r; split |].
      * intros Hin. apply Hrefs in Hin. destruct Hin as [Hin Hnot].
        unfold Decoder.set_discard in Hin. apply filter_In in Hin.
        destruct Hin as [Hin Hneq]. split; [exact Hin |].
        intros [Heq | Hp]; [| contradiction].
        subst r. rewrite header_eqb_refl in Hneq. discriminate Hneq.
      * intros [Hin Hnot]. apply Hrefs. split.
        -- unfold Decoder.set_discard. apply filter_In. split; [exact Hin |].
           apply negb_true_iff, header_eqb_neq. intros ->. apply Hnot. now left.
        -- intros Hp. apply Hnot. now right.
      * intros p popped0 Hp. destruct popped0 as [| q popped0].
        -- simpl in Hp. injection Hp as <- Hnil.
           destruct popped; [| discriminate Hnil].
           simpl in Hgt. lia.
        -- simpl in Hp. injection Hp as _ Hp. eapply Hmin. exact Hp.
    + injection Hev as <- <-. exists [], (hd :: rt). simpl app.
      rewrite header_table_size_cons.
      split; [reflexivity |]. split; [reflexivity |]. split; [lia |].
      split; [intros; simpl; tauto |].
      intros p popped0 Hp. destruct popped0; discriminate Hp.
Qed.

Lemma decoder_evict_ok (max_size : Z) (rev_table : list header) :
  0 <= max_size ->
  forall refs, exists r,
    Decoder.evict rev_table refs (header_table_size rev_table) max_size = Ok r.
Proof.
  intros Hmax. induction rev_table as [| hd rt IH]; intros refs.
  - simpl. destruct (Z.gtb_spec 0 max_size); [lia |]. eexists; reflexivity.
  - rewrite header_table_size_cons. cbn [Decoder.evict].
    destruct (entry_size hd + header_table_size rt >? max_size).
    + replace (entry_size hd + header_table_size rt - entry_size hd)
        with (header_table_size rt) by lia. apply IH.
    + eexists; reflexivity.
Qed.

(** The same for the encoder, whose reference set is a dictionary. *)
Lemma encoder_evict_spec (max_size : Z) (rev_table : list header) :
  forall refs table' refs',
    Encoder.evict rev_table refs (header_table_size rev_table) max_size
    = Ok (table', refs') ->
    exists popped kept,
      rev_table = popped ++ kept
      /\ table' = rev kept
      /\ header_table_size kept <= max_size
      /\ (forall s, In s refs' <->
                    In s refs /\ ~ In (obj (Encoder.slot_key s)) popped)
      /\ (forall p popped0, popped = popped0 ++ [p] ->
                            max_size < entry_size p + header_table_size kept).
Proof.
  induction rev_table as [| hd rt IH]; intros refs table' refs' Hev.
  - simpl in Hev. destruct (Z.gtb_spec 0 max_size); [discriminate Hev |].
    injection Hev as <- <-. exists [], []. simpl.
    split; [reflexivity |]. split; [reflexivity |]. split; [lia |].
    split; [intros; tauto |].
    intros p popped0 Hp. destruct popped0; discriminate Hp.
  - rewrite header_table_size_cons in Hev. cbn [Encoder.evict] in Hev.
    destruct (Z.gtb_spec (entry_size hd + header_table_size rt) max_size)
      as [Hgt | Hle].
    + replace (entry_size hd + header_table_size rt - entry_size hd)
        with (header_table_size rt) in Hev by lia.
      destruct (IH _ _ _ Hev) as (popped & kept & -> & -> & Hsize & Hrefs & Hmin).
      exists (hd :: popped), kept.
      split; [reflexivity |]. split; [reflexivity |].
      split; [exact Hsize |]. split; [intros s; split |].
      * intros Hin. apply Hrefs in Hin. destruct Hin as [Hin Hnot].
        unfold Encoder.refs_remove in Hin. apply filter_In in Hin.
        destruct Hin as [Hin Hneq]. split; [exact Hin |].
        intros [Heq | Hp]; [| contradiction].
        rewrite <- Heq, header_eqb_refl in Hneq. discriminate Hneq.
      * intros [Hin Hnot]. apply Hrefs. split.
        -- unfold Encoder.refs_remove. apply filter_In. split; [exact Hin |].
           apply negb_true_iff, header_eqb_neq. intros Heq. apply Hnot.
           left. symmetry. exact Heq.
        -- intros Hp. apply Hnot. now right.
      * intros p popped0 Hp. destruct popped0 as [| q popped0].
        -- simpl in Hp. injection Hp as <- Hnil.
           destruct popped; [| discriminate Hnil].
           simpl in Hgt. lia.
        -- simpl in Hp. injection Hp as _ Hp. eapply Hmin. exact Hp.
    + injection Hev as <- <-. exists [], (hd :: rt). simpl app.
      rewrite header_table_size_cons.
      split; [reflexivity |]. split; [reflexivity |]. split; [lia |].
      split; [intros; simpl; tauto |].
      intros p popped0 Hp. destruct popped0; discriminate Hp.
Qed.

Lemma encoder_evict_ok (max_size : Z) (rev_table : list header) :
  0 <= max_size ->
  forall refs, exists r,
    Encoder.evict rev_table refs (header_table_size rev_table) max_size = Ok r.
Proof.
  intros Hmax. induction rev_table as [| hd rt IH]; intros refs.
  - simpl. destruct (Z.gtb_spec 0 max_size); [lia |]. eexists; reflexivity.
  - rewrite header_table_size_cons. cbn [Encoder.evict].
    destruct (entry_size hd + header_table_size rt >? max_size).
    + replace (entry_size hd + header_table_size rt - entry_size hd)
        with (header_table_size rt) by lia. apply IH.
    + eexists; reflexivity.
Qed.

Lemma fits_stays_first (h : header) (table table' evicted : list header)
  (max_size : Z) :
  h :: table = table' ++ evicted ->
  (forall e evicted', evicted = e :: evicted' ->
                      max_size < header_table_size table' + entry_size e) ->
  entry_size h <= max_size ->
  exists tl, table' = h :: tl.
Proof.
  intros Hsplit Hmin Hfit. destruct table' as [| x tl].
  - simpl in Hsplit. specialize (Hmin h table (eq_sym Hsplit)).
    simpl in Hmin. lia.
  - simpl in Hsplit. injection Hsplit as <- _. exists tl. reflexivity.
Qed.

(** X6. [Decoder._add_to_header_table], for a maximum size that is not
    negative: it never raises; the new table is the new entry followed by
    the old table, cut at the back; its size is within the maximum; no more
    is evicted than needed (putting the last evicted entry back would
    exceed the maximum); the reference set loses exactly the evicted pairs;
    and an entry that fits on its own ends at the front of the table. *)
Theorem decoder_add_to_header_table_spec (self : Decoder.t) (h : header) :
  0 <= Decoder._header_table_size self ->
  exists self' evicted,
    Decoder._add_to_header_table self h = Ok self'
    /\ h :: Decoder.header_table self = Decoder.header_table self' ++ evicted
    /\ header_table_size (Decoder.header_table self')
       <= Decoder._header_table_size self'
    /\ Decoder._header_table_size self' = Decoder._header_table_size self
    /\ (forall r, In r (Decoder.reference_set self') <->
                  In r (Decoder.reference_set self) /\ ~ In r evicted)
    /\ (forall e evicted', evicted = e :: evicted' ->
          Decoder._header_table_size self
          < header_table_size (Decoder.header_table self') + entry_size e)
    /\ (entry_size h <= Decoder._header_table_size self ->
        exists tl, Decoder.header_table self' = h :: tl).
Proof.
  intros Hmax. unfold Decoder._add_to_header_table.
  rewrite <- (header_table_size_rev (h :: Decoder.header_table self)).
  destruct (decoder_evict_ok _ (rev (h :: Decoder.header_table self)) Hmax
              (Decoder.reference_set self)) as [[table' refs'] Hev].
  rewrite Hev. cbn [bind].
  destruct (decoder_evict_spec _ _ _ _ _ Hev)
    as (popped & kept & Hsplit & -> & Hsize & Hrefs & Hmin).
  assert (h :: Decoder.header_table self = rev kept ++ rev popped) as Htable.
  { rewrite <- rev_app_distr, <- Hsplit, rev_involutive. reflexivity. }
  assert (forall e evicted', rev popped = e :: evicted' ->
            Decoder._header_table_size self
            < header_table_size (rev kept) + entry_size e) as Hmin'.
  { intros e evicted' He. rewrite header_table_size_rev.
    specialize (Hmin e (rev evicted')).
    rewrite <- (rev_involutive popped), He in Hmin. simpl in Hmin.
    specialize (Hmin eq_refl). lia. }
  eexists _, (rev popped). split; [reflexivity |]. cbn.
  split; [exact Htable |].
  split; [rewrite header_table_size_rev; exact Hsize |].
  split; [reflexivity |].
  split; [intros r; rewrite <- in_rev; apply Hrefs |].
  split; [exact Hmin' |].
  intros Hfit. eapply fits_stays_first; eassumption.
Qed.

Lemma decoder_add_to_header_table_spec_witness :
  exists self' evicted,
    Decoder._add_to_header_table two_custom_headers_read_tight
      (bstr "a", bstr "b") = Ok self'
    /\ (bstr "a", bstr "b")
       :: Decoder.header_table two_custom_headers_read_tight
       = Decoder.header_table self' ++ evicted
    /\ evicted = [(bstr "foo", bstr "bar")]
    /\ header_table_size (Decoder.header_table self') <= 80
    /\ ~ In (bstr "foo", bstr "bar") (Decoder.reference_set self').
Proof.
  destruct (decoder_add_to_header_table_spec two_custom_headers_read_tight
              (bstr "a", bstr "b"))
    as (self' & evicted & Hok & Hsplit & Hsize & Hmax & Hrefs & _).
  - simpl. lia.
  - assert (evicted = [(bstr "foo", bstr "bar")]) as Hev.
    { vm_compute in Hok. injection Hok as <-. vm_compute in Hsplit.
      injection Hsplit as <-. reflexivity. }
    exists self', evicted. split; [exact Hok |]. split; [exact Hsplit |].
    split; [exact Hev |]. split; [rewrite Hmax in Hsize; exact Hsize |].
    intros Hin. apply Hrefs in Hin. destruct Hin as [_ Hnot].
    apply Hnot. rewrite Hev. left. reflexivity.
Defined.

(** X7. [Encoder._add_to_header_table], for a maximum size that is not
    negative: the same as for the decoder, the reference set losing exactly
    the references to evicted pairs. *)
Theorem encoder_add_to_header_table_spec (self : Encoder.t) (h : header) :
  0 <= Encoder._header_table_size self ->
  exists self' evicted,
    Encoder._add_to_header_table self h = Ok self'
    /\ h :: Encoder.header_table self = Encoder.header_table self' ++ evicted
    /\ header_table_size (Encoder.header_table self')
       <= Encoder._header_table_size self'
    /\ Encoder._header_table_size self' = Encoder._header_table_size self
    /\ (forall s, In s (Encoder.reference_set self') <->
                  In s (Encoder.reference_set self)
                  /\ ~ In (obj (Encoder.slot_key s)) evicted)
    /\ (forall e evicted', evicted = e :: evicted' ->
          Encoder._header_table_size self
          < header_table_size (Encoder.header_table self') + entry_size e)
    /\ (entry_size h <= Encoder._header_table_size self ->
        exists tl, Encoder.header_table self' = h :: tl).
Proof.
  intros Hmax. unfold Encoder._add_to_header_table.
  rewrite <- (header_table_size_rev (h :: Encoder.header_table self)).
  destruct (encoder_evict_ok _ (rev (h :: Encoder.header_table self)) Hmax
              (Encoder.reference_set self)) as [[table' refs'] Hev].
  rewrite Hev. cbn [bind].
  destruct (encoder_evict_spec _ _ _ _ _ Hev)
    as (popped & kept & Hsplit & -> & Hsize & Hrefs & Hmin).
  assert (h :: Encoder.header_table self = rev kept ++ rev popped) as Htable.
  { rewrite <- rev_app_distr, <- Hsplit, rev_involutive. reflexivity. }
  assert (forall e evicted', rev popped = e :: evicted' ->
            Encoder._header_table_size self
            < header_table_size (rev kept) + entry_size e) as Hmin'.
  { intros e evicted' He. rewrite header_table_size_rev.
    specialize (Hmin e (rev evicted')).
    rewrite <- (rev_involutive popped), He in Hmin. simpl in Hmin.
    specialize (Hmin eq_refl). lia. }
  eexists _, (rev popped). split; [reflexivity |]. cbn.
  split; [exact Htable |].
  split; [rewrite header_table_size_rev; exact Hsize |].
  split; [reflexivity |].
  split; [intros s; rewrite <- in_rev; apply Hrefs |].
  split; [exact Hmin' |].
  intros Hfit. eapply fits_stays_first; eassumption.
Qed.

Lemma encoder_add_to_header_table_spec_witness :
  exists self' evicted,
    Encoder._add_to_header_table two_custom_headers_tight
      (bstr "a", bstr "b") = Ok self'
    /\ (bstr "a", bstr "b")
       :: Encoder.header_table two_custom_headers_tight
       = Encoder.header_table self' ++ evicted
    /\ evicted = [(bstr "foo", bstr "bar")]
    /\ header_table_size (Encoder.header_table self') <= 80
    /\ forall s, In s (Encoder.reference_set self') ->
                 obj (Encoder.slot_key s) <> (bstr "foo", bstr "bar").
Proof.
  destruct (encoder_add_to_header_table_spec two_custom_headers_tight
              (bstr "a", bstr "b"))
    as (self' & evicted & Hok & Hsplit & Hsize & Hmax & Hrefs & _).
  - simpl. lia.
  - assert (evicted = [(bstr "foo", bstr "bar")]) as Hev.
    { vm_compute in Hok. injection Hok as <-. vm_compute in Hsplit.
      injection Hsplit as <-. reflexivity. }
    exists self', evicted. split; [exact Hok |]. split; [exact Hsplit |].
    split; [exact Hev |]. split; [rewrite Hmax in Hsize; exact Hsize |].
    intros s Hin Hobj. apply Hrefs in Hin. destruct Hin as [_ Hnot].
    apply Hnot. rewrite Hev, Hobj. left. reflexivity.
Defined.

(** X8. The [header_table_size] setter of the decoder, for a new value that
    is not negative and a table within its current maximum: it never
    raises; the maximum becomes the new value; the table is cut at the back
    until its size is within the new value, and no further; the reference
    set loses exactly the evicted pairs; a value that is not below the
    current maximum evicts nothing, and the value 0 empties the table. *)
Theorem decoder_set_header_table_size_spec (self : Decoder.t) (value : Z) :
  0 <= value ->
  header_table_size (Decoder.header_table self)
  <= Decoder._header_table_size self ->
  exists self' evicted,
    Decoder.set_header_table_size self value = Ok self'
    /\ Decoder._header_table_size self' = value
    /\ Decoder.header_table self = Decoder.header_table self' ++ evicted
    /\ header_table_size (Decoder.header_table self') <= value
    /\ (forall r, In r (Decoder.reference_set self') <->
                  In r (Decoder.reference_set self) /\ ~ In r evicted)
    /\ (forall e evicted', evicted = e :: evicted' ->
          value < header_table_size (Decoder.header_table self')
                  + entry_size e)
    /\ (Decoder._header_table_size self <= value -> evicted = [])
    /\ (value = 0 -> Decoder.header_table self' = []).
Proof.
  intros Hvalue Hbound. unfold Decoder.set_header_table_size.
  destruct (Z.ltb_spec value (Decoder._header_table_size self)) as [Hlt | Hge].
  - rewrite <- (header_table_size_rev (Decoder.header_table self)).
    destruct (decoder_evict_ok _ (rev (Decoder.header_table self)) Hvalue
                (Decoder.reference_set self)) as [[table' refs'] Hev].
    rewrite Hev. cbn [bind].
    destruct (decoder_evict_spec _ _ _ _ _ Hev)
      as (popped & kept & Hsplit & -> & Hsize & Hrefs & Hmin).
    eexists _, (rev popped). split; [reflexivity |]. cbn.
    split; [reflexivity |].
    split.
    { rewrite <- rev_app_distr, <- Hsplit, rev_involutive. reflexivity. }
    split; [rewrite header_table_size_rev; exact Hsize |].
    split; [intros r; rewrite <- in_rev; apply Hrefs |].
    split.
    { intros e evicted' He. rewrite header_table_size_rev.
      specialize (Hmin e (rev evicted')).
      rewrite <- (rev_involutive popped), He in Hmin. simpl in Hmin.
      specialize (Hmin eq_refl). lia. }
    split; [lia |].
    intros ->. apply header_table_size_0.
    rewrite header_table_size_rev. exact Hsize.
  - eexists _, []. split; [reflexivity |].
    cbn [Decoder.header_table Decoder._header_table_size
         Decoder.reference_set].
    split; [reflexivity |].
    split; [symmetry; apply app_nil_r |].
    split; [lia |].
    split; [intros r; simpl; tauto |].
    split; [intros e evicted' He; discriminate He |].
    split; [reflexivity |].
    intros ->. apply header_table_size_0. lia.
Qed.

Lemma decoder_set_header_table_size_spec_witness :
  exists self',
    Decoder.set_header_table_size
      {| Decoder.header_table := [(bstr "a", bstr "b"); (bstr "c", bstr "d")];
         Decoder.reference_set := [(bstr "c", bstr "d")];
         Decoder._header_table_size := 4096;
         Decoder.huffman_coder := fun d => Ok d |} 40 = Ok self'
    /\ Decoder._header_table_size self' = 40.
Proof.
  destruct (decoder_set_header_table_size_spec
      {| Decoder.header_table := [(bstr "a", bstr "b"); (bstr "c", bstr "d")];
         Decoder.reference_set := [(bstr "c", bstr "d")];
         Decoder._header_table_size := 4096;
         Decoder.huffman_coder := fun d => Ok d |} 40)
    as (self' & evicted & Hok & Hmax & _).
  - lia.
  - vm_compute. discriminate.
  - exists self'. split; assumption.
Defined.

(** X9. The [header_table_size] setter of the encoder, under the same
    conditions: as for the decoder, the reference set losing exactly the
    references to evicted pairs. Nothing is written to the wire. *)
Theorem encoder_set_header_table_size_spec (self : Encoder.t) (value : Z) :
  0 <= value ->
  header_table_size (Encoder.header_table self)
  <= Encoder._header_table_size self ->
  exists self' evicted,
    Encoder.set_header_table_size self value = Ok self'
    /\ Encoder._header_table_size self' = value
    /\ Encoder.header_table self = Encoder.header_table self' ++ evicted
    /\ header_table_size (Encoder.header_table self') <= value
    /\ (forall s, In s (Encoder.reference_set self') <->
                  In s (Encoder.reference_set self)
                  /\ ~ In (obj (Encoder.slot_key s)) evicted)
    /\ (forall e evicted', evicted = e :: evicted' ->
          value < header_table_size (Encoder.header_table self')
                  + entry_size e)
    /\ (Encoder._header_table_size self <= value -> evicted = [])
    /\ (value = 0 -> Encoder.header_table self' = []).
Proof.
  intros Hvalue Hbound. unfold Encoder.set_header_table_size.
  destruct (Z.ltb_spec value (Encoder._header_table_size self)) as [Hlt | Hge].
  - rewrite <- (header_table_size_rev (Encoder.header_table self)).
    destruct (encoder_evict_ok _ (rev (Encoder.header_table self)) Hvalue
                (Encoder.reference_set self)) as [[table' refs'] Hev].
    rewrite Hev. cbn [bind].
    destruct (encoder_evict_spec _ _ _ _ _ Hev)
      as (popped & kept & Hsplit & -> & Hsize & Hrefs & Hmin).
    eexists _, (rev popped). split; [reflexivity |]. cbn.
    split; [reflexivity |].
    split.
    { rewrite <- rev_app_distr, <- Hsplit, rev_involutive. reflexivity. }
    split; [rewrite header_table_size_rev; exact Hsize |].
    split; [intros s; rewrite <- in_rev; apply Hrefs |].
    split.
    { intros e evicted' He. rewrite header_table_size_rev.
      specialize (Hmin e (rev evicted')).
      rewrite <- (rev_involutive popped), He in Hmin. simpl in Hmin.
      specialize (Hmin eq_refl). lia. }
    split; [lia |].
    intros ->. apply header_table_size_0.
    rewrite header_table_size_rev. exact Hsize.
  - eexists _, []. split; [reflexivity |].
    cbn [Encoder.header_table Encoder._header_table_size
         Encoder.reference_set].
    split; [reflexivity |].
    split; [symmetry; apply app_nil_r |].
    split; [lia |].
    split; [intros s; simpl; tauto |].
    split; [intros e evicted' He; discriminate He |].
    split; [reflexivity |].
    intros ->. apply header_table_size_0. lia.
Qed.

Lemma encoder_set_header_table_size_spec_witness :
  exists self' evicted,
    Encoder.set_header_table_size two_custom_headers 40 = Ok self'
    /\ Encoder._header_table_size self' = 40
    /\ Encoder.header_table two_custom_headers
       = Encoder.header_table self' ++ evicted
    /\ evicted = [(bstr "foo", bstr "bar")]
    /\ forall s, In s (Encoder.reference_set self') ->
                 obj (Encoder.slot_key s) <> (bstr "foo", bstr "bar").
Proof.
  destruct (encoder_set_header_table_size_spec two_custom_headers 40)
    as (self' & evicted & Hok & Hmax & Hsplit & _ & Hrefs & _).
  - lia.
  - vm_compute. discriminate.
  - assert (evicted = [(bstr "foo", bstr "bar")]) as Hev.
    { vm_compute in Hok. injection Hok as <-. vm_compute in Hsplit.
      injection Hsplit as <-. reflexivity. }
    exists self', evicted. split; [exact Hok |]. split; [exact Hmax |].
    split; [exact Hsplit |]. split; [exact Hev |].
    intros s Hin Hobj. apply Hrefs in Hin. destruct Hin as [_ Hnot].
    apply Hnot. rewrite Hev, Hobj. left. reflexivity.
Defined.

Lemma decoder_evict_negative (max_size : Z) (rev_table : list header) :
  max_size < 0 ->
  forall refs,
    Decoder.evict rev_table refs (header_table_size rev_table) max_size
    = Raise IndexError.
Proof.
  intros Hmax. induction rev_table as [| hd rt IH]; intros refs.
  - simpl. destruct (Z.gtb_spec 0 max_size); [reflexivity | lia].
  - rewrite header_table_size_cons. cbn [Decoder.evict].
    pose proof (header_table_size_nonneg rt). pose proof (entry_size_min hd).
    destruct (Z.gtb_spec (entry_size hd + header_table_size rt) max_size);
      [| lia].
    replace (entry_size hd + header_table_size rt - entry_size hd)
      with (header_table_size rt) by lia. apply IH.
Qed.

Lemma encoder_evict_negative (max_size : Z) (rev_table : list header) :
  max_size < 0 ->
  forall refs,
    Encoder.evict rev_table refs (header_table_size rev_table) max_size
    = Raise IndexError.
Proof.
  intros Hmax. induction rev_table as [| hd rt IH]; intros refs.
  - simpl. destruct (Z.gtb_spec 0 max_size); [reflexivity | lia].
  - rewrite header_table_size_cons. cbn [Encoder.evict].
    pose proof (header_table_size_nonneg rt). pose proof (entry_size_min hd).
    destruct (Z.gtb_spec (entry_size hd + header_table_size rt) max_size);
      [| lia].
    replace (entry_size hd + header_table_size rt - entry_size hd)
      with (header_table_size rt) by lia. apply IH.
Qed.

(** X10. A negative table size is not refused as such: when it is below
    the current maximum, the eviction loop of the setter empties the table
    and then pops from the empty deque, so the setter raises [IndexError],
    on the encoder and on the decoder alike. Once the maximum is negative,
    every insertion into the table raises in the same way. *)
Theorem negative_table_size_raises (value : Z) :
  value < 0 ->
  (forall self, value < Encoder._header_table_size self ->
                Encoder.set_header_table_size self value = Raise IndexError)
  /\ (forall self, value < Decoder._header_table_size self ->
                   Decoder.set_header_table_size self value
                   = Raise IndexError)
  /\ (forall self h, Encoder._header_table_size self = value ->
                     Encoder._add_to_header_table self h = Raise IndexError)
  /\ (forall self h, Decoder._header_table_size self = value ->
                     Decoder._add_to_header_table self h = Raise IndexError).
Proof.
  intros Hvalue. repeat split.
  - intros self Hlt. unfold Encoder.set_header_table_size.
    destruct (Z.ltb_spec value (Encoder._header_table_size self)); [| lia].
    rewrite <- (header_table_size_rev (Encoder.header_table self)).
    rewrite encoder_evict_negative by exact Hvalue. reflexivity.
  - intros self Hlt. unfold Decoder.set_header_table_size.
    destruct (Z.ltb_spec value (Decoder._header_table_size self)); [| lia].
    rewrite <- (header_table_size_rev (Decoder.header_table self)).
    rewrite decoder_evict_negative by exact Hvalue. reflexivity.
  - intros self h Hmax. unfold Encoder._add_to_header_table.
    rewrite <- (header_table_size_rev (h :: Encoder.header_table self)).
    rewrite encoder_evict_negative by lia. reflexivity.
  - intros self h Hmax. unfold Decoder._add_to_header_table.
    rewrite <- (header_table_size_rev (h :: Decoder.header_table self)).
    rewrite decoder_evict_negative by lia. reflexivity.
Qed.

Lemma negative_table_size_raises_witness :
  Encoder.set_header_table_size (Encoder.__init__ (fun d => d)) (-1)
  = Raise IndexError.
Proof.
  destruct (negative_table_size_raises (-1)) as (Henc & _).
  - lia.
  - apply Henc. simpl. lia.
Defined.

(** ** Searching the tables *)

Lemma bytes_eqb_eq (a c : bytes) : bytes_eqb a c = true <-> a = c.
Proof.
  unfold bytes_eqb. destruct (list_eq_dec Z.eq_dec a c);
    split; intros H; try discriminate; congruence.
Qed.

(** What one enumeration loop of [matching_header] yields. An early return
    carries the first position of the exact pair. Otherwise the pair is
    not in the table, a partial match found earlier is kept, and a new one
    is the first position where the name occurs. *)
Lemma scan_spec (name value : bytes) (table : list header) :
  forall base pm,
    match Encoder.scan table base name value pm with
    | inl (i, m) =>
        m = Some (name, value)
        /\ exists k, i = base + Z.of_nat k + 1
             /\ nth_error table k = Some (name, value)
             /\ forall j, (j < k)%nat ->
                          nth_error table j <> Some (name, value)
    | inr pm' =>
        ~ In (name, value) table
        /\ match pm with
           | Some _ => pm' = pm
           | None =>
               match pm' with
               | None => forall v, ~ In (name, v) table
               | Some (i, m) =>
                   m = None
                   /\ exists k v, i = base + Z.of_nat k + 1
                        /\ nth_error table k = Some (name, v)
                        /\ forall j v', (j < k)%nat ->
                                        nth_error table j <> Some (name, v')
               end
           end
    end.
Proof.
  induction table as [| [n v] table IH]; intros base pm.
  - simpl. split; [tauto |]. destruct pm; [reflexivity | tauto].
  - cbn [Encoder.scan].
    destruct (bytes_eqb n name) eqn:En.
    + apply bytes_eqb_eq in En. subst n.
      destruct (bytes_eqb v value) eqn:Ev.
      * apply bytes_eqb_eq in Ev. subst v.
        split; [reflexivity |]. exists 0%nat.
        split; [lia |]. split; [reflexivity |]. intros j Hj. lia.
      * assert (v <> value) as Hv.
        { intros ->. assert (bytes_eqb value value = true) as Hr
            by (apply bytes_eqb_eq; reflexivity). congruence. }
        specialize (IH (base + 1)
                      (match pm with
                       | None => Some (base + 1, None)
                       | Some _ => pm
                       end)).
        destruct (Encoder.scan table (base + 1) name value _)
          as [[i m] | pm'].
        -- destruct IH as (Hm & k & Hi & Hk & Hfirst).
           split; [exact Hm |]. exists (S k).
           split; [lia |]. split; [exact Hk |].
           intros [| j] Hj; simpl; [congruence | apply Hfirst; lia].
        -- destruct IH as (Hnot & Hpm).
           split; [intros [Heq | Hin]; [congruence | contradiction] |].
           destruct pm as [p |]; [exact Hpm |].
           subst pm'. split; [reflexivity |].
           exists 0%nat, v. split; [lia |]. split; [reflexivity |].
           intros j v' Hj. lia.
    + assert (n <> name) as Hn.
      { intros ->. assert (bytes_eqb name name = true) as Hr
          by (apply bytes_eqb_eq; reflexivity). congruence. }
      specialize (IH (base + 1) pm).
      destruct (Encoder.scan table (base + 1) name value pm) as [[i m] | pm'].
      * destruct IH as (Hm & k & Hi & Hk & Hfirst).
        split; [exact Hm |]. exists (S k).
        split; [lia |]. split; [exact Hk |].
        intros [| j] Hj; simpl; [congruence | apply Hfirst; lia].
      * destruct IH as (Hnot & Hpm).
        split; [intros [Heq | Hin]; [congruence | contradiction] |].
        destruct pm as [p |]; [exact Hpm |].
        destruct pm' as [[i m] |].
        -- destruct Hpm as (Hm & k & v' & Hi & Hk & Hfirst).
           split; [exact Hm |]. exists (S k), v'.
           split; [lia |]. split; [exact Hk |].
           intros [| j] v'' Hj; simpl; [congruence | apply Hfirst; lia].
        -- intros v' [Heq | Hin]; [congruence | eapply Hpm; exact Hin].
Qed.

Lemma nth_error_not_in {A : Type} (l : list A) (a : A) (j : nat) :
  ~ In a l -> nth_error l j <> Some a.
Proof. intros Hnot Hj. apply Hnot. eapply nth_error_In. exact Hj. Qed.

(** The three outcomes of [matching_header], the index space being the
    dynamic table followed by the static table, counted from 1. *)
Lemma matching_header_cases (self : Encoder.t) (name value : bytes) :
  let combined := Encoder.header_table self ++ Encoder.static_table in
  match Encoder.matching_header self name value with
  | Some (i, Some h) =>
      h = (name, value)
      /\ exists k, i = Z.of_nat k + 1
           /\ nth_error combined k = Some (name, value)
           /\ forall j, (j < k)%nat ->
                        nth_error combined j <> Some (name, value)
  | Some (i, None) =>
      ~ In (name, value) combined
      /\ exists k v, i = Z.of_nat k + 1
           /\ nth_error combined k = Some (name, v)
           /\ forall j v', (j < k)%nat ->
                           nth_error combined j <> Some (name, v')
  | None => forall v, ~ In (name, v) combined
  end.
Proof.
  intros combined. subst combined. unfold Encoder.matching_header.
  set (table := Encoder.header_table self).
  pose proof (scan_spec name value table 0 None) as Hdyn.
  destruct (Encoder.scan table 0 name value None) as [[i m] | pm1].
  { destruct Hdyn as (-> & k & Hi & Hk & Hfirst).
    split; [reflexivity |]. exists k. split; [lia |].
    assert (k < List.length table)%nat as Hlt
      by (apply nth_error_Some; congruence).
    split; [rewrite nth_error_app1 by exact Hlt; exact Hk |].
    intros j Hj. rewrite nth_error_app1 by lia. apply Hfirst. exact Hj. }
  destruct Hdyn as (Hnot_dyn & Hpm1).
  pose proof (scan_spec name value Encoder.static_table (len table) pm1)
    as Hsta.
  destruct (Encoder.scan Encoder.static_table (len table) name value pm1)
    as [[i m] | pm2].
  { destruct Hsta as (-> & k & Hi & Hk & Hfirst).
    split; [reflexivity |]. exists (List.length table + k)%nat.
    split; [unfold len in Hi; lia |].
    split.
    - rewrite nth_error_app2 by lia.
      replace (List.length table + k - List.length table)%nat with k by lia.
      exact Hk.
    - intros j Hj. destruct (Nat.lt_ge_cases j (List.length table)).
      + rewrite nth_error_app1 by assumption.
        apply nth_error_not_in. exact Hnot_dyn.
      + rewrite nth_error_app2 by assumption. apply Hfirst. lia. }
  destruct Hsta as (Hnot_sta & Hpm2).
  assert (~ In (name, value) (table ++ Encoder.static_table)) as Hnot
    by (rewrite in_app_iff; tauto).
  destruct pm1 as [[i1 m1] |].
  - subst pm2. destruct Hpm1 as (-> & k & v & Hi & Hk & Hfirst).
    split; [exact Hnot |]. exists k, v. split; [lia |].
    assert (k < List.length table)%nat as Hlt
      by (apply nth_error_Some; congruence).
    split; [rewrite nth_error_app1 by exact Hlt; exact Hk |].
    intros j v' Hj. rewrite nth_error_app1 by lia. apply Hfirst. exact Hj.
  - destruct pm2 as [[i2 m2] |].
    + destruct Hpm2 as (-> & k & v & Hi & Hk & Hfirst).
      split; [exact Hnot |]. exists (List.length table + k)%nat, v.
      split; [unfold len in Hi; lia |].
      split.
      * rewrite nth_error_app2 by lia.
        replace (List.length table + k - List.length table)%nat with k by lia.
        exact Hk.
      * intros j v' Hj. destruct (Nat.lt_ge_cases j (List.length table)).
        -- rewrite nth_error_app1 by assumption.
           apply nth_error_not_in. apply Hpm1.
        -- rewrite nth_error_app2 by assumption. apply Hfirst. lia.
    + intros v. rewrite in_app_iff. intros [Hin | Hin].
      * eapply Hpm1. exact Hin.
      * eapply Hpm2. exact Hin.
Qed.

(** X11. What [Encoder.matching_header] returns, the index space being the
    dynamic table followed by the static table, counted from 1:
    - [None] exactly when the name occurs nowhere;
    - an exact match [(i, pair)] exactly when the pair (name, value) is
      somewhere, [i] being the position of its first occurrence, even when
      the name occurs earlier with another value;
    - otherwise [(i, None)], [i] being the first position where the name
      occurs. *)
Theorem matching_header_spec (self : Encoder.t) (name value : bytes) :
  let combined := Encoder.header_table self ++ Encoder.static_table in
  (Encoder.matching_header self name value = None <->
   forall v, ~ In (name, v) combined)
  /\ ((exists i, Encoder.matching_header self name value
                 = Some (i, Some (name, value))) <->
      In (name, value) combined)
  /\ (forall i m,
        Encoder.matching_header self name value = Some (i, m) ->
        exists k,
          i = Z.of_nat k + 1
          /\ match m with
             | Some h =>
                 h = (name, value)
                 /\ nth_error combined k = Some (name, value)
                 /\ forall j, (j < k)%nat ->
                              nth_error combined j <> Some (name, value)
             | None =>
                 ~ In (name, value) combined
                 /\ (exists v, nth_error combined k = Some (name, v))
                 /\ forall j v', (j < k)%nat ->
                                 nth_error combined j <> Some (name, v')
             end).
Proof.
  intros combined. subst combined.
  pose proof (matching_header_cases self name value) as Hcases.
  cbv zeta in Hcases.
  destruct (Encoder.matching_header self name value) as [[i [h |]] |].
  - destruct Hcases as (-> & k & -> & Hk & Hfirst).
    assert (In (name, value)
              (Encoder.header_table self ++ Encoder.static_table)) as Hin
      by (eapply nth_error_In; exact Hk).
    split; [split; [discriminate | intros Hnone; exfalso; eapply Hnone;
                                   exact Hin] |].
    split; [split; [intros _; exact Hin | intros _; eexists; reflexivity] |].
    intros i' m Heq. injection Heq as <- <-. exists k.
    split; [reflexivity |]. split; [reflexivity |]. split; assumption.
  - destruct Hcases as (Hnot & k & v & -> & Hk & Hfirst).
    split.
    { split; [discriminate |]. intros Hnone. exfalso.
      eapply Hnone. eapply nth_error_In. exact Hk. }
    split.
    { split; [intros [i' Habs]; discriminate Habs | contradiction]. }
    intros i' m Heq. injection Heq as <- <-. exists k.
    split; [reflexivity |]. split; [exact Hnot |].
    split; [exists v; exact Hk | exact Hfirst].
  - split; [split; [intros _; exact Hcases | reflexivity] |].
    split.
    { split; [intros [i' Habs]; discriminate Habs |].
      intros Hin. exfalso. eapply Hcases. exact Hin. }
    intros i' m Habs. discriminate Habs.
Qed.

(** ** [Encoder.remove] *)

Lemma encode_indexed_ok (index : Z) :
  0 <= index ->
  exists c tl,
    encode_integer index 7 = Ok (c :: tl) /\ 0 <= c < 128
    /\ Encoder._encode_indexed index = Ok (Z.lor c 0x80 :: tl).
Proof.
  intros Hi.
  destruct (encode_integer_first index 7 ltac:(lia) Hi)
    as (c & tl & Henc & Hc & _).
  exists c, tl. split; [exact Henc |]. split; [simpl in Hc; lia |].
  unfold Encoder._encode_indexed. rewrite Henc. reflexivity.
Qed.

Lemma nth_error_lt {A : Type} (l : list A) (j : nat) (a : A) :
  nth_error l j = Some a -> (j < List.length l)%nat.
Proof. intros H. apply nth_error_Some. rewrite H. discriminate. Qed.

(** Where [matching_header] finds a pair that is in the dynamic table. *)
Lemma matching_header_dynamic (self : Encoder.t) (n v : bytes) :
  In (n, v) (Encoder.header_table self) ->
  exists k,
    Encoder.matching_header self n v = Some (Z.of_nat k + 1, Some (n, v))
    /\ nth_error (Encoder.header_table self) k = Some (n, v)
    /\ (forall j, (j < k)%nat ->
                  nth_error (Encoder.header_table self) j <> Some (n, v)).
Proof.
  intros Hin. pose proof (matching_header_cases self n v) as Hspec.
  cbv zeta in Hspec.
  assert (In (n, v) (Encoder.header_table self ++ Encoder.static_table))
    as Hin' by (apply in_app_iff; now left).
  destruct (Encoder.matching_header self n v) as [[i [h |]] |].
  - destruct Hspec as (-> & k & -> & Hk & Hfirst).
    destruct (In_nth_error _ _ Hin) as [j Hj].
    assert (j < List.length (Encoder.header_table self))%nat as Hjlt
      by (eapply nth_error_lt; exact Hj).
    assert (k <= j)%nat as Hkj.
    { destruct (Nat.le_gt_cases k j) as [Hle | Hgt]; [exact Hle |].
      exfalso. apply (Hfirst j Hgt). rewrite nth_error_app1 by exact Hjlt.
      exact Hj. }
    exists k. split; [reflexivity |].
    rewrite nth_error_app1 in Hk by lia. split; [exact Hk |].
    intros j' Hj'. specialize (Hfirst j' Hj').
    rewrite nth_error_app1 in Hfirst by lia. exact Hfirst.
  - destruct Hspec as [Hnot _]. contradiction.
  - exfalso. eapply Hspec. exact Hin'.
Qed.

(** X12. [Encoder.remove] serves pairs of the dynamic table only.
    - For a pair that is not in the dynamic table it raises
      [HPACKEncodingError], whether the pair is unknown, matches by name
      only, or is in the static table.
    - For a pair of the dynamic table it emits the indexed representation
      of the first position of the pair (counted from 1), deletes the pair
      from the reference set and leaves the table alone; when the pair is
      not in the reference set, the deletion raises [KeyError] instead. *)
Theorem encoder_remove_spec (self : Encoder.t) (header : header) :
  (~ In header (Encoder.header_table self) ->
   Encoder.remove self header = Raise HPACKEncodingError)
  /\ (In header (Encoder.header_table self) ->
      exists k encoded,
        nth_error (Encoder.header_table self) k = Some header
        /\ (forall j, (j < k)%nat ->
                      nth_error (Encoder.header_table self) j <> Some header)
        /\ Encoder._encode_indexed (Z.of_nat k + 1) = Ok encoded
        /\ (Encoder.refs_lookup header (Encoder.reference_set self) = None ->
            Encoder.remove self header = Raise KeyError)
        /\ (Encoder.refs_lookup header (Encoder.reference_set self) <> None ->
            Encoder.remove self header
            = Ok (Encoder.with_refs self
                    (Encoder.refs_remove header (Encoder.reference_set self)),
                  encoded))).
Proof.
  destruct header as [n v]. split.
  - intros Hnot. unfold Encoder.remove. cbn [fst snd].
    pose proof (matching_header_cases self n v) as Hspec. cbv zeta in Hspec.
    destruct (Encoder.matching_header self n v) as [[i [h |]] |];
      [| reflexivity | reflexivity].
    destruct Hspec as (-> & k & -> & Hk & _).
    assert (List.length (Encoder.header_table self) <= k)%nat as Hge.
    { destruct (Nat.le_gt_cases (List.length (Encoder.header_table self)) k)
        as [Hle | Hgt]; [exact Hle |].
      exfalso. apply Hnot. rewrite nth_error_app1 in Hk by exact Hgt.
      eapply nth_error_In. exact Hk. }
    cbn [orb].
    destruct (Z.gtb_spec (Z.of_nat k + 1) (len (Encoder.header_table self)));
      [reflexivity | unfold len in *; lia].
  - intros Hin.
    destruct (matching_header_dynamic self n v Hin) as (k & Hm & Hk & Hfirst).
    destruct (encode_indexed_ok (Z.of_nat k + 1) ltac:(lia))
      as (c & tl & _ & _ & Henc).
    exists k, (Z.lor c 0x80 :: tl).
    split; [exact Hk |]. split; [exact Hfirst |]. split; [exact Henc |].
    assert (k < List.length (Encoder.header_table self))%nat as Hlt
      by (eapply nth_error_lt; exact Hk).
    unfold Encoder.remove. cbn [fst snd]. rewrite Hm. cbn [orb].
    destruct (Z.gtb_spec (Z.of_nat k + 1) (len (Encoder.header_table self)));
      [unfold len in *; lia |].
    rewrite Henc. cbn [bind]. unfold Encoder.refs_del.
    split.
    + intros ->. reflexivity.
    + intros Hsome.
      destruct (Encoder.refs_lookup (n, v) (Encoder.reference_set self));
        [reflexivity | contradiction].
Qed.

Lemma encoder_remove_spec_witness :
  Encoder.remove (Encoder.__init__ (fun d => d)) (bstr ":method", bstr "GET")
  = Raise HPACKEncodingError.
Proof.
  destruct (encoder_remove_spec (Encoder.__init__ (fun d => d))
              (bstr ":method", bstr "GET")) as [Hraise _].
  apply Hraise. simpl. tauto.
Defined.

(** ** Round trips of the representations *)

Lemma len_app {A : Type} (a c : list A) : len (a ++ c) = len a + len c.
Proof. unfold len. rewrite length_app. lia. Qed.

Lemma len_nonneg {A : Type} (a : list A) : 0 <= len a.
Proof. unfold len. lia. Qed.

Lemma slice_from_app {A : Type} (a c : list A) :
  slice_from (a ++ c) (len a) = c.
Proof.
  unfold slice_from, clamp. pose proof (len_nonneg a).
  destruct (Z.ltb_spec (len a) 0); [lia |].
  rewrite len_app. pose proof (len_nonneg c).
  rewrite Z.min_l by lia. unfold len. rewrite Nat2Z.id.
  rewrite skipn_app, Nat.sub_diag, skipn_all. reflexivity.
Qed.

Lemma slice_app {A : Type} (a m c : list A) :
  slice (a ++ m ++ c) (len a) (len a + len m) = m.
Proof.
  unfold slice, clamp. pose proof (len_nonneg a). pose proof (len_nonneg m).
  pose proof (len_nonneg c).
  destruct (Z.ltb_spec (len a) 0); [lia |].
  destruct (Z.ltb_spec (len a + len m) 0); [lia |].
  rewrite !len_app. rewrite !Z.min_l by lia.
  unfold len. rewrite <- Nat2Z.inj_add, !Nat2Z.id.
  rewrite skipn_app, Nat.sub_diag, skipn_all. simpl app.
  replace (List.length a + List.length m - List.length a)%nat
    with (List.length m) by lia.
  rewrite firstn_app, Nat.sub_diag, firstn_all. simpl. apply app_nil_r.
Qed.

(** A length field: the 7-bit integer, its top bit set when the string is
    Huffman coded. *)
Lemma length_field (n : Z) (huffman : bool) :
  0 <= n ->
  exists c tl f0,
    encode_integer n 7 = Ok (c :: tl)
    /\ (if huffman then Encoder.or_first 0x80 (c :: tl) else Ok (c :: tl))
       = Ok (f0 :: tl)
    /\ (forall rest,
           decode_integer (f0 :: tl ++ rest) 7 = Ok (n, len (f0 :: tl)))
    /\ negb (Z.land (to_byte f0) 0x80 =? 0) = huffman.
Proof.
  intros Hn.
  destruct (encode_integer_first n 7 ltac:(lia) Hn)
    as (c & tl & Henc & Hc & _).
  assert (0 <= c < 128) as Hc' by (simpl in Hc; lia).
  exists c, tl, (if huffman then Z.lor c 0x80 else c).
  split; [exact Henc |]. split; [destruct huffman; reflexivity |].
  split.
  - intros rest.
    replace (len ((if huffman then Z.lor c 128 else c) :: tl))
      with (len (c :: tl)) by reflexivity.
    apply (decode_integer_encoded n 7 c _ tl rest); try lia; [exact Henc |].
    destruct huffman; [apply flagged_prefix; exact Hc' |].
    apply land_max_number; simpl; lia.
  - unfold to_byte. destruct huffman.
    + rewrite flagged_top_bit by exact Hc'. reflexivity.
    + rewrite land_0x80 by exact Hc'. reflexivity.
Qed.

(** [_decode_literal] on a representation with a literal name, given what
    the two length fields decode to. *)
Lemma decode_literal_literal_name (d : Decoder.t) (flag : Z)
  (should_index : bool) (nl name_w vl value_w rest name value : bytes)
  (n0 v0 : Z) (nl' vl' : bytes) :
  (flag = 0x00 /\ should_index = false)
  \/ (flag = 0x40 /\ should_index = true) ->
  nl = n0 :: nl' -> vl = v0 :: vl' ->
  decode_integer (nl ++ name_w ++ vl ++ value_w ++ rest) 7
  = Ok (len name_w, len nl) ->
  (if negb (Z.land (to_byte n0) 0x80 =? 0)
   then Decoder.huffman_coder d name_w else Ok name_w) = Ok name ->
  decode_integer (vl ++ value_w ++ rest) 7 = Ok (len value_w, len vl) ->
  (if negb (Z.land (to_byte v0) 0x80 =? 0)
   then Decoder.huffman_coder d value_w else Ok value_w) = Ok value ->
  Decoder._decode_literal d
    (flag :: nl ++ name_w ++ vl ++ value_w ++ rest) should_index
  = (self' <-
       (if should_index then
          s <- Decoder._add_to_header_table d (name, value) ;;
          Ok (Decoder.with_refs s
                (Decoder.set_add (name, value) (Decoder.reference_set s)))
        else Ok d) ;;
     Ok (self', Some (name, value),
         len (flag :: nl ++ name_w ++ vl ++ value_w))).
Proof.
  intros Hflag Hnl Hvl Hdn Hname Hdv Hvalue.
  unfold Decoder._decode_literal. rewrite getitem_0. cbn [bind].
  assert ((if should_index then (Z.land (to_byte flag) 63, 6)
           else (to_byte flag, 4)) = (0, if should_index then 6 else 4))
    as -> by (destruct Hflag as [[-> ->] | [-> ->]]; reflexivity).
  cbn [Z.eqb negb]. cbv iota beta. rewrite slice_from_1.
  rewrite Hdn. cbn [bind].
  rewrite Hnl at 1. simpl app at 1. rewrite getitem_0. cbn [bind].
  rewrite slice_app.
  destruct (negb (Z.land (to_byte n0) 128 =? 0));
    [rewrite Hname | injection Hname as <-]; cbn [bind].
  all: rewrite (app_assoc nl name_w), <- (len_app nl name_w), slice_from_app.
  all: rewrite Hdv; cbn [bind].
  all: rewrite Hvl at 1; simpl app at 1; rewrite getitem_0; cbn [bind].
  all: rewrite slice_app.
  all: destruct (negb (Z.land (to_byte v0) 128 =? 0));
    [rewrite Hvalue | injection Hvalue as <-]; cbn [bind].
  all: replace (len (nl ++ name_w) + 1 + (len value_w + len vl))
    with (len (flag :: nl ++ name_w ++ vl ++ value_w)); [reflexivity |].
  all: change (flag :: nl ++ name_w ++ vl ++ value_w)
    with ([flag] ++ nl ++ name_w ++ vl ++ value_w).
  all: rewrite !len_app; change (len [flag]) with 1; lia.
Qed.

(** What [_encode_literal] writes: the flag octet, then for the name and
    for the value a length field followed by the string, Huffman coded or
    not. *)
Lemma encode_literal_wire (e : Encoder.t) (name value : bytes)
  (indexing huffman : bool) :
  let name_w := if huffman then Encoder.huffman_coder e name else name in
  let value_w := if huffman then Encoder.huffman_coder e value else value in
  exists n0 nl v0 vl,
    Encoder._encode_literal e name value indexing huffman
    = Ok ((if indexing then 0x40 else 0x00)
          :: (n0 :: nl) ++ name_w ++ (v0 :: vl) ++ value_w)
    /\ (forall rest, decode_integer (n0 :: nl ++ rest) 7
                     = Ok (len name_w, len (n0 :: nl)))
    /\ negb (Z.land (to_byte n0) 0x80 =? 0) = huffman
    /\ (forall rest, decode_integer (v0 :: vl ++ rest) 7
                     = Ok (len value_w, len (v0 :: vl)))
    /\ negb (Z.land (to_byte v0) 0x80 =? 0) = huffman.
Proof.
  intros name_w value_w.
  destruct (length_field (len name_w) huffman (len_nonneg _))
    as (cn & tln & fn & Hencn & Hflagn & Hdecn & Hbitn).
  destruct (length_field (len value_w) huffman (len_nonneg _))
    as (cv & tlv & fv & Hencv & Hflagv & Hdecv & Hbitv).
  exists fn, tln, fv, tlv.
  split; [| repeat split; assumption].
  unfold Encoder._encode_literal. fold name_w value_w.
  rewrite Hencn, Hencv. cbn [bind].
  destruct huffman; cbn [bind] in *;
    injection Hflagn as <-; injection Hflagv as <-;
    destruct indexing; reflexivity.
Qed.

(** One round of [decode] on a literal with a literal name, given what its
    two length fields decode to. *)
Lemma decode_step_literal_name (d : Decoder.t) (indexing : bool)
  (n0 v0 : Z) (nl name_w vl value_w rest name value : bytes) :
  decode_integer (n0 :: nl ++ name_w ++ (v0 :: vl) ++ value_w ++ rest) 7
  = Ok (len name_w, len (n0 :: nl)) ->
  (if negb (Z.land (to_byte n0) 0x80 =? 0)
   then Decoder.huffman_coder d name_w else Ok name_w) = Ok name ->
  decode_integer (v0 :: vl ++ value_w ++ rest) 7
  = Ok (len value_w, len (v0 :: vl)) ->
  (if negb (Z.land (to_byte v0) 0x80 =? 0)
   then Decoder.huffman_coder d value_w else Ok value_w) = Ok value ->
  Decoder.decode_step d
    (((if indexing then 0x40 else 0x00)
      :: (n0 :: nl) ++ name_w ++ (v0 :: vl) ++ value_w) ++ rest) 0
  = (self' <-
       (if indexing then
          s <- Decoder._add_to_header_table d (name, value) ;;
          Ok (Decoder.with_refs s
                (Decoder.set_add (name, value) (Decoder.reference_set s)))
        else Ok d) ;;
     Ok (self', Some (name, value),
         len ((if indexing then 0x40 else 0x00)
              :: (n0 :: nl) ++ name_w ++ (v0 :: vl) ++ value_w))).
Proof.
  intros Hdn Hname Hdv Hvalue.
  set (flag := if indexing then 0x40 else 0x00).
  assert (flag = 0 \/ flag = 64) as Hflag
    by (subst flag; destruct indexing; [right | left]; reflexivity).
  change ((flag :: (n0 :: nl) ++ name_w ++ (v0 :: vl) ++ value_w) ++ rest)
    with (flag :: ((n0 :: nl) ++ name_w ++ (v0 :: vl) ++ value_w) ++ rest).
  rewrite <- !app_assoc.
  rewrite decode_step_literal by exact Hflag.
  replace (negb (Z.land flag 64 =? 0)) with indexing
    by (subst flag; destruct indexing; reflexivity).
  apply (decode_literal_literal_name d flag indexing (n0 :: nl) name_w
           (v0 :: vl) value_w rest name value n0 v0 nl vl);
    try assumption; try reflexivity.
  subst flag. destruct indexing; [right | left]; split; reflexivity.
Qed.

(** X13. A literal with a literal name survives the wire: what
    [Encoder._encode_literal] writes for (name, value), with or without
    indexing, with or without Huffman coding (given a Huffman decoder that
    inverts the encoder), is dispatched by one round of [Decoder.decode]
    to the matching literal decoder, which returns the pair (name, value),
    reports the whole representation as consumed, whatever follows it, and
    inserts the pair in the table and the reference set exactly when the
    representation is with indexing. *)
Theorem literal_roundtrip (e : Encoder.t) (d : Decoder.t)
  (name value rest : bytes) (indexing huffman : bool) :
  (huffman = true ->
   forall x, Decoder.huffman_coder d (Encoder.huffman_coder e x) = Ok x) ->
  exists encoded,
    Encoder._encode_literal e name value indexing huffman = Ok encoded
    /\ Decoder.decode_step d (encoded ++ rest) 0
       = (self' <-
            (if indexing then
               s <- Decoder._add_to_header_table d (name, value) ;;
               Ok (Decoder.with_refs s
                     (Decoder.set_add (name, value)
                        (Decoder.reference_set s)))
             else Ok d) ;;
          Ok (self', Some (name, value), len encoded)).
Proof.
  intros Hhuff.
  destruct (encode_literal_wire e name value indexing huffman)
    as (n0 & nl & v0 & vl & Henc & Hdn & Hbn & Hdv & Hbv).
  eexists. split; [exact Henc |].
  apply decode_step_literal_name.
  - apply Hdn.
  - rewrite Hbn. destruct huffman; [apply Hhuff; reflexivity | reflexivity].
  - apply Hdv.
  - rewrite Hbv. destruct huffman; [apply Hhuff; reflexivity | reflexivity].
Qed.

Lemma literal_roundtrip_witness :
  exists encoded,
    Encoder._encode_literal (Encoder.__init__ (fun x => 1 :: x))
      (bstr "a") (bstr "b") false true = Ok encoded
    /\ Decoder.decode_step (Decoder.__init__ (fun x => Ok (tl x)))
         (encoded ++ [0x82]) 0
       = Ok (Decoder.__init__ (fun x => Ok (tl x)),
             Some (bstr "a", bstr "b"), len encoded).
Proof.
  apply (literal_roundtrip (Encoder.__init__ (fun x => 1 :: x))
           (Decoder.__init__ (fun x => Ok (tl x)))
           (bstr "a") (bstr "b") [0x82] false true).
  intros _ x. reflexivity.
Defined.

Lemma land_low_nibble (c : Z) :
  0 <= c < 16 ->
  Z.land c 0x80 = 0 /\ Z.land c 0x40 = 0 /\ Z.land c 0x20 = 0.
Proof.
  intros Hc. rewrite <- (land_max_number c 4) by (simpl; lia).
  rewrite <- !Z.land_assoc. simpl (2 ^ 4 - 1).
  change (Z.land 15 128) with 0. change (Z.land 15 64) with 0.
  change (Z.land 15 32) with 0. rewrite Z.land_0_r. auto.
Qed.

(** What [_encode_indexed_literal] writes: the index on a 4-bit prefix,
    whose first octet is in 1..15, then the length field and the value. *)
Lemma encode_indexed_literal_wire (e : Encoder.t) (index : Z)
  (value : bytes) (huffman : bool) :
  1 <= index ->
  let value_w := if huffman then Encoder.huffman_coder e value else value in
  exists c tli v0 vl,
    Encoder._encode_indexed_literal e index value huffman
    = Ok ((c :: tli) ++ (v0 :: vl) ++ value_w)
    /\ encode_integer index 4 = Ok (c :: tli)
    /\ 1 <= c < 16
    /\ (forall rest, decode_integer (v0 :: vl ++ rest) 7
                     = Ok (len value_w, len (v0 :: vl)))
    /\ negb (Z.land (to_byte v0) 0x80 =? 0) = huffman.
Proof.
  intros Hindex value_w.
  destruct (encode_integer_first index 4 ltac:(lia) ltac:(lia))
    as (c & tli & Henci & Hc & _).
  assert (1 <= c < 16) as Hc1.
  { simpl in Hc. split; [| lia].
    destruct (Z_lt_dec index (2 ^ 4 - 1)) as [Hlt | Hge].
    - rewrite encode_integer_short in Henci by lia.
      injection Henci as <- _. lia.
    - rewrite encode_integer_long in Henci by lia.
      injection Henci as <- _. simpl. lia. }
  destruct (length_field (len value_w) huffman (len_nonneg _))
    as (cv & tlv & fv & Hencv & Hflagv & Hdecv & Hbitv).
  exists c, tli, fv, tlv.
  split; [| repeat split; (assumption || lia)].
  unfold Encoder._encode_indexed_literal. fold value_w.
  rewrite Henci, Hencv. cbn [bind].
  destruct huffman; cbn [bind] in *; injection Hflagv as <-; reflexivity.
Qed.

(** One round of [decode] on a literal with an indexed name whose index
    addresses an entry of the index space of the decoder. *)
Lemma decode_step_indexed_name (d : Decoder.t) (index c v0 : Z)
  (tli vl value_w rest name n_value value : bytes) :
  1 <= index -> 1 <= c < 16 ->
  encode_integer index 4 = Ok (c :: tli) ->
  nth_error (Decoder.header_table d ++ Decoder.static_table)
    (Z.to_nat (index - 1)) = Some (name, n_value) ->
  decode_integer (v0 :: vl ++ value_w ++ rest) 7
  = Ok (len value_w, len (v0 :: vl)) ->
  (if negb (Z.land (to_byte v0) 0x80 =? 0)
   then Decoder.huffman_coder d value_w else Ok value_w) = Ok value ->
  Decoder.decode_step d (((c :: tli) ++ (v0 :: vl) ++ value_w) ++ rest) 0
  = Ok (d, Some (name, value), len ((c :: tli) ++ (v0 :: vl) ++ value_w)).
Proof.
  intros Hindex Hc1 Henci Hnth Hdecv Hval.
  rewrite <- !app_assoc.
  change ((c :: tli) ++ (v0 :: vl) ++ value_w ++ rest)
    with (c :: tli ++ (v0 :: vl) ++ value_w ++ rest).
  destruct (land_low_nibble c ltac:(lia)) as (H80 & H40 & H20).
  unfold Decoder.decode_step. rewrite getitem_0. cbn [bind].
  unfold to_byte at 1 2 3. rewrite H80, H40, H20. cbn [Z.eqb negb].
  cbv iota. rewrite slice_from_0.
  unfold Decoder._decode_literal_no_index, Decoder._decode_literal.
  rewrite getitem_0. cbn [bind]. cbv iota beta.
  unfold to_byte at 1.
  destruct (Z.eqb_spec c 0) as [Hz | _]; [lia |]. cbn [negb]. cbv iota.
  rewrite (decode_integer_encoded index 4 c c tli
             ((v0 :: vl) ++ value_w ++ rest));
    [| lia | lia | exact Henci | apply land_max_number; simpl; lia].
  cbn [bind].
  assert ((if index - 1 >=? len (Decoder.header_table d)
           then
             e0 <- getitem Decoder.static_table
                     (index - 1 - len (Decoder.header_table d)) ;;
             Ok (fst e0)
           else
             e0 <- getitem (Decoder.header_table d) (index - 1) ;;
             Ok (fst e0)) = Ok name) as ->.
  { unfold len.
    destruct (Z.geb_spec (index - 1)
                (Z.of_nat (List.length (Decoder.header_table d)))).
    - rewrite nth_error_app2 in Hnth by lia.
      rewrite (getitem_nth _ _ (name, n_value)); [reflexivity | lia |].
      rewrite <- Hnth. f_equal. lia.
    - rewrite nth_error_app1 in Hnth by lia.
      rewrite (getitem_nth _ _ (name, n_value)); [reflexivity | lia |].
      exact Hnth. }
  cbn [bind]. rewrite Z.add_0_r.
  change (c :: tli ++ (v0 :: vl) ++ value_w ++ rest)
    with ((c :: tli) ++ (v0 :: vl) ++ value_w ++ rest).
  rewrite slice_from_app.
  change ((v0 :: vl) ++ value_w ++ rest) with (v0 :: vl ++ value_w ++ rest).
  rewrite Hdecv. cbn [bind]. rewrite getitem_0. cbn [bind].
  change (v0 :: vl ++ value_w ++ rest) with ((v0 :: vl) ++ value_w ++ rest).
  rewrite slice_app.
  destruct (negb (Z.land (to_byte v0) 128 =? 0));
    [rewrite Hval | injection Hval as <-]; cbn [bind].
  all: rewrite !len_app; do 3 f_equal; lia.
Qed.

(** X14. A literal with an indexed name survives the wire: what
    [Encoder._encode_indexed_literal] writes for an index [index >= 1]
    that addresses an entry of the decoder's index space (its dynamic table
    followed by the static table) is dispatched by one round of
    [Decoder.decode] to the literal decoder without indexing, which returns
    the name of that entry with the value, reports the whole representation
    as consumed, and leaves the decoder as it was. *)
Theorem indexed_literal_roundtrip (e : Encoder.t) (d : Decoder.t)
  (index : Z) (name n_value value rest : bytes) (huffman : bool) :
  1 <= index ->
  nth_error (Decoder.header_table d ++ Decoder.static_table)
    (Z.to_nat (index - 1)) = Some (name, n_value) ->
  (huffman = true ->
   forall x, Decoder.huffman_coder d (Encoder.huffman_coder e x) = Ok x) ->
  exists encoded,
    Encoder._encode_indexed_literal e index value huffman = Ok encoded
    /\ Decoder.decode_step d (encoded ++ rest) 0
       = Ok (d, Some (name, value), len encoded).
Proof.
  intros Hindex Hnth Hhuff.
  destruct (encode_indexed_literal_wire e index value huffman Hindex)
    as (c & tli & v0 & vl & Henc & Henci & Hc & Hdv & Hbv).
  eexists. split; [exact Henc |].
  apply (decode_step_indexed_name d index c v0 tli vl _ rest name n_value);
    try assumption.
  - apply Hdv.
  - rewrite Hbv. destruct huffman; [apply Hhuff; reflexivity | reflexivity].
Qed.

Lemma indexed_literal_roundtrip_witness :
  exists encoded,
    Encoder._encode_indexed_literal (Encoder.__init__ (fun x => x)) 1
      (bstr "www.example.com") false = Ok encoded
    /\ Decoder.decode_step (Decoder.__init__ (fun x => Ok x))
         (encoded ++ []) 0
       = Ok (Decoder.__init__ (fun x => Ok x),
             Some (bstr ":authority", bstr "www.example.com"), len encoded).
Proof.
  apply (indexed_literal_roundtrip (Encoder.__init__ (fun x => x))
           (Decoder.__init__ (fun x => Ok x)) 1
           (bstr ":authority") (bstr "") (bstr "www.example.com") [] false).
  - lia.
  - reflexivity.
  - intros Habs. discriminate Habs.
Defined.

(** One round of [decode] on the indexed representation of the entry at
    position [k + 1] of the index space of the decoder, any position but
    the one just after the dynamic table. *)
Lemma decode_step_indexed_entry (d : Decoder.t) (k : nat) (c : Z)
  (tl rest : bytes) (h : header) :
  encode_integer (Z.of_nat k + 1) 7 = Ok (c :: tl) -> 0 <= c < 128 ->
  nth_error (Decoder.header_table d ++ Decoder.static_table) k = Some h ->
  Z.of_nat k + 1 <> len (Decoder.header_table d) + 1 ->
  Decoder.decode_step d ((Z.lor c 0x80 :: tl) ++ rest) 0
  = (d' <- (if Z.of_nat k + 1 >? len (Decoder.header_table d)
            then Decoder._add_to_header_table d h
            else Ok d) ;;
     Ok (toggle d' h (len (Z.lor c 0x80 :: tl)))).
Proof.
  intros Henc Hc Hk Hi.
  simpl app. rewrite decode_step_indexed
    by (rewrite flagged_top_bit by exact Hc; lia).
  unfold Decoder._decode_indexed.
  rewrite (decode_integer_encoded (Z.of_nat k + 1) 7 c (Z.lor c 0x80) tl rest);
    [| lia | lia | exact Henc | apply flagged_prefix; exact Hc].
  cbn [bind].
  replace (len (Z.lor c 128 :: tl)) with (len (c :: tl)) by reflexivity.
  replace (Z.of_nat k + 1 - 1) with (Z.of_nat k) by lia.
  unfold len in Hi |- *.
  destruct (Z.gtb_spec (Z.of_nat k)
              (Z.of_nat (List.length (Decoder.header_table d))))
    as [Hgt | Hle].
  - destruct (Z.gtb_spec (Z.of_nat k + 1)
                (Z.of_nat (List.length (Decoder.header_table d))));
      [| lia].
    rewrite nth_error_app2 in Hk by lia.
    rewrite (getitem_nth _ _ h);
      [| lia | rewrite <- Hk; f_equal; lia].
    cbn [bind].
    destruct (Decoder._add_to_header_table d h) as [d' |];
      [| reflexivity].
    cbn [bind]. unfold toggle.
    destruct (Decoder.mem h (Decoder.reference_set d')); reflexivity.
  - destruct (Z.gtb_spec (Z.of_nat k + 1)
                (Z.of_nat (List.length (Decoder.header_table d))));
      [lia |].
    rewrite nth_error_app1 in Hk by lia.
    rewrite (getitem_nth _ _ h);
      [| lia | rewrite Nat2Z.id; exact Hk].
    cbn [bind]. unfold toggle.
    destruct (Decoder.mem h (Decoder.reference_set d)); reflexivity.
Qed.

(** X15. The encoder and the decoder agree on the index space, but for
    one index. When [Encoder.matching_header] finds the pair (name, value)
    at index [i] and the decoder holds the same dynamic table, the indexed
    representation [_encode_indexed(i)] is dispatched by one round of
    [Decoder.decode] to [_decode_indexed], which resolves it to the same
    pair, copies it to the dynamic table when it comes from the static
    table, and toggles it in the reference set; provided [i] is not the
    index just after the dynamic table, for which [_decode_indexed]
    raises. *)
Theorem indexed_roundtrip (e : Encoder.t) (d : Decoder.t)
  (name value rest : bytes) (i : Z) (h : header) :
  Decoder.header_table d = Encoder.header_table e ->
  Encoder.matching_header e name value = Some (i, Some h) ->
  i <> len (Encoder.header_table e) + 1 ->
  exists encoded,
    Encoder._encode_indexed i = Ok encoded
    /\ Decoder.decode_step d (encoded ++ rest) 0
       = (d' <- (if i >? len (Decoder.header_table d)
                 then Decoder._add_to_header_table d (name, value)
                 else Ok d) ;;
          Ok (toggle d' (name, value) (len encoded))).
Proof.
  intros Htable Hmatch Hi.
  pose proof (matching_header_cases e name value) as Hspec.
  cbv zeta in Hspec. rewrite Hmatch in Hspec.
  destruct Hspec as (-> & k & -> & Hk & _).
  rewrite <- Htable in Hk, Hi.
  change Encoder.static_table with Decoder.static_table in Hk.
  destruct (encode_indexed_ok (Z.of_nat k + 1) ltac:(lia))
    as (c & tl & Henc & Hc & Hrep).
  exists (Z.lor c 0x80 :: tl). split; [exact Hrep |].
  apply decode_step_indexed_entry; assumption.
Qed.

Lemma indexed_roundtrip_witness :
  exists encoded,
    Encoder._encode_indexed 2 = Ok encoded
    /\ Decoder.decode_step (Decoder.__init__ (fun x => Ok x))
         (encoded ++ [0x30]) 0
       = (d' <- Decoder._add_to_header_table
                  (Decoder.__init__ (fun x => Ok x))
                  (bstr ":method", bstr "GET") ;;
          Ok (toggle d' (bstr ":method", bstr "GET") (len encoded))).
Proof.
  apply (indexed_roundtrip (Encoder.__init__ (fun x => x))
           (Decoder.__init__ (fun x => Ok x))
           (bstr ":method") (bstr "GET") [0x30] 2
           (bstr ":method", bstr "GET")).
  - reflexivity.
  - reflexivity.
  - simpl. lia.
Defined.

(** ** The bound on the dynamic table *)

Lemma decoder_add_bounded (self self' : Decoder.t) (h : header) :
  Decoder._add_to_header_table self h = Ok self' ->
  header_table_size (Decoder.header_table self')
  <= Decoder._header_table_size self'.
Proof.
  unfold Decoder._add_to_header_table.
  rewrite <- (header_table_size_rev (h :: Decoder.header_table self)).
  intros H. inv_bind H. destruct a as [table' refs'].
  injection H as <-. cbn.
  destruct (decoder_evict_spec _ _ _ _ _ Ha)
    as (popped & kept & _ & -> & Hsize & _).
  rewrite header_table_size_rev. exact Hsize.
Qed.

Lemma decoder_set_size_bounded (self self' : Decoder.t) (value : Z) :
  header_table_size (Decoder.header_table self)
  <= Decoder._header_table_size self ->
  Decoder.set_header_table_size self value = Ok self' ->
  header_table_size (Decoder.header_table self')
  <= Decoder._header_table_size self'.
Proof.
  intros Hbound. unfold Decoder.set_header_table_size.
  destruct (Z.ltb_spec value (Decoder._header_table_size self)) as [Hlt | Hge].
  - rewrite <- (header_table_size_rev (Decoder.header_table self)).
    intros H. inv_bind H. destruct a as [table' refs'].
    injection H as <-. cbn.
    destruct (decoder_evict_spec _ _ _ _ _ Ha)
      as (popped & kept & _ & -> & Hsize & _).
    rewrite header_table_size_rev. exact Hsize.
  - intros H. injection H as <-.
    cbn [Decoder.header_table Decoder._header_table_size]. lia.
Qed.

Lemma decode_step_bounded (self self' : Decoder.t) (data : bytes)
  (current_index : Z) (h : option header) (consumed : Z) :
  header_table_size (Decoder.header_table self)
  <= Decoder._header_table_size self ->
  Decoder.decode_step self data current_index = Ok (self', h, consumed) ->
  header_table_size (Decoder.header_table self')
  <= Decoder._header_table_size self'.
Proof.
  intros Hbound H. unfold Decoder.decode_step in H. inv_bind H.
  destruct (negb (Z.land (to_byte a) 128 =? 0)).
  { unfold Decoder._decode_indexed in H.
    inv_bind H. destruct a0 as [index c].
    inv_bind H. destruct a0 as [s hd].
    assert (header_table_size (Decoder.header_table s)
            <= Decoder._header_table_size s) as Hs.
    { destruct (index - 1 >? len (Decoder.header_table self)).
      - inv_bind Ha1. inv_bind Ha1. injection Ha1 as <- <-.
        eapply decoder_add_bounded. exact Ha3.
      - inv_bind Ha1. injection Ha1 as <- <-. exact Hbound. }
    destruct (Decoder.mem hd (Decoder.reference_set s));
      injection H as <- _ _; exact Hs. }
  assert (forall should_index,
             Decoder._decode_literal self (slice_from data current_index)
               should_index = Ok (self', h, consumed) ->
             header_table_size (Decoder.header_table self')
             <= Decoder._header_table_size self') as Hlit.
  { intros should_index Hl. unfold Decoder._decode_literal in Hl.
    inv_bind Hl.
    destruct (if should_index then (Z.land (to_byte a0) 63, 6)
              else (to_byte a0, 4)) as [indexed_name name_len].
    inv_bind Hl. destruct a1 as [[[[name total] data'] c1] l1].
    inv_bind Hl. destruct a1 as [l2 c2].
    inv_bind Hl. inv_bind Hl. inv_bind Hl. injection Hl as <- _ _.
    destruct should_index.
    - inv_bind Ha5. injection Ha5 as <-.
      apply decoder_add_bounded in Ha6. exact Ha6.
    - injection Ha5 as <-. exact Hbound. }
  destruct (negb (Z.land (to_byte a) 64 =? 0)).
  { apply (Hlit true). exact H. }
  destruct (negb (Z.land (to_byte a) 32 =? 0)).
  { inv_bind H. destruct a0 as [s c]. injection H as <- _ _.
    unfold Decoder._update_encoding_context in Ha0.
    inv_bind Ha0. destruct (to_byte a0 =? 48).
    - injection Ha0 as <- _. exact Hbound.
    - inv_bind Ha0. destruct a1 as [new_size c'].
      inv_bind Ha0. injection Ha0 as <- _.
      eapply decoder_set_size_bounded; eassumption. }
  apply (Hlit false). exact H.
Qed.

Lemma decode_loop_bounded (data : bytes) (fuel : nat) :
  forall self self' current_index headers headers',
    header_table_size (Decoder.header_table self)
    <= Decoder._header_table_size self ->
    Decoder.decode_loop fuel self data current_index headers
    = Ok (self', headers') ->
    header_table_size (Decoder.header_table self')
    <= Decoder._header_table_size self'.
Proof.
  induction fuel as [| fuel IH];
    intros self self' current_index headers headers' Hbound H.
  - injection H as <- _. exact Hbound.
  - cbn [Decoder.decode_loop] in H.
    destruct (current_index <? len data).
    + inv_bind H. destruct a as [[s hd] c].
      eapply IH; [| exact H].
      eapply decode_step_bounded; eassumption.
    + injection H as <- _. exact Hbound.
Qed.

(** X16. [Decoder.decode] keeps the dynamic table within its maximum:
    when [sum(32 + len(n) + len(v))] over the table is at most
    [header_table_size] before a call that returns, it is so after it,
    whatever the block does (insertions, size updates included). *)
Theorem decode_keeps_table_bound (self self' : Decoder.t) (data : bytes)
  (headers : list (text * text)) :
  header_table_size (Decoder.header_table self)
  <= Decoder._header_table_size self ->
  Decoder.decode self data = Ok (self', headers) ->
  header_table_size (Decoder.header_table self')
  <= Decoder._header_table_size self'.
Proof.
  intros Hbound H. unfold Decoder.decode, Decoder.decode_headers in H.
  inv_bind H. destruct a as [s hs]. inv_bind Ha. destruct a as [s' hs'].
  injection Ha as <- _. inv_bind H. injection H as <- _.
  eapply decode_loop_bounded; eassumption.
Qed.

Lemma decode_keeps_table_bound_witness :
  exists self' headers,
    Decoder.decode (Decoder.__init__ (fun x => Ok x))
      ([0x82; 0x40; 1] ++ bstr "a" ++ [1] ++ bstr "b") = Ok (self', headers)
    /\ header_table_size (Decoder.header_table self')
       <= Decoder._header_table_size self'.
Proof.
  assert (exists self' headers,
             Decoder.decode (Decoder.__init__ (fun x => Ok x))
               ([0x82; 0x40; 1] ++ bstr "a" ++ [1] ++ bstr "b")
             = Ok (self', headers)) as (self' & headers & Hdec)
    by (vm_compute; eauto).
  exists self', headers. split; [exact Hdec |].
  apply (decode_keeps_table_bound (Decoder.__init__ (fun x => Ok x)) self'
           ([0x82; 0x40; 1] ++ bstr "a" ++ [1] ++ bstr "b") headers).
  - simpl. lia.
  - exact Hdec.
Defined.

Lemma encoder_table_kept_refl (self : Encoder.t) :
  encoder_table_kept self self.
Proof. split; [reflexivity | tauto]. Qed.

Lemma encoder_table_kept_trans (s1 s2 s3 : Encoder.t) :
  encoder_table_kept s1 s2 -> encoder_table_kept s2 s3 ->
  encoder_table_kept s1 s3.
Proof.
  intros [Hm1 Hb1] [Hm2 Hb2]. split; [congruence | tauto].
Qed.

Lemma encoder_table_kept_refs (self : Encoder.t) (refs : list Encoder.slot) :
  encoder_table_kept self (Encoder.with_refs self refs).
Proof. split; [reflexivity | intros H; exact H]. Qed.

Lemma encoder_add_to_table_kept (self self' : Encoder.t) (h : header) :
  Encoder._add_to_header_table self h = Ok self' ->
  encoder_table_kept self self'.
Proof.
  unfold Encoder._add_to_header_table.
  rewrite <- (header_table_size_rev (h :: Encoder.header_table self)).
  intros H. inv_bind H. destruct a as [table' refs'].
  injection H as <-. split; [reflexivity |]. intros _. cbn.
  destruct (encoder_evict_spec _ _ _ _ _ Ha)
    as (popped & kept & _ & -> & Hsize & _).
  rewrite header_table_size_rev. exact Hsize.
Qed.

Lemma encoder_remove_kept (self self' : Encoder.t) (h : header)
  (encoded : bytes) :
  Encoder.remove self h = Ok (self', encoded) ->
  encoder_table_kept self self'.
Proof.
  unfold Encoder.remove. intros H.
  destruct (Encoder.matching_header self (fst h) (snd h))
    as [[index match_] |]; [| discriminate H].
  destruct ((match match_ with None => true | Some _ => false end)
            || (index >? len (Encoder.header_table self)));
    [discriminate H |].
  inv_bind H. inv_bind H. injection H as <- _.
  apply encoder_table_kept_refs.
Qed.

Lemma encoder_add_kept (self self' : Encoder.t) (h : header)
  (huffman : bool) (encoded : bytes) :
  Encoder.add self h huffman = Ok (self', encoded) ->
  encoder_table_kept self self'.
Proof.
  unfold Encoder.add. destruct h as [name value]. intros H.
  destruct (Encoder.matching_header self name value)
    as [[index [perfect |]] |].
  - inv_bind H. inv_bind H. destruct a0 as [s p]. injection H as <- _.
    eapply encoder_table_kept_trans; [| apply encoder_table_kept_refs].
    destruct (index >? len (Encoder.header_table self)).
    + inv_bind Ha0. injection Ha0 as <- _.
      eapply encoder_add_to_table_kept. exact Ha1.
    + injection Ha0 as <- _. apply encoder_table_kept_refl.
  - inv_bind H. injection H as <- _. apply encoder_table_kept_refl.
  - inv_bind H. inv_bind H. injection H as <- _.
    eapply encoder_table_kept_trans; [| apply encoder_table_kept_refs].
    eapply encoder_add_to_table_kept. exact Ha0.
Qed.

Lemma encode_header_kept (self self' : Encoder.t) (h : header)
  (huffman : bool) (block : list bytes) :
  Encoder.encode_header self h huffman = Ok (self', block) ->
  encoder_table_kept self self'.
Proof.
  unfold Encoder.encode_header. intros H.
  destruct (match Encoder.matching_header self (fst h) (snd h) with
            | Some (index, match_) => (index, match_)
            | None => (-1, None)
            end) as [index match_].
  assert (forall s,
             (' (s', b4) <- Encoder.add self h huffman ;; Ok (s', [b4]))
             = Ok (s, block) -> encoder_table_kept self s) as Hadd.
  { intros s Hs. inv_bind Hs. destruct a as [s' b4]. injection Hs as <- _.
    eapply encoder_add_kept. exact Ha. }
  destruct (Encoder.get_from_reference_set self match_) as [ref |];
    [| destruct match_; apply Hadd; exact H].
  destruct match_ as [key |]; [| apply Hadd; exact H].
  destruct (negb (truthy (Encoder.value_emitted ref))).
  { injection H as <- _. apply encoder_table_kept_refs. }
  inv_bind H. destruct a as [[[s1 blk] hdr] ref_obj].
  inv_bind H. destruct a as [s2 b3].
  inv_bind H. destruct a as [s3 b4]. injection H as <- _.
  assert (encoder_table_kept self s1) as H1.
  { destruct (is_implicitly_emitted (Encoder.value_emitted ref)).
    - inv_bind Ha. destruct a as [sa b1].
      inv_bind Ha. destruct a as [sb b2].
      destruct (Encoder.matching_header sb (fst h) (snd h))
        as [[i' header'] |]; [| discriminate Ha].
      destruct (Encoder.get_from_reference_set sb header') as [ref' |];
        [| discriminate Ha].
      destruct header' as [header' |]; [| discriminate Ha].
      injection Ha as <- _ _ _.
      eapply encoder_table_kept_trans.
      + eapply encoder_remove_kept. exact Ha2.
      + eapply encoder_add_kept. exact Ha3.
    - injection Ha as <- _ _ _. apply encoder_table_kept_refl. }
  eapply encoder_table_kept_trans; [exact H1 |].
  eapply encoder_table_kept_trans.
  - eapply encoder_remove_kept. exact Ha0.
  - eapply encoder_add_kept. exact Ha1.
Qed.

Lemma encode_headers_kept (headers : list header) (huffman : bool) :
  forall self self' blocks,
    Encoder.encode_headers self headers huffman = Ok (self', blocks) ->
    encoder_table_kept self self'.
Proof.
  induction headers as [| h headers IH]; intros self self' blocks H.
  - injection H as <- _. apply encoder_table_kept_refl.
  - cbn [Encoder.encode_headers] in H.
    inv_bind H. destruct a as [s1 block].
    inv_bind H. destruct a as [s2 blocks']. injection H as <- _.
    eapply encoder_table_kept_trans.
    + eapply encode_header_kept. exact Ha.
    + eapply IH. exact Ha0.
Qed.

Lemma remove_unemitted_kept (keys : list Reference) :
  forall self self' blocks,
    Encoder.remove_unemitted self keys = Ok (self', blocks) ->
    encoder_table_kept self self'.
Proof.
  induction keys as [| r keys IH]; intros self self' blocks H.
  - injection H as <- _. apply encoder_table_kept_refl.
  - cbn [Encoder.remove_unemitted] in H.
    destruct (negb (truthy (emitted r))).
    + inv_bind H. destruct a as [s1 b1].
      inv_bind H. destruct a as [s2 blocks']. injection H as <- _.
      eapply encoder_table_kept_trans.
      * eapply encoder_remove_kept. exact Ha.
      * eapply IH. exact Ha0.
    + eapply IH. exact H.
Qed.

(** X17. [Encoder.encode] never changes the maximum table size and keeps
    the dynamic table within it: when the size of the table is at most
    [header_table_size] before a call that returns, it is so after it,
    whatever the headers. *)
Theorem encode_keeps_table_bound (self self' : Encoder.t)
  (headers : Encoder.headers_arg) (huffman : bool) (block : bytes) :
  Encoder.encode self headers huffman = Ok (self', block) ->
  Encoder._header_table_size self' = Encoder._header_table_size self
  /\ (header_table_size (Encoder.header_table self)
      <= Encoder._header_table_size self ->
      header_table_size (Encoder.header_table self')
      <= Encoder._header_table_size self').
Proof.
  unfold Encoder.encode. intros H.
  inv_bind H. inv_bind H. destruct a0 as [s1 header_block].
  inv_bind H. destruct a0 as [s2 removals]. injection H as <- _.
  change (encoder_table_kept self s2).
  eapply encoder_table_kept_trans; [apply encoder_table_kept_refs |].
  eapply encoder_table_kept_trans.
  - eapply encode_headers_kept. exact Ha0.
  - eapply remove_unemitted_kept. exact Ha1.
Qed.

Lemma encode_keeps_table_bound_witness :
  exists self' block,
    Encoder.encode (Encoder.__init__ (fun x => x)) request_1 false
    = Ok (self', block)
    /\ Encoder._header_table_size self' = 4096
    /\ header_table_size (Encoder.header_table self') <= 4096.
Proof.
  assert (exists self' block,
             Encoder.encode (Encoder.__init__ (fun x => x)) request_1 false
             = Ok (self', block)) as (self' & block & Henc)
    by (vm_compute; eauto).
  exists self', block. split; [exact Henc |].
  destruct (encode_keeps_table_bound (Encoder.__init__ (fun x => x)) self'
              request_1 false block Henc) as [Hmax Hbound].
  split; [exact Hmax |]. rewrite Hmax in Hbound. apply Hbound.
  simpl. lia.
Defined.

(** ** The reference set of the decoder *)

Lemma decoder_refs_in_tables_iff (self : Decoder.t) :
  decoder_refs_in_tables self = true <->
  forall r, In r (Decoder.reference_set self) ->
            In r (Decoder.header_table self ++ Decoder.static_table).
Proof.
  unfold decoder_refs_in_tables. rewrite forallb_forall.
  split; intros H r Hr; specialize (H r Hr).
  - apply existsb_exists in H. destruct H as (x & Hx & Heq).
    apply header_eqb_eq in Heq. subst x. exact Hx.
  - apply existsb_exists. exists r. split; [exact H |].
    apply header_eqb_refl.
Qed.

Lemma getitem_In {A : Type} (l : list A) (i : Z) (a : A) :
  getitem l i = Ok a -> In a l.
Proof.
  unfold getitem. intros H.
  destruct ((if i <? 0 then len l + i else i) <? 0); [discriminate H |].
  destruct (nth_error l (Z.to_nat (if i <? 0 then len l + i else i)))
    as [x |] eqn:E; [| discriminate H].
  injection H as <-. eapply nth_error_In. exact E.
Qed.

Lemma set_add_In (h r : header) (refs : list header) :
  In r (Decoder.set_add h refs) -> r = h \/ In r refs.
Proof.
  unfold Decoder.set_add. destruct (Decoder.mem h refs); [tauto |].
  rewrite in_app_iff. simpl. intuition.
Qed.

Lemma set_discard_In (h r : header) (refs : list header) :
  In r (Decoder.set_discard h refs) -> In r refs.
Proof. unfold Decoder.set_discard. intros H. apply filter_In in H. tauto. Qed.

(** What a successful insertion did to the table and the reference set. *)
Lemma decoder_add_result (self s : Decoder.t) (h : header) :
  Decoder._add_to_header_table self h = Ok s ->
  exists evicted,
    h :: Decoder.header_table self = Decoder.header_table s ++ evicted
    /\ (forall r, In r (Decoder.reference_set s) <->
                  In r (Decoder.reference_set self) /\ ~ In r evicted)
    /\ Decoder._header_table_size s = Decoder._header_table_size self
    /\ (forall e evicted', evicted = e :: evicted' ->
          Decoder._header_table_size self
          < header_table_size (Decoder.header_table s) + entry_size e).
Proof.
  unfold Decoder._add_to_header_table.
  rewrite <- (header_table_size_rev (h :: Decoder.header_table self)).
  intros H. inv_bind H. destruct a as [table' refs'].
  injection H as <-.
  destruct (decoder_evict_spec _ _ _ _ _ Ha)
    as (popped & kept & Hsplit & -> & Hsize & Hrefs & Hmin).
  exists (rev popped). cbn.
  split.
  { rewrite <- rev_app_distr, <- Hsplit, rev_involutive. reflexivity. }
  split; [intros r; rewrite <- in_rev; apply Hrefs |].
  split; [reflexivity |].
  intros e evicted' He. rewrite header_table_size_rev.
  specialize (Hmin e (rev evicted')).
  rewrite <- (rev_involutive popped), He in Hmin. simpl in Hmin.
  specialize (Hmin eq_refl). lia.
Qed.

Lemma kept_after_eviction (table table' evicted static : list header)
  (r : header) :
  table = table' ++ evicted -> ~ In r evicted ->
  In r (table ++ static) -> In r (table' ++ static).
Proof.
  intros -> Hnot Hin. rewrite !in_app_iff in *. tauto.
Qed.

Lemma decoder_add_keeps_refs (self s : Decoder.t) (h : header) :
  (forall r, In r (Decoder.reference_set self) ->
             In r (Decoder.header_table self ++ Decoder.static_table)) ->
  Decoder._add_to_header_table self h = Ok s ->
  forall r, In r (Decoder.reference_set s) ->
            In r (Decoder.header_table s ++ Decoder.static_table).
Proof.
  intros Hinv Hadd r Hr.
  destruct (decoder_add_result _ _ _ Hadd) as (evicted & Htable & Hrefs & _).
  apply Hrefs in Hr. destruct Hr as [Hr Hnot].
  specialize (Hinv r Hr).
  apply (kept_after_eviction (h :: Decoder.header_table self) _ evicted);
    [exact Htable | exact Hnot |].
  simpl. right. exact Hinv.
Qed.

Lemma decoder_set_size_keeps_refs (self s : Decoder.t) (value : Z) :
  (forall r, In r (Decoder.reference_set self) ->
             In r (Decoder.header_table self ++ Decoder.static_table)) ->
  Decoder.set_header_table_size self value = Ok s ->
  forall r, In r (Decoder.reference_set s) ->
            In r (Decoder.header_table s ++ Decoder.static_table).
Proof.
  intros Hinv. unfold Decoder.set_header_table_size.
  destruct (value <? Decoder._header_table_size self).
  - rewrite <- (header_table_size_rev (Decoder.header_table self)).
    intros H. inv_bind H. destruct a as [table' refs'].
    injection H as <-. cbn.
    destruct (decoder_evict_spec _ _ _ _ _ Ha)
      as (popped & kept & Hsplit & -> & _ & Hrefs & _).
    intros r Hr. apply Hrefs in Hr. destruct Hr as [Hr Hnot].
    apply (kept_after_eviction (Decoder.header_table self) _ (rev popped));
      [| rewrite <- in_rev; exact Hnot | apply Hinv; exact Hr].
    rewrite <- rev_app_distr, <- Hsplit, rev_involutive. reflexivity.
  - intros H. injection H as <-. exact Hinv.
Qed.

(** X18. One round of [Decoder.decode] keeps the reference set inside the
    tables (every referenced pair is in the dynamic or the static table),
    whatever representation it reads, with one exception that the
    hypothesis excludes: a literal with indexing whose pair does not fit in
    the table on its own. Indexed representations, literals without
    indexing, reference-set clearing and size updates always keep it. *)
Theorem decode_step_keeps_references (self self' : Decoder.t) (data : bytes)
  (current_index c consumed : Z) (h : option header) :
  decoder_refs_in_tables self = true ->
  getitem data current_index = Ok c ->
  Decoder.decode_step self data current_index = Ok (self', h, consumed) ->
  (Z.land c 0x80 = 0 -> Z.land c 0x40 <> 0 ->
   forall pair, h = Some pair ->
                entry_size pair <= Decoder._header_table_size self) ->
  decoder_refs_in_tables self' = true.
Proof.
  intros Hinv Hc H Hfit.
  rewrite decoder_refs_in_tables_iff in Hinv |- *.
  unfold Decoder.decode_step in H. rewrite Hc in H. cbn [bind] in H.
  unfold to_byte in H.
  destruct (Z.eqb_spec (Z.land c 128) 0) as [H80 | H80]; cbn [negb] in H.
  2: { (* indexed *)
    clear Hfit. unfold Decoder._decode_indexed in H.
    inv_bind H. destruct a as [index cns].
    inv_bind H. destruct a as [s hd].
    assert ((forall r, In r (Decoder.reference_set s) ->
                       In r (Decoder.header_table s ++ Decoder.static_table))
            /\ In hd (Decoder.header_table s ++ Decoder.static_table))
      as [Hs Hhd].
    { destruct (index - 1 >? len (Decoder.header_table self)).
      - inv_bind Ha0. inv_bind Ha0. injection Ha0 as <- <-.
        split; [eapply decoder_add_keeps_refs; eassumption |].
        apply in_app_iff. right. eapply getitem_In. exact Ha1.
      - inv_bind Ha0. injection Ha0 as <- <-.
        split; [exact Hinv |].
        apply in_app_iff. left. eapply getitem_In. exact Ha1. }
    destruct (Decoder.mem hd (Decoder.reference_set s));
      injection H as <- _ _; cbn; intros r Hr.
    - apply Hs. eapply set_discard_In. exact Hr.
    - apply set_add_In in Hr. destruct Hr as [-> | Hr];
        [exact Hhd | apply Hs; exact Hr]. }
  assert (forall should_index,
             (should_index = true ->
              forall pair, h = Some pair ->
                           entry_size pair
                           <= Decoder._header_table_size self) ->
             Decoder._decode_literal self (slice_from data current_index)
               should_index = Ok (self', h, consumed) ->
             forall r, In r (Decoder.reference_set self') ->
                       In r (Decoder.header_table self'
                             ++ Decoder.static_table)) as Hlit.
  { intros should_index Hfits Hl. unfold Decoder._decode_literal in Hl.
    inv_bind Hl.
    destruct (if should_index then (Z.land (to_byte a) 63, 6)
              else (to_byte a, 4)) as [indexed_name name_len].
    inv_bind Hl. destruct a0 as [[[[name total] data'] c1] l1].
    inv_bind Hl. destruct a0 as [l2 c2].
    inv_bind Hl. inv_bind Hl. inv_bind Hl. injection Hl as <- <- _.
    destruct should_index.
    - inv_bind Ha4. injection Ha4 as <-. cbn. intros r Hr.
      apply set_add_In in Hr. destruct Hr as [-> | Hr].
      + destruct (decoder_add_result _ _ _ Ha5)
          as (evicted & Htable & _ & _ & Hmin).
        destruct (fits_stays_first _ _ _ _ _ Htable Hmin
                    (Hfits eq_refl _ eq_refl)) as [tl ->].
        simpl. now left.
      + eapply decoder_add_keeps_refs; eassumption.
    - injection Ha4 as <-. exact Hinv. }
  destruct (Z.eqb_spec (Z.land c 64) 0) as [H40 | H40]; cbn [negb] in H.
  2: { apply (Hlit true); [| exact H]. intros _. apply Hfit; assumption. }
  destruct (negb (Z.land c 32 =? 0)).
  - inv_bind H. destruct a as [s cns]. injection H as <- _ _.
    unfold Decoder._update_encoding_context in Ha.
    inv_bind Ha. destruct (to_byte a =? 48).
    + injection Ha as <- _. cbn. intros r [].
    + inv_bind Ha. destruct a0 as [new_size c'].
      inv_bind Ha. injection Ha as <- _.
      eapply decoder_set_size_keeps_refs; eassumption.
  - apply (Hlit false); [| exact H]. intros Habs. discriminate Habs.
Qed.

Lemma decode_step_keeps_references_witness :
  exists self' h consumed,
    Decoder.decode_step (Decoder.__init__ (fun x => Ok x))
      ([0x40; 1] ++ bstr "a" ++ [1] ++ bstr "b") 0 = Ok (self', h, consumed)
    /\ decoder_refs_in_tables self' = true.
Proof.
  assert (exists self',
             Decoder.decode_step (Decoder.__init__ (fun x => Ok x))
               ([0x40; 1] ++ bstr "a" ++ [1] ++ bstr "b") 0
             = Ok (self', Some (bstr "a", bstr "b"), 5))
    as (self' & Hstep) by (vm_compute; eauto).
  exists self', (Some (bstr "a", bstr "b")), 5. split; [exact Hstep |].
  apply (decode_step_keeps_references (Decoder.__init__ (fun x => Ok x)) self'
           ([0x40; 1] ++ bstr "a" ++ [1] ++ bstr "b") 0 0x40 5
           (Some (bstr "a", bstr "b"))).
  - reflexivity.
  - reflexivity.
  - exact Hstep.
  - intros _ _ pair Hpair. injection Hpair as <-. vm_compute. discriminate.
Defined.

(** ** Implicit emission at the end of a block *)

Lemma mem_In (h : header) (l : list header) :
  Decoder.mem h l = true <-> In h l.
Proof.
  unfold Decoder.mem. rewrite existsb_exists. split.
  - intros (x & Hx & Heq). apply header_eqb_eq in Heq. subst x. exact Hx.
  - intros Hin. exists h. split; [exact Hin | apply header_eqb_refl].
Qed.

Lemma mem_not_In (h : header) (l : list header) :
  Decoder.mem h l = false <-> ~ In h l.
Proof.
  rewrite <- mem_In. destruct (Decoder.mem h l).
  - split; [discriminate | intros H; exfalso; apply H; reflexivity].
  - split; [intros _ H; discriminate H | reflexivity].
Qed.

Lemma header_eq_dec (h k : header) : {h = k} + {h <> k}.
Proof.
  destruct (header_eqb h k) eqn:E.
  - left. apply header_eqb_eq. exact E.
  - right. apply header_eqb_neq. exact E.
Qed.

(** The loop over the reference set at the end of [decode] appends, after
    the headers already there, each referenced pair that is not among
    them, once. *)
Lemma emit_references_spec (refs : list header) :
  forall headers, exists extra,
    Decoder.emit_references refs headers = headers ++ extra
    /\ NoDup extra
    /\ forall x, In x extra <-> In x refs /\ ~ In x headers.
Proof.
  induction refs as [| r refs IH]; intros headers.
  - exists []. simpl. unfold Decoder.emit_references. simpl.
    split; [symmetry; apply app_nil_r |]. split; [constructor | tauto].
  - unfold Decoder.emit_references. cbn [fold_left].
    fold (Decoder.emit_references refs
            (if Decoder.mem r headers then headers else headers ++ [r])).
    destruct (Decoder.mem r headers) eqn:Hmem.
    + apply mem_In in Hmem.
      destruct (IH headers) as (extra & Heq & Hnd & Hin).
      exists extra. split; [exact Heq |]. split; [exact Hnd |].
      intros x. rewrite Hin. simpl. split; [tauto |].
      intros [[-> | Hx] Hnot]; [contradiction | tauto].
    + apply mem_not_In in Hmem.
      destruct (IH (headers ++ [r])) as (extra & Heq & Hnd & Hin).
      exists (r :: extra).
      split; [rewrite Heq, <- app_assoc; reflexivity |].
      split.
      * constructor; [| exact Hnd]. intros Hr. apply Hin in Hr.
        destruct Hr as [_ Hr]. apply Hr. apply in_app_iff. right. now left.
      * intros x. simpl. rewrite Hin, in_app_iff. simpl.
        destruct (header_eq_dec r x) as [-> | Hne]; [tauto |].
        split; [tauto |]. intros [[Heq' | Hx] Hnot]; [contradiction |].
        right. tauto.
Qed.

(** The loop of [decode], when it returns, has gone through rounds up to
    the end of the block, and has appended what they emitted. *)
Lemma loop_rounds (data : bytes) :
  Forall octet data ->
  forall fuel s i acc s' hs,
    len data - i <= Z.of_nat fuel ->
    Decoder.decode_loop fuel s data i acc = Ok (s', hs) ->
    exists explicit j,
      rounds data s i explicit s' j
      /\ len data <= j
      /\ hs = acc ++ explicit.
Proof.
  intros Hdata. induction fuel as [| fuel IH];
    intros s i acc s' hs Hfuel H.
  - cbn [Decoder.decode_loop] in H. injection H as <- <-.
    exists [], i. split; [constructor |]. split; [lia |].
    symmetry. apply app_nil_r.
  - cbn [Decoder.decode_loop] in H.
    destruct (Z.ltb_spec i (len data)) as [Hlt | Hge].
    + inv_bind H. destruct a as [[s1 header] consumed].
      pose proof (decode_step_consumed _ _ _ _ _ _ Hdata Ha) as Hc.
      apply IH in H; [| lia].
      destruct H as (explicit & j & Hr & Hj & ->).
      destruct header as [h |].
      * exists (h :: explicit), j.
        split; [eapply rounds_header; eassumption |].
        split; [exact Hj |]. rewrite <- app_assoc. reflexivity.
      * exists explicit, j.
        split; [eapply rounds_silent; eassumption |].
        split; [exact Hj | reflexivity].
    + injection H as <- <-. exists [], i.
      split; [constructor |]. split; [exact Hge |].
      symmetry. apply app_nil_r.
Qed.

(** X19. Implicit emission: when [decode] returns on a [bytes] object, its
    loop has gone through rounds up to the end of the block, and the list
    of headers it has built (before the conversion to text) is the list of
    the headers that these rounds emitted, in order, followed by each pair
    of the final reference set that is not among them, once (in the order
    in which the set is visited, about which nothing is stated). In
    particular every pair left in the reference set is in the result. *)
Theorem decode_emits_references (self self' : Decoder.t) (data : bytes)
  (headers : list header) :
  Forall octet data ->
  Decoder.decode_headers self data = Ok (self', headers) ->
  exists explicit extra j,
    rounds data self 0 explicit self' j
    /\ len data <= j
    /\ headers = explicit ++ extra
    /\ NoDup extra
    /\ (forall x, In x extra <->
                  In x (Decoder.reference_set self') /\ ~ In x explicit)
    /\ (forall r, In r (Decoder.reference_set self') -> In r headers).
Proof.
  unfold Decoder.decode_headers. intros Hdata H.
  inv_bind H. destruct a as [s looped]. injection H as <- <-.
  assert (len data - 0 <= Z.of_nat (List.length data)) as Hfuel
    by (unfold len; lia).
  destruct (loop_rounds data Hdata _ _ _ _ _ _ Hfuel Ha)
    as (explicit & j & Hr & Hj & Hloop).
  simpl in Hloop. subst looped.
  destruct (emit_references_spec (Decoder.reference_set s) explicit)
    as (extra & Heq & Hnd & Hin).
  exists explicit, extra, j. split; [exact Hr |]. split; [exact Hj |].
  split; [exact Heq |]. split; [exact Hnd |]. split; [exact Hin |].
  intros r Hr'. rewrite Heq, in_app_iff.
  destruct (in_dec header_eq_dec r explicit) as [Hex | Hnot]; [now left |].
  right. apply Hin. tauto.
Qed.

Lemma decode_emits_references_witness :
  exists self' headers explicit extra j,
    Decoder.decode_headers two_custom_headers_read [0x84]
    = Ok (self', headers)
    /\ rounds [0x84] two_custom_headers_read 0 explicit self' j
    /\ headers = explicit ++ extra
    /\ In (bstr "foo", bstr "bar") headers.
Proof.
  assert (exists self' headers,
             Decoder.decode_headers two_custom_headers_read [0x84]
             = Ok (self', headers))
    as (self' & headers & Hdec) by (vm_compute; eauto).
  assert (Forall octet [0x84]) as Hdata
    by (repeat constructor; unfold octet; lia).
  destruct (decode_emits_references _ _ _ _ Hdata Hdec)
    as (explicit & extra & j & Hr & _ & Heq & _ & _ & Hall).
  exists self', headers, explicit, extra, j.
  split; [exact Hdec |]. split; [exact Hr |]. split; [exact Heq |].
  apply Hall. vm_compute in Hdec. injection Hdec as <- _.
  left. reflexivity.
Defined.

Lemma emit_references_fresh (refs : list header) :
  forall headers,
    NoDup refs -> (forall x, In x refs -> ~ In x headers) ->
    Decoder.emit_references refs headers = headers ++ refs.
Proof.
  induction refs as [| r refs IH]; intros headers Hnd Hdisj.
  - unfold Decoder.emit_references. simpl. symmetry. apply app_nil_r.
  - unfold Decoder.emit_references. cbn [fold_left].
    fold (Decoder.emit_references refs
            (if Decoder.mem r headers then headers else headers ++ [r])).
    assert (Decoder.mem r headers = false) as ->
      by (apply mem_not_In; apply Hdisj; now left).
    inversion Hnd as [| ? ? Hr Hnd']; subst.
    rewrite IH; [rewrite <- app_assoc; reflexivity | exact Hnd' |].
    intros x Hx. rewrite in_app_iff. simpl.
    intros [Hin | [-> | []]]; [| contradiction].
    apply (Hdisj x); [now right | exact Hin].
Qed.

(** X20. The empty block: [decode(b'')] runs no round of the loop, leaves
    the decoder as it is and returns the pairs of the reference set, each
    once, in the order in which the set is visited, and nothing else. This
    is how a peer receives the headers that the encoder left out because
    they were referenced. *)
Theorem decode_empty_block (self : Decoder.t) :
  NoDup (Decoder.reference_set self) ->
  exists headers,
    Decoder.decode_headers self [] = Ok (self, headers)
    /\ Permutation headers (Decoder.reference_set self).
Proof.
  intros Hnd. unfold Decoder.decode_headers. simpl.
  rewrite emit_references_fresh; [| exact Hnd | intros x _ []].
  eexists. split; [reflexivity |]. apply Permutation_refl.
Qed.

Lemma decode_empty_block_witness :
  exists headers,
    Decoder.decode_headers two_custom_headers_read [] 
    = Ok (two_custom_headers_read, headers)
    /\ Permutation headers
         [(bstr "baz", bstr "qux"); (bstr "foo", bstr "bar")].
Proof.
  destruct (decode_empty_block two_custom_headers_read)
    as (headers & Hdec & Hperm).
  - simpl. constructor; [| constructor; [simpl; tauto | constructor]].
    intros [H | []]. discriminate H.
  - exists headers. split; [exact Hdec |].
    eapply Permutation_trans; [exact Hperm |]. apply perm_swap.
Defined.

(** X21. Progress of the loop of [decode]: on a [bytes] object every round
    that returns consumes at least one octet. *)
Theorem decode_step_progress (self self' : Decoder.t) (data : bytes)
  (current_index : Z) (h : option header) (consumed : Z) :
  Forall octet data ->
  Decoder.decode_step self data current_index = Ok (self', h, consumed) ->
  current_index < current_index + consumed.
Proof.
  intros Hdata Hstep.
  pose proof (decode_step_consumed _ _ _ _ _ _ Hdata Hstep). lia.
Qed.

Lemma decode_step_progress_witness : 0 < 0 + 1.
Proof.
  apply (decode_step_progress (Decoder.__init__ (fun x => Ok x))
           (Decoder.with_refs
              {| Decoder.header_table := [(bstr ":method", bstr "GET")];
                 Decoder.reference_set := [];
                 Decoder._header_table_size := 4096;
                 Decoder.huffman_coder := fun x => Ok x |}
              [(bstr ":method", bstr "GET")])
           [0x82] 0 (Some (bstr ":method", bstr "GET")) 1).
  - repeat constructor; unfold octet; lia.
  - reflexivity.
Defined.

(** ** The encoder and the decoder move in step *)

(** Both eviction loops cut the table alike. *)
Lemma evict_agree (max_size : Z) (rev_table : list header) :
  forall refs_e refs_d actual table refs_e',
    Encoder.evict rev_table refs_e actual max_size = Ok (table, refs_e') ->
    exists refs_d',
      Decoder.evict rev_table refs_d actual max_size = Ok (table, refs_d').
Proof.
  induction rev_table as [| hd rt IH];
    intros refs_e refs_d actual table refs_e' H.
  - simpl in *. destruct (actual >? max_size); [discriminate H |].
    injection H as <- _. eexists. reflexivity.
  - cbn [Encoder.evict Decoder.evict] in *.
    destruct (actual >? max_size).
    + eapply IH. exact H.
    + injection H as <- _. eexists. reflexivity.
Qed.

Lemma add_to_table_agree (e e1 : Encoder.t) (d : Decoder.t) (h : header) :
  Decoder.header_table d = Encoder.header_table e ->
  Decoder._header_table_size d = Encoder._header_table_size e ->
  Encoder._add_to_header_table e h = Ok e1 ->
  exists d1,
    Decoder._add_to_header_table d h = Ok d1
    /\ Decoder.header_table d1 = Encoder.header_table e1
    /\ Decoder._header_table_size d1 = Encoder._header_table_size e1.
Proof.
  intros Htable Hmax H. unfold Encoder._add_to_header_table in H.
  inv_bind H. destruct a as [table refs]. injection H as <-.
  destruct (evict_agree _ _ _ (Decoder.reference_set d) _ _ _ Ha)
    as [refs_d Hev].
  unfold Decoder._add_to_header_table. rewrite Htable, Hmax, Hev.
  eexists. split; [reflexivity |]. split; reflexivity.
Qed.

(** X22. One step of synchronisation. Let the decoder hold the same
    dynamic table and the same maximum size as the encoder, and a Huffman
    decoder that inverts the encoder's. Whatever [Encoder.add] writes for a
    pair (an indexed representation, a literal with indexing, or a literal
    with an indexed name), one round of [Decoder.decode] on it consumes
    exactly what was written and leaves the decoder with the same dynamic
    table and maximum size as the encoder has after [add]. The round emits
    the pair, unless the representation is indexed and the pair was in the
    decoder's reference set, in which case it removes it. The one index
    that [_decode_indexed] does not resolve, the first static entry, is
    excluded. *)
Theorem add_synchronised (e e' : Encoder.t) (d : Decoder.t)
  (name value encoded rest : bytes) (huffman : bool) :
  Decoder.header_table d = Encoder.header_table e ->
  Decoder._header_table_size d = Encoder._header_table_size e ->
  (huffman = true ->
   forall x, Decoder.huffman_coder d (Encoder.huffman_coder e x) = Ok x) ->
  (forall pair, Encoder.matching_header e name value
                <> Some (len (Encoder.header_table e) + 1, Some pair)) ->
  Encoder.add e (name, value) huffman = Ok (e', encoded) ->
  exists d' emitted,
    Decoder.decode_step d (encoded ++ rest) 0
    = Ok (d', emitted, len encoded)
    /\ Decoder.header_table d' = Encoder.header_table e'
    /\ Decoder._header_table_size d' = Encoder._header_table_size e'
    /\ (emitted = Some (name, value)
        \/ (emitted = None /\ In (name, value) (Decoder.reference_set d))).
Proof.
  intros Htable Hmax Hhuff Hbug H. unfold Encoder.add in H.
  pose proof (matching_header_cases e name value) as Hspec.
  cbv zeta in Hspec.
  destruct (Encoder.matching_header e name value)
    as [[i [perfect |]] |] eqn:Hmatch.
  - (* exact match: indexed representation *)
    inv_bind H. inv_bind H. destruct a0 as [e1 p]. injection H as <- <-.
    destruct Hspec as (-> & k & -> & Hk & _).
    assert (Z.of_nat k + 1 <> len (Decoder.header_table d) + 1) as Hi
      by (rewrite Htable; intros Heq; eapply Hbug; rewrite Heq; reflexivity).
    rewrite <- Htable in Hk.
    change Encoder.static_table with Decoder.static_table in Hk.
    destruct (encode_indexed_ok (Z.of_nat k + 1) ltac:(lia))
      as (c & tl & Henc & Hc & Hrep).
    rewrite Hrep in Ha. injection Ha as <-.
    rewrite (decode_step_indexed_entry d k c tl rest (name, value)
               Henc Hc Hk Hi).
    rewrite Htable.
    destruct (Z.of_nat k + 1 >? len (Encoder.header_table e)).
    + inv_bind Ha0. injection Ha0 as <- _.
      destruct (add_to_table_agree e a d (name, value) Htable Hmax Ha)
        as (d1 & Hadd & Ht1 & Hm1).
      rewrite Hadd. cbn [bind]. unfold toggle.
      destruct (Decoder.mem (name, value) (Decoder.reference_set d1))
        eqn:Hmem.
      * eexists _, None. split; [reflexivity |].
        split; [exact Ht1 |]. split; [exact Hm1 |].
        right. split; [reflexivity |].
        apply mem_In in Hmem.
        destruct (decoder_add_result _ _ _ Hadd) as (ev & _ & Hrefs & _).
        apply Hrefs in Hmem. tauto.
      * eexists _, (Some (name, value)). split; [reflexivity |].
        split; [exact Ht1 |]. split; [exact Hm1 |]. now left.
    + injection Ha0 as <- _. cbn [bind]. unfold toggle.
      destruct (Decoder.mem (name, value) (Decoder.reference_set d))
        eqn:Hmem.
      * eexists _, None. split; [reflexivity |].
        split; [exact Htable |]. split; [exact Hmax |].
        right. split; [reflexivity | apply mem_In; exact Hmem].
      * eexists _, (Some (name, value)). split; [reflexivity |].
        split; [exact Htable |]. split; [exact Hmax |]. now left.
  - (* name match: literal with indexed name *)
    inv_bind H. injection H as <- <-.
    destruct Hspec as (_ & k & n_value & -> & Hk & _).
    rewrite <- Htable in Hk.
    change Encoder.static_table with Decoder.static_table in Hk.
    destruct (encode_indexed_literal_wire e (Z.of_nat k + 1) value huffman
                ltac:(lia))
      as (c & tli & v0 & vl & Henc & Henci & Hc & Hdv & Hbv).
    rewrite Henc in Ha. injection Ha as <-.
    exists d, (Some (name, value)).
    split; [| split; [exact Htable | split; [exact Hmax | now left]]].
    apply (decode_step_indexed_name d (Z.of_nat k + 1) c v0 tli vl _ rest
             name n_value); try assumption; try lia.
    + replace (Z.to_nat (Z.of_nat k + 1 - 1)) with k by lia. exact Hk.
    + apply Hdv.
    + rewrite Hbv.
      destruct huffman; [apply Hhuff; reflexivity | reflexivity].
  - (* no match: literal with indexing *)
    inv_bind H. inv_bind H. injection H as <- <-.
    destruct (encode_literal_wire e name value true huffman)
      as (n0 & nl & v0 & vl & Henc & Hdn & Hbn & Hdv & Hbv).
    cbv zeta in Henc, Hdn, Hdv.
    rewrite Henc in Ha. injection Ha as <-.
    destruct (add_to_table_agree e a0 d (name, value) Htable Hmax Ha0)
      as (d1 & Hadd & Ht1 & Hm1).
    assert (forall x,
               (if negb (Z.land (to_byte n0) 128 =? 0)
                then Decoder.huffman_coder d
                       (if huffman then Encoder.huffman_coder e x else x)
                else Ok (if huffman then Encoder.huffman_coder e x else x))
               = Ok x) as Hn
      by (intros x; rewrite Hbn;
          destruct huffman; [apply Hhuff; reflexivity | reflexivity]).
    assert (forall x,
               (if negb (Z.land (to_byte v0) 128 =? 0)
                then Decoder.huffman_coder d
                       (if huffman then Encoder.huffman_coder e x else x)
                else Ok (if huffman then Encoder.huffman_coder e x else x))
               = Ok x) as Hv
      by (intros x; rewrite Hbv;
          destruct huffman; [apply Hhuff; reflexivity | reflexivity]).
    pose proof (decode_step_literal_name d true n0 v0 nl _ vl _ rest
                  name value (Hdn _) (Hn name) (Hdv _) (Hv value)) as Hstep.
    rewrite Hadd in Hstep. cbn [bind] in Hstep.
    eexists _, (Some (name, value)). split; [exact Hstep |].
    split; [exact Ht1 |]. split; [exact Hm1 |]. now left.
Qed.

Lemma add_synchronised_witness :
  exists e' encoded d' emitted,
    Encoder.add (Encoder.__init__ (fun x => x)) (bstr "a", bstr "b") false
    = Ok (e', encoded)
    /\ Decoder.decode_step (Decoder.__init__ (fun x => Ok x))
         (encoded ++ [0x82]) 0 = Ok (d', emitted, len encoded)
    /\ Decoder.header_table d' = Encoder.header_table e'.
Proof.
  assert (exists e' encoded,
             Encoder.add (Encoder.__init__ (fun x => x))
               (bstr "a", bstr "b") false = Ok (e', encoded))
    as (e' & encoded & Hadd) by (vm_compute; eauto).
  destruct (add_synchronised (Encoder.__init__ (fun x => x)) e'
              (Decoder.__init__ (fun x => Ok x))
              (bstr "a") (bstr "b") encoded [0x82] false)
    as (d' & emitted & Hstep & Htable & _).
  - reflexivity.
  - reflexivity.
  - intros Habs. discriminate Habs.
  - intros pair Habs. vm_compute in Habs. discriminate Habs.
  - exact Hadd.
  - exists e', encoded, d', emitted. repeat split; assumption.
Defined.

(** ** The reference set of the encoder *)

Lemma encoder_refs_in_tables_iff (self : Encoder.t) :
  encoder_refs_in_tables self = true <-> encoder_refs_inside self.
Proof.
  unfold encoder_refs_in_tables, encoder_refs_inside.
  rewrite forallb_forall.
  split; intros H s Hs; specialize (H s Hs).
  - apply existsb_exists in H. destruct H as (x & Hx & Heq).
    apply header_eqb_eq in Heq. rewrite Heq. exact Hx.
  - apply existsb_exists. exists (obj (Encoder.slot_key s)).
    split; [exact H | apply header_eqb_refl].
Qed.

Lemma refs_store_In (h : header) (e : Emitted) (refs : list Encoder.slot)
  (s : Encoder.slot) :
  In s (Encoder.refs_store h e refs) ->
  obj (Encoder.slot_key s) = h \/ In s refs.
Proof.
  induction refs as [| x refs IH]; simpl.
  - intros [<- | []]. left. reflexivity.
  - destruct (header_eqb (obj (Encoder.slot_key x)) h) eqn:E.
    + intros [<- | Hin]; [| tauto].
      left. apply header_eqb_eq in E. exact E.
    + intros [<- | Hin]; [tauto |]. destruct (IH Hin); tauto.
Qed.

Lemma refs_store_lookup (h : header) (e : Emitted)
  (refs : list Encoder.slot) :
  exists s,
    Encoder.refs_lookup h (Encoder.refs_store h e refs) = Some s
    /\ Encoder.value_emitted s = e
    /\ obj (Encoder.slot_key s) = h.
Proof.
  unfold Encoder.refs_lookup.
  induction refs as [| x refs IH]; simpl.
  - rewrite header_eqb_refl. eexists. repeat split.
  - destruct (header_eqb (obj (Encoder.slot_key x)) h) eqn:E.
    + simpl. rewrite E. eexists. split; [reflexivity |].
      split; [reflexivity |]. apply header_eqb_eq in E. exact E.
    + simpl. rewrite E. exact IH.
Qed.

Lemma refs_remove_In (h : header) (refs : list Encoder.slot)
  (s : Encoder.slot) :
  In s (Encoder.refs_remove h refs) -> In s refs.
Proof. unfold Encoder.refs_remove. intros H. apply filter_In in H. tauto. Qed.

(** What a successful insertion did to the table and the reference set. *)
Lemma encoder_add_result (self s : Encoder.t) (h : header) :
  Encoder._add_to_header_table self h = Ok s ->
  exists evicted,
    h :: Encoder.header_table self = Encoder.header_table s ++ evicted
    /\ (forall x, In x (Encoder.reference_set s) <->
                  In x (Encoder.reference_set self)
                  /\ ~ In (obj (Encoder.slot_key x)) evicted)
    /\ Encoder._header_table_size s = Encoder._header_table_size self
    /\ (forall e evicted', evicted = e :: evicted' ->
          Encoder._header_table_size self
          < header_table_size (Encoder.header_table s) + entry_size e).
Proof.
  unfold Encoder._add_to_header_table.
  rewrite <- (header_table_size_rev (h :: Encoder.header_table self)).
  intros H. inv_bind H. destruct a as [table' refs'].
  injection H as <-.
  destruct (encoder_evict_spec _ _ _ _ _ Ha)
    as (popped & kept & Hsplit & -> & Hsize & Hrefs & Hmin).
  exists (rev popped). cbn.
  split.
  { rewrite <- rev_app_distr, <- Hsplit, rev_involutive. reflexivity. }
  split; [intros x; rewrite <- in_rev; apply Hrefs |].
  split; [reflexivity |].
  intros e evicted' He. rewrite header_table_size_rev.
  specialize (Hmin e (rev evicted')).
  rewrite <- (rev_involutive popped), He in Hmin. simpl in Hmin.
  specialize (Hmin eq_refl). lia.
Qed.

Lemma encoder_add_to_table_inside (self s : Encoder.t) (h : header) :
  encoder_refs_inside self ->
  Encoder._add_to_header_table self h = Ok s ->
  encoder_refs_inside s.
Proof.
  intros Hinv Hadd x Hx.
  destruct (encoder_add_result _ _ _ Hadd) as (evicted & Htable & Hrefs & _).
  apply Hrefs in Hx. destruct Hx as [Hx Hnot].
  specialize (Hinv x Hx).
  apply (kept_after_eviction (h :: Encoder.header_table self) _ evicted);
    [exact Htable | exact Hnot |].
  simpl. right. exact Hinv.
Qed.

Lemma encoder_remove_inside (self self' : Encoder.t) (h : header)
  (encoded : bytes) :
  encoder_refs_inside self ->
  Encoder.remove self h = Ok (self', encoded) ->
  encoder_refs_inside self'.
Proof.
  intros Hinv. unfold Encoder.remove. intros H.
  destruct (Encoder.matching_header self (fst h) (snd h))
    as [[index match_] |]; [| discriminate H].
  destruct ((match match_ with None => true | Some _ => false end)
            || (index >? len (Encoder.header_table self)));
    [discriminate H |].
  inv_bind H. inv_bind H. injection H as <- _.
  unfold Encoder.refs_del in Ha0.
  destruct (Encoder.refs_lookup h (Encoder.reference_set self));
    [| discriminate Ha0].
  injection Ha0 as <-. intros x Hx. cbn in *.
  apply Hinv. eapply refs_remove_In. exact Hx.
Qed.

(** X23. What [Encoder.add] does to the encoder, for a call that returns.
    - On a name-only match (the pair itself is in no table) the encoder is
      left exactly as it was: no table entry, no reference.
    - Otherwise the pair is afterwards in the reference set, tagged
      EMITTED, and, provided it fits in the table on its own
      ([32 + len(name) + len(value) <= header_table_size]), it is in the
      dynamic table; and a reference set that was inside the tables is
      still inside them. *)
Theorem encoder_add_spec (e e' : Encoder.t) (name value encoded : bytes)
  (huffman : bool) :
  Encoder.add e (name, value) huffman = Ok (e', encoded) ->
  (forall i, Encoder.matching_header e name value = Some (i, None) ->
             e' = e)
  /\ ((forall i, Encoder.matching_header e name value <> Some (i, None)) ->
      (exists s,
          Encoder.refs_lookup (name, value) (Encoder.reference_set e')
          = Some s
          /\ Encoder.value_emitted s = EMITTED)
      /\ (entry_size (name, value) <= Encoder._header_table_size e ->
          In (name, value) (Encoder.header_table e')
          /\ (encoder_refs_in_tables e = true ->
              encoder_refs_in_tables e' = true))).
Proof.
  intros H. unfold Encoder.add in H.
  pose proof (matching_header_cases e name value) as Hspec.
  cbv zeta in Hspec.
  destruct (Encoder.matching_header e name value)
    as [[i [perfect |]] |] eqn:Hmatch.
  - (* exact match *)
    split; [intros i' Habs; discriminate Habs |]. intros _.
    destruct Hspec as (-> & k & -> & Hk & _).
    inv_bind H. inv_bind H. destruct a0 as [e1 p]. injection H as <- _.
    assert (p = (name, value)
            /\ (entry_size (name, value) <= Encoder._header_table_size e ->
                In (name, value) (Encoder.header_table e1))
            /\ (encoder_refs_inside e -> encoder_refs_inside e1))
      as (-> & Htable & Hinside).
    { destruct (Z.gtb_spec (Z.of_nat k + 1) (len (Encoder.header_table e))).
      - inv_bind Ha0. injection Ha0 as <- <-.
        split; [reflexivity |]. split.
        + intros Hfit.
          destruct (encoder_add_result _ _ _ Ha1)
            as (evicted & Hsplit & _ & _ & Hmin).
          destruct (fits_stays_first _ _ _ _ _ Hsplit Hmin Hfit) as [tl ->].
          now left.
        + intros Hinv. eapply encoder_add_to_table_inside; eassumption.
      - injection Ha0 as <- <-. split; [reflexivity |]. split; [| tauto].
        intros _. unfold len in *.
        rewrite nth_error_app1 in Hk by lia.
        eapply nth_error_In. exact Hk. }
    split.
    + destruct (refs_store_lookup (name, value) EMITTED
                  (Encoder.reference_set e1)) as (s & Hs & He & _).
      exists s. split; assumption.
    + intros Hfit. split; [apply Htable; exact Hfit |].
      rewrite !encoder_refs_in_tables_iff. intros Hinv x Hx. cbn in *.
      apply refs_store_In in Hx. destruct Hx as [-> | Hx].
      * apply in_app_iff. left. apply Htable. exact Hfit.
      * apply Hinside; assumption.
  - (* name-only match *)
    split.
    + intros _ _. inv_bind H. injection H as <- _. reflexivity.
    + intros Habs. exfalso. eapply Habs. reflexivity.
  - (* no match *)
    split; [intros i' Habs; discriminate Habs |]. intros _.
    inv_bind H. inv_bind H. injection H as <- _.
    split.
    + destruct (refs_store_lookup (name, value) EMITTED
                  (Encoder.reference_set a0)) as (s & Hs & He & _).
      exists s. split; assumption.
    + intros Hfit.
      destruct (encoder_add_result _ _ _ Ha0)
        as (evicted & Hsplit & _ & _ & Hmin).
      destruct (fits_stays_first _ _ _ _ _ Hsplit Hmin Hfit) as [tl Htl].
      assert (In (name, value) (Encoder.header_table a0)) as Hin
        by (rewrite Htl; now left).
      split; [exact Hin |].
      rewrite !encoder_refs_in_tables_iff. intros Hinv x Hx. cbn in *.
      apply refs_store_In in Hx. destruct Hx as [-> | Hx].
      * apply in_app_iff. left. exact Hin.
      * eapply encoder_add_to_table_inside; eassumption.
Qed.

Lemma encoder_add_spec_witness :
  exists e' encoded,
    Encoder.add (Encoder.__init__ (fun x => x)) (bstr "a", bstr "b") false
    = Ok (e', encoded)
    /\ In (bstr "a", bstr "b") (Encoder.header_table e')
    /\ encoder_refs_in_tables e' = true.
Proof.
  assert (exists e' encoded,
             Encoder.add (Encoder.__init__ (fun x => x))
               (bstr "a", bstr "b") false = Ok (e', encoded))
    as (e' & encoded & Hadd) by (vm_compute; eauto).
  exists e', encoded. split; [exact Hadd |].
  destruct (encoder_add_spec _ _ _ _ _ _ Hadd) as [_ Hrest].
  destruct Hrest as [_ Hfit].
  - intros i Habs. vm_compute in Habs. discriminate Habs.
  - destruct Hfit as [Hin Hinv].
    + vm_compute. discriminate.
    + split; [exact Hin | apply Hinv; reflexivity].
Defined.

Lemma encoder_add_inside (self self' : Encoder.t) (h : header)
  (huffman : bool) (encoded : bytes) :
  encoder_refs_inside self ->
  entry_size h <= Encoder._header_table_size self ->
  Encoder.add self h huffman = Ok (self', encoded) ->
  encoder_refs_inside self'.
Proof.
  intros Hinv Hfit H. destruct h as [name value].
  unfold Encoder.add in H.
  pose proof (matching_header_cases self name value) as Hspec.
  cbv zeta in Hspec.
  destruct (Encoder.matching_header self name value)
    as [[i [perfect |]] |].
  - destruct Hspec as (-> & k & -> & Hk & _).
    inv_bind H. inv_bind H. destruct a0 as [e1 p]. injection H as <- _.
    assert (p = (name, value)
            /\ In (name, value) (Encoder.header_table e1)
            /\ encoder_refs_inside e1) as (-> & Htable & Hinside).
    { destruct (Z.gtb_spec (Z.of_nat k + 1)
                  (len (Encoder.header_table self))).
      - inv_bind Ha0. injection Ha0 as <- <-.
        split; [reflexivity |]. split.
        + destruct (encoder_add_result _ _ _ Ha1)
            as (evicted & Hsplit & _ & _ & Hmin).
          destruct (fits_stays_first _ _ _ _ _ Hsplit Hmin Hfit) as [tl ->].
          now left.
        + eapply encoder_add_to_table_inside; eassumption.
      - injection Ha0 as <- <-. split; [reflexivity |]. split; [| exact Hinv].
        unfold len in *. rewrite nth_error_app1 in Hk by lia.
        eapply nth_error_In. exact Hk. }
    intros x Hx. cbn in *. apply refs_store_In in Hx.
    destruct Hx as [-> | Hx]; [apply in_app_iff; now left |].
    apply Hinside. exact Hx.
  - inv_bind H. injection H as <- _. exact Hinv.
  - inv_bind H. inv_bind H. injection H as <- _.
    destruct (encoder_add_result _ _ _ Ha0)
      as (evicted & Hsplit & _ & _ & Hmin).
    destruct (fits_stays_first _ _ _ _ _ Hsplit Hmin Hfit) as [tl Htl].
    intros x Hx. cbn in *. apply refs_store_In in Hx.
    destruct Hx as [-> | Hx].
    + apply in_app_iff. left. rewrite Htl. now left.
    + eapply encoder_add_to_table_inside; eassumption.
Qed.

Lemma refs_set_value_emitted_obj (key : header) (e : Emitted)
  (refs : list Encoder.slot) (x : Encoder.slot) :
  In x (Encoder.refs_set_value_emitted key e refs) ->
  exists y, In y refs
            /\ obj (Encoder.slot_key x) = obj (Encoder.slot_key y).
Proof.
  unfold Encoder.refs_set_value_emitted. intros H.
  apply in_map_iff in H. destruct H as (y & <- & Hy).
  exists y. split; [exact Hy |].
  destruct (header_eqb (obj (Encoder.slot_key y)) key); [| reflexivity].
  destruct (Encoder.slot_value y); reflexivity.
Qed.

Lemma refs_unmark_obj (refs : list Encoder.slot) (x : Encoder.slot) :
  In x (Encoder.refs_unmark refs) ->
  exists y, In y refs
            /\ obj (Encoder.slot_key x) = obj (Encoder.slot_key y).
Proof.
  unfold Encoder.refs_unmark. intros H.
  apply in_map_iff in H. destruct H as (y & <- & Hy).
  exists y. split; [exact Hy | reflexivity].
Qed.

Lemma encode_header_inside (self self' : Encoder.t) (h : header)
  (huffman : bool) (block : list bytes) :
  encoder_refs_inside self ->
  entry_size h <= Encoder._header_table_size self ->
  Encoder.encode_header self h huffman = Ok (self', block) ->
  encoder_refs_inside self'.
Proof.
  intros Hinv Hfit H. unfold Encoder.encode_header in H.
  destruct (match Encoder.matching_header self (fst h) (snd h) with
            | Some (index, match_) => (index, match_)
            | None => (-1, None)
            end) as [index match_].
  assert (forall s,
             (' (s', b4) <- Encoder.add self h huffman ;; Ok (s', [b4]))
             = Ok (s, block) -> encoder_refs_inside s) as Hadd.
  { intros s Hs. inv_bind Hs. destruct a as [s' b4]. injection Hs as <- _.
    eapply encoder_add_inside; eassumption. }
  destruct (Encoder.get_from_reference_set self match_) as [ref |];
    [| destruct match_; apply Hadd; exact H].
  destruct match_ as [key |]; [| apply Hadd; exact H].
  destruct (negb (truthy (Encoder.value_emitted ref))).
  { injection H as <- _. intros x Hx. cbn in *.
    apply refs_set_value_emitted_obj in Hx. destruct Hx as (y & Hy & ->).
    apply Hinv. exact Hy. }
  inv_bind H. destruct a as [[[s1 blk] hdr] ref_obj].
  inv_bind H. destruct a as [s2 b3].
  inv_bind H. destruct a as [s3 b4]. injection H as <- _.
  assert (encoder_refs_inside s1
          /\ Encoder._header_table_size s1 = Encoder._header_table_size self
          /\ hdr = h) as (Hs1 & Hm1 & ->).
  { destruct (is_implicitly_emitted (Encoder.value_emitted ref)).
    - inv_bind Ha. destruct a as [sa b1].
      inv_bind Ha. destruct a as [sb b2].
      pose proof (matching_header_cases sb (fst h) (snd h)) as Hspec.
      cbv zeta in Hspec.
      destruct (Encoder.matching_header sb (fst h) (snd h))
        as [[i' header'] |]; [| discriminate Ha].
      destruct (Encoder.get_from_reference_set sb header') as [ref' |];
        [| discriminate Ha].
      destruct header' as [header' |]; [| discriminate Ha].
      injection Ha as <- _ <- _.
      destruct Hspec as [-> _].
      destruct (encoder_remove_kept _ _ _ _ Ha2) as [Hma _].
      destruct (encoder_add_kept _ _ _ _ _ Ha3) as [Hmb _].
      split; [| split; [congruence | destruct h; reflexivity]].
      eapply encoder_add_inside; [| | exact Ha3].
      + eapply encoder_remove_inside; eassumption.
      + rewrite Hma. exact Hfit.
    - injection Ha as <- _ <- _. repeat split. exact Hinv. }
  destruct (encoder_remove_kept _ _ _ _ Ha0) as [Hm2 _].
  eapply encoder_add_inside; [| | exact Ha1].
  - eapply encoder_remove_inside; eassumption.
  - rewrite Hm2, Hm1. exact Hfit.
Qed.

Lemma encode_headers_inside (headers : list header) (huffman : bool) :
  forall self self' blocks,
    encoder_refs_inside self ->
    (forall h, In h headers ->
               entry_size h <= Encoder._header_table_size self) ->
    Encoder.encode_headers self headers huffman = Ok (self', blocks) ->
    encoder_refs_inside self'.
Proof.
  induction headers as [| h headers IH];
    intros self self' blocks Hinv Hfit H.
  - injection H as <- _. exact Hinv.
  - cbn [Encoder.encode_headers] in H.
    inv_bind H. destruct a as [s1 block].
    inv_bind H. destruct a as [s2 blocks']. injection H as <- _.
    destruct (encode_header_kept _ _ _ _ _ Ha) as [Hm _].
    eapply IH; [| | exact Ha0].
    + eapply encode_header_inside; [exact Hinv | | exact Ha].
      apply Hfit. now left.
    + intros h' Hh'. rewrite Hm. apply Hfit. now right.
Qed.

Lemma remove_unemitted_inside (keys : list Reference) :
  forall self self' blocks,
    encoder_refs_inside self ->
    Encoder.remove_unemitted self keys = Ok (self', blocks) ->
    encoder_refs_inside self'.
Proof.
  induction keys as [| r keys IH]; intros self self' blocks Hinv H.
  - injection H as <- _. exact Hinv.
  - cbn [Encoder.remove_unemitted] in H.
    destruct (negb (truthy (emitted r))).
    + inv_bind H. destruct a as [s1 b1].
      inv_bind H. destruct a as [s2 blocks']. injection H as <- _.
      eapply IH; [| exact Ha0].
      eapply encoder_remove_inside; eassumption.
    + eapply IH; eassumption.
Qed.

(** X24. [Encoder.encode] keeps the reference set inside the tables as long
    as every header of the list fits in the table on its own: when every
    referenced pair is in the dynamic or the static table before the call,
    and [32 + len(name) + len(value) <= header_table_size] for every header
    (after its conversion to bytes), then every referenced pair is in the
    dynamic or the static table after a call that returns. *)
Theorem encode_keeps_references (self self' : Encoder.t)
  (headers : Encoder.headers_arg) (coerced : list header) (huffman : bool)
  (block : bytes) :
  encoder_refs_in_tables self = true ->
  Encoder.to_bytes_all
    (match headers with
     | Encoder.HeaderList l => l
     | Encoder.HeaderDict items => items
     end) = Ok coerced ->
  (forall h, In h coerced ->
             entry_size h <= Encoder._header_table_size self) ->
  Encoder.encode self headers huffman = Ok (self', block) ->
  encoder_refs_in_tables self' = true.
Proof.
  intros Hinv Hco Hfit H.
  rewrite encoder_refs_in_tables_iff in Hinv |- *.
  unfold Encoder.encode in H. rewrite Hco in H. cbn [bind] in H.
  inv_bind H. destruct a as [s1 header_block].
  inv_bind H. destruct a as [s2 removals]. injection H as <- _.
  eapply remove_unemitted_inside; [| exact Ha0].
  eapply encode_headers_inside; [| | exact Ha].
  - intros x Hx. cbn in *. apply refs_unmark_obj in Hx.
    destruct Hx as (y & Hy & ->). apply Hinv. exact Hy.
  - exact Hfit.
Qed.

Lemma encode_keeps_references_witness :
  exists self' block,
    Encoder.encode (Encoder.__init__ (fun x => x)) request_1 false
    = Ok (self', block)
    /\ encoder_refs_in_tables self' = true.
Proof.
  assert (exists self' block,
             Encoder.encode (Encoder.__init__ (fun x => x)) request_1 false
             = Ok (self', block)) as (self' & block & Henc)
    by (vm_compute; eauto).
  exists self', block. split; [exact Henc |].
  apply (encode_keeps_references (Encoder.__init__ (fun x => x)) self'
           request_1
           [(bstr ":method", bstr "GET"); (bstr ":scheme", bstr "http");
            (bstr ":path", bstr "/");
            (bstr ":authority", bstr "www.example.com")] false block).
  - reflexivity.
  - reflexivity.
  - intros h Hh. simpl in Hh.
    destruct Hh as [<- | [<- | [<- | [<- | []]]]]; vm_compute; discriminate.
  - exact Henc.
Defined.

(** ** Headers that are already referenced *)

Lemma refs_lookup_Some (h : header) (refs : list Encoder.slot)
  (s : Encoder.slot) :
  Encoder.refs_lookup h refs = Some s ->
  In s refs /\ obj (Encoder.slot_key s) = h.
Proof.
  unfold Encoder.refs_lookup. intros H. apply find_some in H.
  destruct H as [Hin Heq]. apply header_eqb_eq in Heq. tauto.
Qed.

Lemma refs_lookup_In (h : header) (refs : list Encoder.slot)
  (s : Encoder.slot) :
  In s refs -> obj (Encoder.slot_key s) = h ->
  exists s', Encoder.refs_lookup h refs = Some s'.
Proof.
  unfold Encoder.refs_lookup. intros Hin Heq.
  destruct (find _ refs) as [s' |] eqn:E; [eexists; reflexivity |].
  exfalso. pose proof (find_none _ _ E s Hin) as Hn. cbv beta in Hn.
  rewrite Heq, header_eqb_refl in Hn. discriminate Hn.
Qed.

(** In a dictionary the keys are pairwise different, so a lookup finds the
    one slot of a pair. *)
Lemma refs_lookup_unique (refs : list Encoder.slot) (s : Encoder.slot) :
  NoDup (List.map (fun x => obj (Encoder.slot_key x)) refs) ->
  In s refs ->
  Encoder.refs_lookup (obj (Encoder.slot_key s)) refs = Some s.
Proof.
  unfold Encoder.refs_lookup.
  induction refs as [| x refs IH]; intros Hnd Hin; [destruct Hin |].
  simpl in Hnd. inversion Hnd as [| ? ? Hx Hnd']; subst.
  simpl. destruct Hin as [-> | Hin].
  - rewrite header_eqb_refl. reflexivity.
  - destruct (header_eqb (obj (Encoder.slot_key x))
                (obj (Encoder.slot_key s))) eqn:E.
    + exfalso. apply header_eqb_eq in E. apply Hx. rewrite E.
      apply in_map_iff. exists s. split; [reflexivity | exact Hin].
    + apply IH; assumption.
Qed.

(** [remove] on a pair that is in the dynamic table and in the reference
    set. *)
Lemma encoder_remove_dynamic (self : Encoder.t) (h : header)
  (s : Encoder.slot) :
  In h (Encoder.header_table self) ->
  Encoder.refs_lookup h (Encoder.reference_set self) = Some s ->
  exists k c tl,
    nth_error (Encoder.header_table self) k = Some h
    /\ encode_integer (Z.of_nat k + 1) 7 = Ok (c :: tl)
    /\ 0 <= c < 128
    /\ Encoder.remove self h
       = Ok (Encoder.with_refs self
               (Encoder.refs_remove h (Encoder.reference_set self)),
             Z.lor c 0x80 :: tl).
Proof.
  destruct h as [n v]. intros Hin Hlook.
  destruct (matching_header_dynamic self n v Hin) as (k & Hm & Hk & _).
  destruct (encode_indexed_ok (Z.of_nat k + 1) ltac:(lia))
    as (c & tl & Henc & Hc & Hrep).
  exists k, c, tl. split; [exact Hk |]. split; [exact Henc |].
  split; [exact Hc |].
  assert (k < List.length (Encoder.header_table self))%nat as Hlt
    by (eapply nth_error_lt; exact Hk).
  unfold Encoder.remove. cbn [fst snd]. rewrite Hm. cbn [orb].
  destruct (Z.gtb_spec (Z.of_nat k + 1) (len (Encoder.header_table self)));
    [unfold len in *; lia |].
  rewrite Hrep. cbn [bind]. unfold Encoder.refs_del. rewrite Hlook.
  reflexivity.
Qed.

(** The body of the loop of [encode] on a header whose pair is in the
    dynamic table and referenced but not yet emitted: nothing is written,
    the reference is marked. *)
Lemma encode_header_implicit (self : Encoder.t) (h : header)
  (s : Encoder.slot) (huffman : bool) :
  In h (Encoder.header_table self) ->
  Encoder.refs_lookup h (Encoder.reference_set self) = Some s ->
  Encoder.value_emitted s = NOT_EMITTED ->
  Encoder.encode_header self h huffman
  = Ok (Encoder.with_refs self
          (Encoder.refs_set_value_emitted h IMPLICITLY_EMITTED
             (Encoder.reference_set self)), []).
Proof.
  destruct h as [n v]. intros Hin Hlook Hem.
  destruct (matching_header_dynamic self n v Hin) as (k & Hm & _).
  unfold Encoder.encode_header. cbn [fst snd]. rewrite Hm.
  cbn [Encoder.get_from_reference_set]. rewrite Hlook, Hem. reflexivity.
Qed.

Lemma refs_set_value_emitted_map (h : header)
  (refs : list Encoder.slot) :
  (forall s, In s refs -> Encoder.slot_value s = None) ->
  Encoder.refs_set_value_emitted h IMPLICITLY_EMITTED refs
  = List.map (fun s => if header_eqb (obj (Encoder.slot_key s)) h
                       then implicitly s else s) refs.
Proof.
  intros Hnone. unfold Encoder.refs_set_value_emitted.
  apply map_ext_in. intros s Hs.
  destruct (header_eqb (obj (Encoder.slot_key s)) h); [| reflexivity].
  rewrite (Hnone s Hs). reflexivity.
Qed.

(** The loop of [encode] over distinct headers that are all in the dynamic
    table and referenced, none being emitted yet: nothing is written, and
    exactly the references to these headers are marked. *)
Lemma encode_headers_implicit (huffman : bool) (hs : list header) :
  forall self,
    NoDup hs ->
    NoDup (List.map (fun s => obj (Encoder.slot_key s))
             (Encoder.reference_set self)) ->
    (forall s, In s (Encoder.reference_set self) ->
               Encoder.slot_value s = None) ->
    (forall h, In h hs ->
               In h (Encoder.header_table self)
               /\ exists s, In s (Encoder.reference_set self)
                            /\ obj (Encoder.slot_key s) = h
                            /\ emitted (Encoder.slot_key s) = NOT_EMITTED) ->
    Encoder.encode_headers self hs huffman
    = Ok (Encoder.with_refs self
            (List.map (fun s => if slot_among hs s then implicitly s else s)
               (Encoder.reference_set self)), []).
Proof.
  induction hs as [| h hs IH]; intros self Hnd Hkeys Hnone Hall.
  - cbn [Encoder.encode_headers]. unfold slot_among. simpl existsb.
    rewrite map_id. destruct self; reflexivity.
  - inversion Hnd as [| ? ? Hh Hnd']; subst.
    destruct (Hall h (or_introl eq_refl)) as (Hin & s & Hs & Hobj & Hem).
    cbn [Encoder.encode_headers].
    rewrite (encode_header_implicit self h s huffman Hin).
    2: { rewrite <- Hobj. apply refs_lookup_unique; assumption. }
    2: { unfold Encoder.value_emitted. rewrite (Hnone s Hs). exact Hem. }
    cbn [bind]. rewrite refs_set_value_emitted_map by exact Hnone.
    rewrite IH; cbn [Encoder.reference_set Encoder.with_refs
                      Encoder.header_table].
    + cbn [bind]. f_equal. f_equal. unfold Encoder.with_refs. cbn.
      f_equal. rewrite map_map. apply map_ext. intros x.
      unfold slot_among. cbn [existsb].
      destruct (header_eqb (obj (Encoder.slot_key x)) h) eqn:E.
      * cbn [orb]. apply header_eqb_eq in E.
        replace (existsb (header_eqb (obj (Encoder.slot_key (implicitly x))))
                   hs) with false; [reflexivity |].
        symmetry. apply not_true_is_false. intros Hex.
        apply existsb_exists in Hex. destruct Hex as (y & Hy & Heq).
        apply header_eqb_eq in Heq. cbn in Heq. apply Hh. congruence.
      * cbn [orb]. reflexivity.
    + exact Hnd'.
    + rewrite map_map.
      erewrite map_ext; [exact Hkeys |]. intros x. cbn.
      destruct (header_eqb (obj (Encoder.slot_key x)) h); reflexivity.
    + intros x Hx. apply in_map_iff in Hx. destruct Hx as (y & <- & Hy).
      destruct (header_eqb (obj (Encoder.slot_key y)) h);
        [reflexivity | apply Hnone; exact Hy].
    + intros h' Hh'.
      destruct (Hall h' (or_intror Hh')) as (Hin' & s' & Hs' & Hobj' & Hem').
      split; [exact Hin' |]. exists s'.
      split; [| split; assumption].
      apply in_map_iff. exists s'. split; [| exact Hs'].
      destruct (header_eqb (obj (Encoder.slot_key s')) h) eqn:E;
        [| reflexivity].
      exfalso. apply header_eqb_eq in E. apply Hh. congruence.
Qed.

Lemma filter_filter {A : Type} (p q : A -> bool) (l : list A) :
  filter p (filter q l) = filter (fun x => q x && p x) l.
Proof.
  induction l as [| a l IH]; [reflexivity |]. simpl.
  destruct (q a); simpl; [destruct (p a) |]; rewrite IH; reflexivity.
Qed.

(** The loop at the end of [encode], run on keys with pairwise different
    pairs, the unemitted ones being in the dynamic table and in the
    reference set: it writes one representation per unemitted key and
    deletes exactly these from the reference set. *)
Lemma remove_unemitted_spec (keys : list Reference) :
  forall self,
    NoDup (List.map obj keys) ->
    (forall r, In r keys -> unemitted r = true ->
               In (obj r) (Encoder.header_table self)
               /\ exists s, In s (Encoder.reference_set self)
                            /\ obj (Encoder.slot_key s) = obj r) ->
    exists blocks,
      Encoder.remove_unemitted self keys
      = Ok (Encoder.with_refs self
              (filter (fun s => negb (slot_among
                                        (List.map obj (filter unemitted keys))
                                        s))
                 (Encoder.reference_set self)), blocks)
      /\ List.length blocks = List.length (filter unemitted keys)
      /\ Forall (fun b => b <> []) blocks.
Proof.
  induction keys as [| r keys IH]; intros self Hnd Hall.
  - exists []. split; [| split; [reflexivity | constructor]].
    cbn [Encoder.remove_unemitted filter List.map].
    assert (forall (l : list Encoder.slot),
               filter (fun s => negb (slot_among [] s)) l = l) as Hid
      by (induction l as [| a l IHl];
          [reflexivity | unfold slot_among in *; simpl in *; rewrite IHl;
                         reflexivity]).
    rewrite Hid. destruct self; reflexivity.
  - simpl in Hnd. inversion Hnd as [| ? ? Hr Hnd']; subst.
    cbn [Encoder.remove_unemitted filter].
    fold (unemitted r). destruct (unemitted r) eqn:Hun.
    + destruct (Hall r (or_introl eq_refl) Hun) as (Hin & s & Hs & Hobj).
      destruct (refs_lookup_In (obj r) _ s Hs Hobj) as [s' Hlook].
      destruct (encoder_remove_dynamic self (obj r) s' Hin Hlook)
        as (k & c & tl & _ & _ & _ & Hrem).
      rewrite Hrem. cbn [bind].
      destruct (IH (Encoder.with_refs self
                      (Encoder.refs_remove (obj r)
                         (Encoder.reference_set self))) Hnd')
        as (blocks & Hrest & Hlen & Hne).
      { intros r' Hr' Hun'.
        destruct (Hall r' (or_intror Hr') Hun') as (Hin' & x & Hx & Hobjx).
        split; [exact Hin' |]. exists x. split; [| exact Hobjx].
        cbn. unfold Encoder.refs_remove. apply filter_In.
        split; [exact Hx |]. apply negb_true_iff, header_eqb_neq.
        intros Heq. apply Hr. rewrite <- Heq, Hobjx.
        apply in_map. exact Hr'. }
      rewrite Hrest. cbn [bind].
      exists ((Z.lor c 0x80 :: tl) :: blocks).
      split; [| split; [simpl; rewrite Hlen; reflexivity
                       | constructor; [discriminate | exact Hne]]].
      f_equal. f_equal. unfold Encoder.with_refs. cbn. f_equal.
      unfold Encoder.refs_remove. rewrite filter_filter.
      apply filter_ext. intros x. unfold slot_among. cbn [List.map existsb].
      rewrite negb_orb. reflexivity.
    + apply IH; [exact Hnd' |].
      intros r' Hr' Hun'. apply Hall; [now right | exact Hun'].
Qed.

Lemma insert_sorted_In (x r : Reference) (l : list Reference) :
  In r (Encoder.insert_sorted x l) <-> r = x \/ In r l.
Proof.
  induction l as [| y l IH]; simpl; [intuition |].
  destruct (header_ltb (obj x) (obj y)); simpl; [intuition |].
  rewrite IH. intuition.
Qed.

Lemma insert_sorted_NoDup (x : Reference) (l : list Reference) :
  ~ In (obj x) (List.map obj l) -> NoDup (List.map obj l) ->
  NoDup (List.map obj (Encoder.insert_sorted x l)).
Proof.
  induction l as [| y l IH]; intros Hx Hnd; simpl.
  - constructor; [tauto | constructor].
  - destruct (header_ltb (obj x) (obj y)); simpl.
    + constructor; assumption.
    + simpl in Hx, Hnd. inversion Hnd as [| ? ? Hy Hnd']; subst.
      constructor.
      * intros Hin. apply in_map_iff in Hin. destruct Hin as (z & Hz & Hin).
        apply insert_sorted_In in Hin. destruct Hin as [-> | Hin].
        -- apply Hx. left. symmetry. exact Hz.
        -- apply Hy. rewrite <- Hz. apply in_map. exact Hin.
      * apply IH; [tauto | exact Hnd'].
Qed.

Lemma NoDup_app_disjoint {A : Type} (l1 l2 : list A) (a : A) :
  NoDup (l1 ++ l2) -> In a l1 -> ~ In a l2.
Proof.
  induction l1 as [| x l1 IH]; intros Hnd Hin; [destruct Hin |].
  simpl in Hnd. inversion Hnd as [| ? ? Hx Hnd']; subst.
  destruct Hin as [-> | Hin].
  - intros Ha. apply Hx. apply in_app_iff. now right.
  - apply IH; assumption.
Qed.

Lemma sorted_keys_acc (refs : list Encoder.slot) :
  forall acc,
    let sorted :=
      fold_left (fun acc s => Encoder.insert_sorted (Encoder.slot_key s) acc)
        refs acc in
    (forall r, In r sorted <->
               In r acc \/ In r (List.map Encoder.slot_key refs))
    /\ (NoDup (List.map obj acc ++
               List.map (fun s => obj (Encoder.slot_key s)) refs) ->
        NoDup (List.map obj sorted)).
Proof.
  induction refs as [| s refs IH]; intros acc; cbn zeta.
  - simpl. split; [intros r; tauto |]. rewrite app_nil_r. tauto.
  - cbn [fold_left List.map].
    destruct (IH (Encoder.insert_sorted (Encoder.slot_key s) acc))
      as [Hin Hnd]. cbn zeta in Hin, Hnd.
    split.
    + intros r. rewrite Hin, insert_sorted_In. simpl.
      split; intros H; intuition (subst; auto).
    + intros H. apply Hnd.
      apply NoDup_remove in H. destruct H as [H Hs].
      rewrite in_app_iff in Hs.
      pose proof (NoDup_app_remove_l _ _ H) as Hrefs.
      pose proof (NoDup_app_remove_r _ _ H) as Hacc.
      apply NoDup_app.
      * apply insert_sorted_NoDup; tauto.
      * exact Hrefs.
      * intros a Ha Ha'. apply in_map_iff in Ha.
        destruct Ha as (z & <- & Hz). apply insert_sorted_In in Hz.
        destruct Hz as [-> | Hz]; [tauto |].
        eapply (NoDup_app_disjoint _ _ (obj z) H);
          [apply in_map; exact Hz | exact Ha'].
Qed.

Lemma sorted_keys_In (refs : list Encoder.slot) (r : Reference) :
  In r (Encoder.sorted_keys refs) <-> In r (List.map Encoder.slot_key refs).
Proof.
  unfold Encoder.sorted_keys.
  destruct (sorted_keys_acc refs []) as [Hin _]. cbn zeta in Hin.
  rewrite Hin. simpl. tauto.
Qed.

Lemma sorted_keys_NoDup (refs : list Encoder.slot) :
  NoDup (List.map (fun s => obj (Encoder.slot_key s)) refs) ->
  NoDup (List.map obj (Encoder.sorted_keys refs)).
Proof.
  unfold Encoder.sorted_keys.
  destruct (sorted_keys_acc refs []) as [_ Hnd]. exact Hnd.
Qed.

Lemma slot_among_In (hs : list header) (s : Encoder.slot) :
  slot_among hs s = true <-> In (obj (Encoder.slot_key s)) hs.
Proof.
  unfold slot_among. rewrite existsb_exists. split.
  - intros (h & Hh & Heq). apply header_eqb_eq in Heq. now rewrite Heq.
  - intros Hin. exists (obj (Encoder.slot_key s)).
    split; [exact Hin | apply header_eqb_refl].
Qed.

Lemma marked_obj (hs : list header) (s : Encoder.slot) :
  obj (Encoder.slot_key (marked hs s)) = obj (Encoder.slot_key s).
Proof. unfold marked. destruct (slot_among hs s); reflexivity. Qed.

Lemma marked_unemitted (hs : list header) (s : Encoder.slot) :
  unemitted (Encoder.slot_key (marked hs s)) = negb (slot_among hs s).
Proof. unfold marked. destruct (slot_among hs s); reflexivity. Qed.

Lemma marked_objs (hs : list header) (refs : list Encoder.slot) :
  List.map (fun s => obj (Encoder.slot_key s)) (List.map (marked hs) refs)
  = List.map (fun s => obj (Encoder.slot_key s)) refs.
Proof. rewrite map_map. apply map_ext. intros s. apply marked_obj. Qed.

(** The pairs that the loop at the end of [encode] removes are those of
    the slots that are not among the headers. *)
Lemma removed_pairs (hs : list header) (refs : list Encoder.slot)
  (h : header) :
  In h (List.map obj
          (filter unemitted
             (Encoder.sorted_keys (List.map (marked hs) refs))))
  <-> exists s, In s refs /\ obj (Encoder.slot_key s) = h
                /\ slot_among hs s = false.
Proof.
  rewrite in_map_iff. split.
  - intros (r & <- & Hr). apply filter_In in Hr. destruct Hr as [Hr Hun].
    apply sorted_keys_In in Hr. apply in_map_iff in Hr.
    destruct Hr as (x & <- & Hx). apply in_map_iff in Hx.
    destruct Hx as (s & <- & Hs). exists s. split; [exact Hs |].
    split; [symmetry; apply marked_obj |].
    rewrite marked_unemitted in Hun. now apply negb_true_iff.
  - intros (s & Hs & <- & Ham). exists (Encoder.slot_key (marked hs s)).
    split; [apply marked_obj |]. apply filter_In. split.
    + apply sorted_keys_In. apply in_map. apply in_map. exact Hs.
    + rewrite marked_unemitted, Ham. reflexivity.
Qed.

Lemma kept_slots (hs : list header) (p : Encoder.slot -> bool)
  (refs : list Encoder.slot) :
  (forall s, In s refs -> p (marked hs s) = slot_among hs s) ->
  filter p (List.map (marked hs) refs)
  = List.map implicitly (filter (slot_among hs) refs).
Proof.
  induction refs as [| a refs IH]; intros Hp; [reflexivity |].
  cbn [List.map filter]. rewrite (Hp a (or_introl eq_refl)).
  rewrite IH by (intros s Hs; apply Hp; now right).
  unfold marked. destruct (slot_among hs a); reflexivity.
Qed.

Lemma concat_nonempty (blocks : list bytes) :
  Forall (fun b => b <> []) blocks ->
  List.concat blocks = [] -> blocks = [].
Proof.
  intros Hne Hc. destruct blocks as [| b blocks]; [reflexivity |].
  inversion Hne as [| ? ? Hb _]; subst. simpl in Hc.
  apply app_eq_nil in Hc. destruct Hc as [Hc _]. contradiction.
Qed.

(** X25. [encode] on a list of pairwise different headers that are all
    referenced, the reference set being a dictionary of references to
    entries of the dynamic table: the call succeeds; the reference set it
    leaves holds exactly the references to the given headers, all marked
    as implicitly emitted; and the header block is empty exactly when
    every reference is to one of the given headers (otherwise it holds
    the removals of the others). *)
Theorem encode_referenced_headers (self : Encoder.t)
  (items : list (pyobj * pyobj)) (hs : list header) (huffman : bool) :
  Encoder.to_bytes_all items = Ok hs ->
  NoDup hs ->
  NoDup (List.map (fun s => obj (Encoder.slot_key s))
           (Encoder.reference_set self)) ->
  (forall s, In s (Encoder.reference_set self) ->
             Encoder.slot_value s = None
             /\ In (obj (Encoder.slot_key s)) (Encoder.header_table self)) ->
  (forall h, In h hs ->
             exists s, In s (Encoder.reference_set self)
                       /\ obj (Encoder.slot_key s) = h) ->
  exists block,
    Encoder.encode self (Encoder.HeaderList items) huffman
    = Ok (Encoder.with_refs self
            (List.map implicitly
               (filter (slot_among hs) (Encoder.reference_set self))),
          block)
    /\ (block = [] <->
        forall s, In s (Encoder.reference_set self) ->
                  slot_among hs s = true).
Proof.
  intros Hitems Hnd Hkeys Hslots Hall.
  set (refs := Encoder.reference_set self) in *.
  unfold Encoder.encode. rewrite Hitems. cbn [bind].
  (* the loop over the headers *)
  rewrite encode_headers_implicit;
    cbn [Encoder.reference_set Encoder.with_refs Encoder.header_table];
    fold refs.
  2: exact Hnd.
  2: { unfold Encoder.refs_unmark. rewrite map_map. exact Hkeys. }
  2: { intros s Hs. unfold Encoder.refs_unmark in Hs.
       apply in_map_iff in Hs. destruct Hs as (x & <- & Hx).
       cbn. apply Hslots. exact Hx. }
  2: { intros h Hh. destruct (Hall h Hh) as (s & Hs & Hobj).
       split; [rewrite <- Hobj; apply Hslots; exact Hs |].
       eexists. split; [unfold Encoder.refs_unmark; apply in_map; exact Hs |].
       cbn. split; [exact Hobj | reflexivity]. }
  cbn [bind].
  assert (List.map (fun s => if slot_among hs s then implicitly s else s)
            (Encoder.refs_unmark refs)
          = List.map (marked hs) refs) as ->.
  { unfold Encoder.refs_unmark. rewrite map_map. apply map_ext_in.
    intros s Hs. unfold marked, slot_among. cbn.
    destruct (existsb _ hs); reflexivity. }
  (* the loop over the sorted keys *)
  destruct (remove_unemitted_spec
              (Encoder.sorted_keys (List.map (marked hs) refs))
              (Encoder.with_refs
                 (Encoder.with_refs self (Encoder.refs_unmark refs))
                 (List.map (marked hs) refs)))
    as (blocks & Hrem & Hlen & Hne).
  { apply sorted_keys_NoDup. rewrite marked_objs. exact Hkeys. }
  { intros r Hr _. apply sorted_keys_In in Hr. apply in_map_iff in Hr.
    destruct Hr as (x & <- & Hx).
    cbn [Encoder.reference_set Encoder.with_refs Encoder.header_table].
    split; [| exists x; split; [exact Hx | reflexivity]].
    apply in_map_iff in Hx. destruct Hx as (s & <- & Hs).
    rewrite marked_obj. apply Hslots. exact Hs. }
  cbn [Encoder.reference_set Encoder.with_refs] in Hrem.
  unfold Encoder.with_refs in *.
  cbn [Encoder.reference_set Encoder.header_table
       Encoder._header_table_size Encoder.huffman_coder] in *.
  rewrite Hrem. cbn [bind app].
  exists (List.concat blocks). split.
  - rewrite kept_slots; [reflexivity |]. intros s Hs.
    destruct (slot_among hs s) eqn:Ham.
    + apply negb_true_iff, not_true_is_false. intros Hin.
      apply slot_among_In in Hin. rewrite marked_obj in Hin.
      apply removed_pairs in Hin. destruct Hin as (s' & _ & Hobj & Ham').
      apply not_true_iff_false in Ham'. apply Ham'.
      apply slot_among_In. rewrite Hobj. apply slot_among_In. exact Ham.
    + apply negb_false_iff. apply slot_among_In. rewrite marked_obj.
      apply removed_pairs. exists s. tauto.
  - split.
    + intros Hempty s Hs.
      apply concat_nonempty in Hempty; [| exact Hne]. subst blocks.
      destruct (slot_among hs s) eqn:Ham; [reflexivity | exfalso].
      assert (In (obj (Encoder.slot_key s))
                (List.map obj
                   (filter unemitted
                      (Encoder.sorted_keys (List.map (marked hs) refs)))))
        as Hin by (apply removed_pairs; exists s; tauto).
      destruct (filter unemitted _); [destruct Hin | discriminate Hlen].
    + intros Hamong.
      destruct (filter unemitted
                  (Encoder.sorted_keys (List.map (marked hs) refs)))
        as [| r keys] eqn:Hkeys'.
      * destruct blocks; [reflexivity | discriminate Hlen].
      * exfalso.
        assert (In (obj r)
                  (List.map obj
                     (filter unemitted
                        (Encoder.sorted_keys (List.map (marked hs) refs)))))
          as Hin by (rewrite Hkeys'; now left).
        apply removed_pairs in Hin. destruct Hin as (s & Hs & _ & Ham).
        rewrite (Hamong s Hs) in Ham. discriminate Ham.
Qed.

Lemma encode_referenced_headers_witness :
  exists block,
    Encoder.encode two_custom_headers
      (Encoder.HeaderList [bpair "foo" "bar"]) false
    = Ok (Encoder.with_refs two_custom_headers
            (List.map implicitly
               (filter (slot_among [(bstr "foo", bstr "bar")])
                  (Encoder.reference_set two_custom_headers))),
          block)
    /\ (block = [] <->
        forall s, In s (Encoder.reference_set two_custom_headers) ->
                  slot_among [(bstr "foo", bstr "bar")] s = true).
Proof.
  apply (encode_referenced_headers two_custom_headers [bpair "foo" "bar"]
           [(bstr "foo", bstr "bar")] false).
  - reflexivity.
  - constructor; [simpl; tauto | constructor].
  - simpl. constructor; [| constructor; [simpl; tauto | constructor]].
    intros [H | []]. discriminate H.
  - intros s [<- | [<- | []]]; split; try reflexivity; simpl; tauto.
  - intros h [<- | []]. eexists. split; [left; reflexivity | reflexivity].
Defined.

(** X26. Removal keeps the two sides in step. Let the decoder hold the
    same dynamic table as the encoder. When [Encoder.remove] succeeds on a
    pair, one round of [Decoder.decode] on what it wrote consumes exactly
    that, leaves the dynamic table alone and emits nothing if the pair was
    in the decoder's reference set, from which it is then discarded. If the
    decoder did not reference the pair, the same octets make it emit the
    pair and reference it instead. *)
Theorem remove_synchronised (e e' : Encoder.t) (d : Decoder.t)
  (h : header) (encoded rest : bytes) :
  Decoder.header_table d = Encoder.header_table e ->
  Encoder.remove e h = Ok (e', encoded) ->
  Encoder.header_table e' = Encoder.header_table e
  /\ (In h (Decoder.reference_set d) ->
      Decoder.decode_step d (encoded ++ rest) 0
      = Ok (Decoder.with_refs d
              (Decoder.set_discard h (Decoder.reference_set d)),
            None, len encoded))
  /\ (~ In h (Decoder.reference_set d) ->
      Decoder.decode_step d (encoded ++ rest) 0
      = Ok (Decoder.with_refs d
              (Decoder.set_add h (Decoder.reference_set d)),
            Some h, len encoded)).
Proof.
  destruct h as [n v]. intros Htable H. unfold Encoder.remove in H.
  cbn [fst snd] in H.
  pose proof (matching_header_cases e n v) as Hspec. cbv zeta in Hspec.
  destruct (Encoder.matching_header e n v) as [[i [p |]] |];
    [| discriminate H | discriminate H].
  destruct Hspec as (-> & k & -> & Hk & _). cbn [orb] in H.
  destruct (Z.gtb_spec (Z.of_nat k + 1) (len (Encoder.header_table e)))
    as [| Hle]; [discriminate H |].
  destruct (encode_indexed_ok (Z.of_nat k + 1) ltac:(lia))
    as (c & tl & Henc & Hc & Hrep).
  rewrite Hrep in H. cbn [bind] in H. inv_bind H. injection H as <- <-.
  split; [reflexivity |].
  rewrite <- Htable in Hk, Hle.
  change Encoder.static_table with Decoder.static_table in Hk.
  assert (Decoder.decode_step d ((Z.lor c 0x80 :: tl) ++ rest) 0
          = Ok (toggle d (n, v) (len (Z.lor c 0x80 :: tl)))) as Hstep.
  { rewrite (decode_step_indexed_entry d k c tl rest (n, v) Henc Hc Hk)
      by lia.
    destruct (Z.gtb_spec (Z.of_nat k + 1) (len (Decoder.header_table d)));
      [lia | reflexivity]. }
  rewrite Hstep. unfold toggle. split; intros Hin.
  - apply mem_In in Hin. rewrite Hin. reflexivity.
  - apply mem_not_In in Hin. rewrite Hin. reflexivity.
Qed.

Lemma remove_synchronised_witness :
  exists e' encoded,
    Encoder.remove two_custom_headers (bstr "baz", bstr "qux")
    = Ok (e', encoded)
    /\ Decoder.decode_step two_custom_headers_read (encoded ++ [0x82]) 0
       = Ok (Decoder.with_refs two_custom_headers_read
               [(bstr "foo", bstr "bar")], None, len encoded).
Proof.
  assert (exists e' encoded,
             Encoder.remove two_custom_headers (bstr "baz", bstr "qux")
             = Ok (e', encoded))
    as (e' & encoded & Hrem) by (vm_compute; eauto).
  exists e', encoded. split; [exact Hrem |].
  destruct (remove_synchronised two_custom_headers e'
              two_custom_headers_read (bstr "baz", bstr "qux") encoded
              [0x82] eq_refl Hrem) as (_ & Hin & _).
  apply Hin. simpl. tauto.
Defined.
